(** * TellStore: the paged log substrate and the row-store page collector

    A shallow embedding of [util/Log.cpp] and
    [deltamain/rowstore/RowStorePage.cpp].

    Machine integers are values of [Z] with their wrap-around written
    out ([u32], [u64]).  The log is lock-free code: every method is cut
    at its accesses to shared memory, each access is one atomic step of
    a per-thread program counter, and a schedule interleaves the steps
    of all threads (sequentially consistent atomics, as the methods use
    the default memory order). *)

From Stdlib Require Import ZArith Lia Bool List.
From stdpp Require Import base option numbers list gmap.

Local Open Scope Z_scope.

(** [lia] also decides goals with division and remainder by a constant. *)
Ltac Zify.zify_post_hook ::= Z.to_euclidean_division_equations.

(** ** Machine arithmetic *)

Definition u32 (x : Z) : Z := x mod 2 ^ 32.
Definition u64 (x : Z) : Z := x mod 2 ^ 64.

(** [std::atomic<T>::compare_exchange_strong(expected, desired)] on a
    cell holding [cur]: the new cell value, the success flag and the
    new value of [expected]. *)
Definition compare_exchange_strong (cur expected desired : Z) : Z * bool * Z :=
  if cur =? expected then (desired, true, expected) else (cur, false, cur).

(** The constants of [Log.hpp] and [config.h], which the sources of the
    log only use: the size reserved for an entry header, the size
    reserved for a page header, and the page size. *)
Class Layout : Type := mkLayout {
  LOG_ENTRY_SIZE : Z;
  LOG_HEADER_SIZE : Z;
  TELL_PAGE_SIZE : Z
}.

Module Log.

Section Layout.

Context {L : Layout}.

Definition MAX_ENTRY_SIZE : Z := TELL_PAGE_SIZE - LOG_HEADER_SIZE.

(** The layout the log relies on: an entry header that is no larger
    than one 16-byte alignment unit, a page header that puts the data
    area at offset 8 of a 16-byte unit, room for one entry header in a
    page, and pages whose byte positions fit 30 bits. *)
Definition layout_ok : Prop :=
  0 < LOG_ENTRY_SIZE <= 16 /\
  0 <= LOG_HEADER_SIZE /\ LOG_HEADER_SIZE mod 16 = 8 /\
  LOG_HEADER_SIZE + LOG_ENTRY_SIZE <= TELL_PAGE_SIZE /\
  TELL_PAGE_SIZE < 2 ^ 30.

(** Modelled from the spec: [LogEntry::entrySizeFromSize] is defined in
    [Log.hpp]; the entry size is the payload size plus the header,
    rounded up to 16, computed on 32-bit unsigned values. *)
Definition entrySizeFromSize (size : Z) : Z :=
  let s := u32 (size + LOG_ENTRY_SIZE) in
  u32 (s + (if s mod 16 =? 0 then 0 else 16 - s mod 16)).

(** ** Log entries *)

Record LogEntry := mkLogEntry { mSize : Z; mType : Z }.

(** Pages are handed out zeroed: a free entry has a zero header. *)
Definition free_entry : LogEntry := mkLogEntry 0 0.

(** Modelled from the spec: [LogEntry::sizeAndSealed] and
    [LogEntry::seal] are defined in [Log.hpp]; the header encodes
    [(payloadSize << 1) | acquiredBit] and sealing clears the bit. *)
Definition sizeAndSealed (e : LogEntry) : Z * bool :=
  (Z.shiftr (mSize e) 1, Z.land (mSize e) 1 =? 0).

Definition seal_entry (e : LogEntry) : LogEntry :=
  mkLogEntry (Z.ldiff (mSize e) 1) (mType e).

(** [LogEntry::tryAcquire], Log.cpp:37.  The exchange on [mSize] is the
    only access other threads race with; the store to [mType] follows
    it on success. *)
Definition tryAcquire_cas (size : Z) (e : LogEntry) : LogEntry * Z * bool :=
  let s := u32 (Z.lor (u32 (Z.shiftl size 1)) 1) in
  let exp := 0 in
  let '(cur, ok, exp) := compare_exchange_strong (mSize e) exp s in
  if negb ok then (e, entrySizeFromSize (Z.shiftr exp 1), false)
  else (mkLogEntry cur (mType e), 0, true).

Definition tryAcquire_type (type : Z) (e : LogEntry) : LogEntry :=
  mkLogEntry (mSize e) type.

Definition tryAcquire (size type : Z) (e : LogEntry) : LogEntry * Z :=
  let '(e1, res, ok) := tryAcquire_cas size e in
  if ok then (tryAcquire_type type e1, 0) else (e1, res).

(** ** Log pages *)

Definition page_id := nat.

Record LogPage := mkLogPage {
  mOffset : Z;                    (* (bytesUsed << 1) | unsealedBit *)
  mNext : option page_id;
  mData : gmap Z LogEntry         (* entry headers by byte position in data() *)
}.

(** Modelled from the spec: the constructor of [LogPage] is in
    [Log.hpp]; pages are born unsealed and empty. *)
Definition fresh_page : LogPage := mkLogPage 1 None ∅.

Definition entry_at (pg : LogPage) (pos : Z) : LogEntry :=
  default free_entry (mData pg !! pos).

Definition set_entry (pg : LogPage) (pos : Z) (e : LogEntry) : LogPage :=
  mkLogPage (mOffset pg) (mNext pg) (<[pos := e]> (mData pg)).

Definition set_offset (pg : LogPage) (o : Z) : LogPage :=
  mkLogPage o (mNext pg) (mData pg).

Definition set_next (pg : LogPage) (n : option page_id) : LogPage :=
  mkLogPage (mOffset pg) n (mData pg).

(** Modelled from the spec: [LogPage::offsetAndSealed], [LogPage::offset]
    and [LogPage::seal] are defined in [Log.hpp]; the offset field
    encodes [(bytesUsed << 1) | bit], the bit is 1 while the page is
    active, and sealing clears it. *)
Definition offsetAndSealed (pg : LogPage) : Z * bool :=
  (Z.shiftr (mOffset pg) 1, Z.land (mOffset pg) 1 =? 0).

Definition page_offset (pg : LogPage) : Z := Z.shiftr (mOffset pg) 1.

Definition seal_page (pg : LogPage) : LogPage :=
  set_offset pg (Z.ldiff (mOffset pg) 1).

(** ** [LogPage::appendEntry], Log.cpp:59

    The program points of one call, each standing before one access to
    the page: the load of [mOffset] (line 60), the bounds check and the
    exchange on the entry header (lines 69-80), the store of the type
    (line 46), and one round of the publishing loop (lines 88-103). *)
Inductive append_pc : Type :=
| ALoad
| AProbe (offset position : Z)
| AType (offset position : Z)
| APublish (offset position : Z)
| AReturn (r : option Z).

Definition appendEntry_step (size entrySize type : Z)
    (pg : LogPage) (pc : append_pc) : LogPage * append_pc :=
  match pc with
  | ALoad =>
      let offset := mOffset pg in
      if Z.land offset 1 =? 0 then (pg, AReturn None)
      else (pg, AProbe offset (Z.shiftr offset 1))
  | AProbe offset position =>
      let endPosition := u32 (position + entrySize) in
      if endPosition >? MAX_ENTRY_SIZE then (pg, AReturn None)
      else
        let '(e, res, ok) := tryAcquire_cas size (entry_at pg position) in
        if ok then (set_entry pg position e, AType offset position)
        else if negb (res =? 0) then (pg, AProbe offset (u32 (position + res)))
        else (pg, APublish offset position)
  | AType offset position =>
      (set_entry pg position (tryAcquire_type type (entry_at pg position)),
       APublish offset position)
  | APublish offset position =>
      let endPosition := u32 (position + entrySize) in
      let nOffset := u32 (Z.lor (u32 (Z.shiftl endPosition 1)) 1) in
      if offset <? nOffset then
        let '(cur, ok, offset) :=
          compare_exchange_strong (mOffset pg) offset nOffset in
        if ok then (set_offset pg cur, AReturn (Some position))
        else if Z.land offset 1 =? 0 then
          if Z.shiftr offset 1 >=? endPosition
          then (pg, AReturn (Some position))
          else (pg, AReturn None)
        else (pg, APublish offset position)
      else (pg, AReturn (Some position))
  | AReturn r => (pg, AReturn r)
  end.

(** [LogPage::append], Log.cpp:50: the size check, then [appendEntry]. *)
Definition append_entry_pc (size : Z) : append_pc :=
  let entrySize := entrySizeFromSize size in
  if entrySize >? MAX_ENTRY_SIZE then AReturn None else ALoad.

(** One thread inside [LogPage::append(size, type)]. *)
Record appender := mkAppender { a_size : Z; a_type : Z; a_pc : append_pc }.

Definition LogPage_append (size type : Z) : appender :=
  mkAppender size type (append_entry_pc size).

Definition appender_step (pg : LogPage) (a : appender) : LogPage * appender :=
  let '(pg', pc') :=
    appendEntry_step (a_size a) (entrySizeFromSize (a_size a)) (a_type a)
                     pg (a_pc a) in
  (pg', mkAppender (a_size a) (a_type a) pc').

(** A page shared by threads: a schedule is a list of events, each one
    atomic step.  Sizes passed to [append] meet the assertions of
    [tryAcquire] (non-zero, top bit clear). *)
Inductive page_event : Type :=
| PCall (size type : Z)
| PStep (tid : nat)
| PSealPage
| PSealEntry (pos : Z).

Definition page_sys : Type := LogPage * list appender.

Definition page_step (s : page_sys) (ev : page_event) : page_sys :=
  let '(pg, ts) := s in
  match ev with
  | PCall size type =>
      if (0 <? size) && (size <? 2 ^ 31)
      then (pg, ts ++ [LogPage_append size type]) else s
  | PStep tid =>
      match ts !! tid with
      | Some a => let '(pg', a') := appender_step pg a in (pg', <[tid := a']> ts)
      | None => s
      end
  | PSealPage => (seal_page pg, ts)
  | PSealEntry pos => (set_entry pg pos (seal_entry (entry_at pg pos)), ts)
  end.

Definition page_run (sched : list page_event) : page_sys :=
  fold_left page_step sched (fresh_page, []).

(** Modelled from the spec: [LogPage::data] is defined in [Log.hpp]; the
    data area starts [LOG_HEADER_SIZE] bytes into the page.  The address
    of the entry header at [position] of the page at address [base]. *)
Definition entry_address (base position : Z) : Z :=
  u64 (u64 (base + LOG_HEADER_SIZE) + position).

(** ** What holds of a page while threads append to it *)

(** A size field [m] of an entry of payload size [s], sealed or not. *)
Definition is_acquired (m s : Z) : Prop :=
  0 < s < 2 ^ 31 /\ (m = 2 * s + 1 \/ m = 2 * s).

Definition is_sealed (m s : Z) : Prop :=
  0 < s < 2 ^ 31 /\ m = 2 * s.

(** The header at [o] belongs to an entry of payload size [s]. *)
Definition acquired (pg : LogPage) (o s : Z) : Prop :=
  is_acquired (mSize (entry_at pg o)) s.

Definition sealed_entry (pg : LogPage) (o s : Z) : Prop :=
  is_sealed (mSize (entry_at pg o)) s.

(** The offset field holds an aligned position inside the data area,
    and every header is free or that of an aligned entry which ends
    inside the data area. *)
Definition page_ok (pg : LogPage) : Prop :=
  (exists P, 0 <= P <= MAX_ENTRY_SIZE /\ P mod 16 = 0 /\
             (mOffset pg = 2 * P + 1 \/ mOffset pg = 2 * P)) /\
  (forall o, mSize (entry_at pg o) = 0 \/
             exists s, acquired pg o s /\ 0 <= o /\ o mod 16 = 0 /\
                       o + entrySizeFromSize s <= MAX_ENTRY_SIZE).

(** What a thread knows at each program point of [appendEntry]. *)
Definition append_pc_ok (size : Z) (pg : LogPage) (pc : append_pc) : Prop :=
  match pc with
  | ALoad | AReturn None => True
  | AProbe off pos =>
      0 <= pos <= MAX_ENTRY_SIZE /\ pos mod 16 = 0 /\
      off mod 2 = 1 /\ off / 2 <= pos /\ off / 2 <= page_offset pg
  | AType off pos | APublish off pos =>
      acquired pg pos size /\ off mod 2 = 1 /\ off / 2 <= page_offset pg
  | AReturn (Some pos) =>
      acquired pg pos size /\ pos + entrySizeFromSize size <= page_offset pg
  end.

(** How a page evolves: the used bytes grow, a sealed offset is final,
    the link is set once, and an entry keeps its size and its seal. *)
Definition page_le (pg pg' : LogPage) : Prop :=
  page_offset pg <= page_offset pg' /\
  (Z.land (mOffset pg) 1 = 0 -> mOffset pg' = mOffset pg) /\
  (forall q, mNext pg = Some q -> mNext pg' = Some q) /\
  (forall o s, acquired pg o s -> acquired pg' o s) /\
  (forall o s, sealed_entry pg o s -> sealed_entry pg' o s).

Definition appender_ok (pg : LogPage) (a : appender) : Prop :=
  0 < a_size a < 2 ^ 31 /\ append_pc_ok (a_size a) pg (a_pc a).

Definition page_sys_ok (s : page_sys) : Prop :=
  page_ok s.1 /\ Forall (appender_ok s.1) s.2.

(** ** Chains of pages and deferred release *)

(** [BaseLogImpl::freePage], Log.cpp:114, hands a closure over
    [begin] and [end] to the reclamation primitive; the closure walks
    the links from [begin] and frees every page until it meets [end].
    [freePage_run] is the closure's loop on the pages as they are when
    it runs: the pages it frees, in order, or [None] when it would read
    the link of a null or released page (or runs out of fuel). *)
Fixpoint freePage_run (fuel : nat) (ps : gmap page_id LogPage)
    (page end_ : option page_id) : option (list page_id) :=
  if decide (page = end_) then Some []
  else
    match fuel with
    | O => None
    | S fuel =>
        match page with
        | None => None
        | Some p =>
            match ps !! p with
            | None => None
            | Some pg =>
                match freePage_run fuel ps (mNext pg) end_ with
                | Some l => Some (p :: l)
                | None => None
                end
            end
        end
    end.

(** The pages on the chain from [b] up to, and without, [e]. *)
Inductive page_seg (ps : gmap page_id LogPage) :
    option page_id -> option page_id -> list page_id -> Prop :=
| page_seg_nil e : page_seg ps e e []
| page_seg_cons p pg e l :
    Some p <> e -> ps !! p = Some pg -> page_seg ps (mNext pg) e l ->
    page_seg ps (Some p) e (p :: l).

(** ** The ordered log *)

Record LogPosition := mkLogPosition { lp_page : page_id; lp_offset : Z }.

#[export] Instance LogPosition_eq_dec : EqDecision LogPosition.
Proof. solve_decision. Defined.

Record OrderedLog := mkOrderedLog {
  oPages : gmap page_id LogPage;    (* the pages the log holds *)
  mHead : page_id;
  mSealedHead : LogPosition;
  mTail : LogPosition;
  (* closures handed to the reclamation primitive, oldest first *)
  oReclaim : list (option page_id * option page_id)
}.

(** [OrderedLogImpl::truncateLog], Log.cpp:275.  The exchange on the
    tail compares page and offset at once (a 16-byte atomic pair). *)
Definition truncateLog (st : OrderedLog) (oldTail newTail : LogPosition)
    : OrderedLog * bool :=
  if decide (mTail st = oldTail) then
    let st1 := mkOrderedLog (oPages st) (mHead st) (mSealedHead st)
                            newTail (oReclaim st) in
    if decide (lp_page oldTail <> lp_page newTail) then
      (mkOrderedLog (oPages st1) (mHead st1) (mSealedHead st1) (mTail st1)
         (oReclaim st1 ++ [(Some (lp_page oldTail), Some (lp_page newTail))]),
       true)
    else (st1, true)
  else (st, false).

(** ** The unordered log *)

Record LogHead := mkLogHead {
  writeHead : option page_id;
  appendHead : option page_id
}.

Record UnorderedLog := mkUnorderedLog {
  uPages : gmap page_id LogPage;
  uHead : LogHead;
  uTail : option page_id;
  mPages : Z;                       (* the page counter, 64 bits *)
  uReclaim : list (option page_id * option page_id)
}.

(** The counting loop of [erase], Log.cpp:181-184. *)
Fixpoint count_pages (fuel : nat) (ps : gmap page_id LogPage)
    (page end_ : option page_id) : option Z :=
  if decide (page = end_) then Some 0
  else
    match fuel with
    | O => None
    | S fuel =>
        match page with
        | None => None
        | Some p =>
            match ps !! p with
            | None => None
            | Some pg =>
                match count_pages fuel ps (mNext pg) end_ with
                | Some n => Some (n + 1)
                | None => None
                end
            end
        end
    end.

(** [UnorderedLogImpl::erase], Log.cpp:167; [begin] is not null (line
    168).  [None] when a loop reads the link of a null or released page
    or runs out of fuel. *)
Definition erase (fuel : nat) (st : UnorderedLog)
    (begin : page_id) (end_ : option page_id) : option UnorderedLog :=
  if decide (Some begin = end_) then Some st
  else
    let tail := match end_ with None => Some begin | Some _ => uTail st end in
    match uPages st !! begin with
    | None => None
    | Some pg =>
        let next := mNext pg in
        let ps := <[begin := set_next pg end_]> (uPages st) in
        if decide (next = end_) then
          Some (mkUnorderedLog ps (uHead st) tail (mPages st) (uReclaim st))
        else
          match count_pages fuel ps next end_ with
          | None => None
          | Some pages =>
              Some (mkUnorderedLog ps (uHead st) tail
                      (u64 (mPages st - pages))
                      (uReclaim st ++ [(next, end_)]))
          end
    end.


(** ** The ordered log under concurrent appends and seals

    Every method of [OrderedLogImpl] is cut at its accesses to shared
    memory.  A thread is at one of the program points below, each
    standing before one access, with the values of the locals that are
    live there. *)

(** Which read of [sizeAndSealed] in [advanceSealedHead]: one followed
    by the test of the inner loop (lines 357, 378, 390, 398), the one
    after the exchange (line 415), or one of the two before the last
    test (lines 434, 445). *)
Inductive adv_mode : Type := MInner | MOuterFirst | MOuterSecond.

(** The caller of [advanceSealedHead]: [createPage], which then
    returns its new page to the loop of [appendEntry], or [seal]. *)
Inductive adv_cont : Type :=
| KAppend (size type : Z) (nPage : page_id)
| KSeal.

Inductive thread : Type :=
| TIdle
| TFault                          (* an access through a null or released page *)
(* OrderedLogImpl::appendEntry *)
| TAppendHead (size type : Z)                                  (* line 289 *)
| TAppend (size type : Z) (head : page_id) (pc : append_pc)    (* line 292 *)
(* OrderedLogImpl::createPage *)
| TCreateNext (size type : Z) (oldHead : page_id)              (* line 307 *)
| TCreateHead1 (size type : Z) (oldHead next : page_id)        (* line 311 *)
| TCreateSeal (size type : Z) (oldHead : page_id)              (* line 318 *)
| TCreateAcquire (size type : Z) (oldHead : page_id)           (* line 321 *)
| TCreateLink (size type : Z) (oldHead nPage : page_id)        (* line 329 *)
| TCreateFree (size type : Z) (nPage next : page_id)           (* line 330 *)
| TCreateHead2 (size type : Z) (oldHead nPage : page_id)       (* line 337 *)
| TCreateSealed (size type : Z) (oldHead nPage : page_id)      (* line 340 *)
| TCreateOffset (size type : Z) (oldHead nPage : page_id)
                (sealedHead : LogPosition)                     (* line 341 *)
(* OrderedLogImpl::seal *)
| TSealEntry (entry : LogPosition)                             (* line 265 *)
| TSealLoad (entry : LogPosition)                              (* line 268 *)
(* OrderedLogImpl::advanceSealedHead *)
| TAdvRead (k : adv_cont) (m : adv_mode)
           (oldSealedHead sealedHead : LogPosition)
           (currentEntry : option LogPosition)
| TAdvPage (k : adv_cont) (outer : bool)
           (oldSealedHead sealedHead : LogPosition)
           (currentEntry : option LogPosition)        (* lines 369, 425 *)
| TAdvNext (k : adv_cont) (outer : bool)
           (oldSealedHead sealedHead : LogPosition)
           (currentEntry : option LogPosition)        (* lines 381, 437 *)
| TAdvCas (k : adv_cont)
          (oldSealedHead sealedHead : LogPosition)
          (currentEntry : option LogPosition).        (* line 407 *)

Definition set_page (st : OrderedLog) (p : page_id) (pg : LogPage) : OrderedLog :=
  mkOrderedLog (<[p := pg]> (oPages st)) (mHead st) (mSealedHead st)
               (mTail st) (oReclaim st).

Definition set_head (st : OrderedLog) (h : page_id) : OrderedLog :=
  mkOrderedLog (oPages st) h (mSealedHead st) (mTail st) (oReclaim st).

Definition set_sealed (st : OrderedLog) (sh : LogPosition) : OrderedLog :=
  mkOrderedLog (oPages st) (mHead st) sh (mTail st) (oReclaim st).

(** Modelled from the spec: [BaseLogImpl::acquirePage] is defined in
    [Log.hpp] and the page manager in [PageManager.cpp]; [alloc] gives
    null or a page nobody holds, and the page starts as a fresh log
    page.  [alloc] is what the page manager answers in this step. *)
Definition acquirePage (st : OrderedLog) (alloc : option page_id)
    : option (OrderedLog * page_id) :=
  match alloc with
  | Some p =>
      match oPages st !! p with
      | None => Some (set_page st p fresh_page, p)
      | Some _ => None
      end
  | None => None
  end.

(** [BaseLogImpl::freeEmptyPageNow], Log.cpp:109: the page goes back to
    the page manager. *)
Definition freeEmptyPageNow (st : OrderedLog) (p : page_id) : OrderedLog :=
  mkOrderedLog (delete p (oPages st)) (mHead st) (mSealedHead st)
               (mTail st) (oReclaim st).

Definition step_result : Type := OrderedLog * thread * option LogPosition.

Definition with_page (st : OrderedLog) (p : page_id)
    (f : LogPage -> step_result) : step_result :=
  match oPages st !! p with
  | Some pg => f pg
  | None => (st, TFault, None)
  end.

(** The loop of [appendEntry], lines 290-302, after [createPage]
    returned [head]. *)
Definition append_return (size type : Z) (head : option page_id) : thread :=
  match head with
  | Some h => TAppend size type h ALoad
  | None => TIdle
  end.

Definition adv_return (k : adv_cont) : thread :=
  match k with
  | KAppend size type nPage => append_return size type (Some nPage)
  | KSeal => TIdle
  end.

(** "The page has space left for a following log entry", lines 355,
    396, 414. *)
Definition has_room (offset : Z) : bool :=
  offset <=? u32 (MAX_ENTRY_SIZE - LOG_ENTRY_SIZE).

(** The test of [while (sealed)] and what the body does with its locals
    before the next access (lines 365-366 and 393-401). *)
Definition adv_loop (k : adv_cont) (size : Z) (sealed : bool)
    (old cur : LogPosition) (ce : option LogPosition) : thread :=
  if sealed then
    if size =? 0 then TAdvPage k false old cur ce
    else
      let cur' := mkLogPosition (lp_page cur)
                    (u32 (lp_offset cur + entrySizeFromSize size)) in
      if has_room (lp_offset cur') then TAdvRead k MInner old cur' (Some cur')
      else TAdvPage k false old cur' ce
  else TAdvCas k old cur ce.

(** The entry of [advanceSealedHead], lines 349-362. *)
Definition adv_start (k : adv_cont) (old : LogPosition) : thread :=
  if has_room (lp_offset old) then TAdvRead k MInner old old (Some old)
  else TAdvPage k false old old None.

Definition thread_step (alloc : option page_id) (st : OrderedLog)
    (t : thread) : step_result :=
  match t with
  | TIdle | TFault => (st, t, None)
  | TAppendHead size type => (st, TAppend size type (mHead st) ALoad, None)
  | TAppend size type head pc =>
      with_page st head (fun pg =>
        let '(pg', pc') :=
          appendEntry_step size (entrySizeFromSize size) type pg pc in
        let st' := set_page st head pg' in
        match pc' with
        | AReturn (Some pos) => (st', TIdle, Some (mkLogPosition head pos))
        | AReturn None => (st', TCreateNext size type head, None)
        | _ => (st', TAppend size type head pc', None)
        end)
  | TCreateNext size type oldHead =>
      with_page st oldHead (fun pg =>
        match mNext pg with
        | Some next => (st, TCreateHead1 size type oldHead next, None)
        | None => (st, TCreateSeal size type oldHead, None)
        end)
  | TCreateHead1 size type oldHead next =>
      if decide (mHead st = oldHead)
      then (set_head st next, append_return size type (Some next), None)
      else (st, append_return size type (Some (mHead st)), None)
  | TCreateSeal size type oldHead =>
      with_page st oldHead (fun pg =>
        (set_page st oldHead (seal_page pg),
         TCreateAcquire size type oldHead, None))
  | TCreateAcquire size type oldHead =>
      match acquirePage st alloc with
      | Some (st', nPage) => (st', TCreateLink size type oldHead nPage, None)
      | None => (st, append_return size type None, None)
      end
  | TCreateLink size type oldHead nPage =>
      with_page st oldHead (fun pg =>
        match mNext pg with
        | None =>
            (set_page st oldHead (set_next pg (Some nPage)),
             TCreateHead2 size type oldHead nPage, None)
        | Some next => (st, TCreateFree size type nPage next, None)
        end)
  | TCreateFree size type nPage next =>
      (freeEmptyPageNow st nPage, append_return size type (Some next), None)
  | TCreateHead2 size type oldHead nPage =>
      (if decide (mHead st = oldHead) then set_head st nPage else st,
       TCreateSealed size type oldHead nPage, None)
  | TCreateSealed size type oldHead nPage =>
      let sealedHead := mSealedHead st in
      if decide (lp_page sealedHead = oldHead)
      then (st, TCreateOffset size type oldHead nPage sealedHead, None)
      else (st, append_return size type (Some nPage), None)
  | TCreateOffset size type oldHead nPage sealedHead =>
      with_page st oldHead (fun pg =>
        if lp_offset sealedHead =? page_offset pg
        then (st, adv_start (KAppend size type nPage) sealedHead, None)
        else (st, append_return size type (Some nPage), None))
  | TSealEntry entry =>
      with_page st (lp_page entry) (fun pg =>
        (set_page st (lp_page entry)
           (set_entry pg (lp_offset entry)
              (seal_entry (entry_at pg (lp_offset entry)))),
         TSealLoad entry, None))
  | TSealLoad entry =>
      let sealedHead := mSealedHead st in
      if decide (sealedHead = entry)
      then (st, adv_start KSeal sealedHead, None)
      else (st, TIdle, None)
  | TAdvRead k m old cur ce =>
      match ce with
      | None => (st, TFault, None)
      | Some c =>
          with_page st (lp_page c) (fun pg =>
            let '(size, sealed) := sizeAndSealed (entry_at pg (lp_offset c)) in
            (st,
             match m with
             | MInner => adv_loop k size sealed old cur ce
             | MOuterFirst =>
                 if size =? 0 then TAdvPage k true old cur ce
                 else if negb sealed then adv_return k
                 else adv_loop k size sealed old cur ce
             | MOuterSecond =>
                 if negb sealed then adv_return k
                 else adv_loop k size sealed old cur ce
             end, None))
      end
  | TAdvPage k outer old cur ce =>
      with_page st (lp_page cur) (fun pg =>
        let '(pageOffset, pageSealed) := offsetAndSealed pg in
        (st,
         if negb pageSealed
         then (if outer then adv_return k else TAdvCas k old cur ce)
         else if pageOffset >? lp_offset cur
         then TAdvRead k (if outer then MOuterSecond else MInner) old cur ce
         else TAdvNext k outer old cur ce, None))
  | TAdvNext k outer old cur ce =>
      with_page st (lp_page cur) (fun pg =>
        (st,
         match mNext pg with
         | None => if outer then adv_return k else TAdvCas k old cur ce
         | Some next =>
             let cur' := mkLogPosition next 0 in
             TAdvRead k (if outer then MOuterSecond else MInner)
                      old cur' (Some cur')
         end, None))
  | TAdvCas k old cur ce =>
      if decide (mSealedHead st = old)
      then (set_sealed st cur,
            if has_room (lp_offset cur) then TAdvRead k MOuterFirst cur cur ce
            else TAdvPage k true cur cur ce, None)
      else (st, adv_return k, None)
  end.

(** The log with its threads and the entries [append] has returned.
    [seal] is called on entries that [append] returned. *)
Record log_sys := mkLogSys {
  sys_log : OrderedLog;
  sys_threads : list thread;
  sys_handed : list LogPosition
}.

Inductive log_event : Type :=
| LSpawn
| LAppend (tid : nat) (size type : Z)
| LSeal (tid : nat) (entry : LogPosition)
| LStep (tid : nat) (alloc : option page_id).

(** [Log<Impl>::append], Log.cpp:469, up to its call of [appendEntry]. *)
Definition Log_append (size type : Z) : thread :=
  let entrySize := entrySizeFromSize size in
  if entrySize >? MAX_ENTRY_SIZE then TIdle else TAppendHead size type.

Definition log_step (s : log_sys) (ev : log_event) : log_sys :=
  match ev with
  | LSpawn => mkLogSys (sys_log s) (sys_threads s ++ [TIdle]) (sys_handed s)
  | LAppend tid size type =>
      match sys_threads s !! tid with
      | Some TIdle =>
          if (0 <? size) && (size <? 2 ^ 31)
          then mkLogSys (sys_log s)
                        (<[tid := Log_append size type]> (sys_threads s))
                        (sys_handed s)
          else s
      | _ => s
      end
  | LSeal tid entry =>
      match sys_threads s !! tid with
      | Some TIdle =>
          if decide (entry ∈ sys_handed s)
          then mkLogSys (sys_log s)
                        (<[tid := TSealEntry entry]> (sys_threads s))
                        (sys_handed s)
          else s
      | _ => s
      end
  | LStep tid alloc =>
      match sys_threads s !! tid with
      | Some t =>
          let '(st', t', h) := thread_step alloc (sys_log s) t in
          mkLogSys st' (<[tid := t']> (sys_threads s))
                   (match h with
                    | Some e => e :: sys_handed s
                    | None => sys_handed s
                    end)
      | None => s
      end
  end.

(** The constructor, Log.cpp:251: one page, with head, sealed head and
    tail at its start. *)
Definition first_page : page_id := 0%nat.

Definition log_init : log_sys :=
  mkLogSys
    (mkOrderedLog (<[first_page := fresh_page]> ∅) first_page
                  (mkLogPosition first_page 0) (mkLogPosition first_page 0) [])
    [] [].

Definition log_run (sched : list log_event) : log_sys :=
  fold_left log_step sched log_init.


(** ** What holds of the ordered log *)

(** The page a page id stands for. *)
Definition opage (st : OrderedLog) (p : page_id) : LogPage :=
  default fresh_page (oPages st !! p).

(** The chain of the log: the pages linked from the first page. *)
Definition is_chain (st : OrderedLog) (l : list page_id) : Prop :=
  NoDup l /\ l !! 0%nat = Some first_page /\
  forall (i : nat) p, l !! i = Some p ->
    exists pg, oPages st !! p = Some pg /\ mNext pg = l !! S i.

(** Chain order on positions: an earlier page, or the same page and a
    smaller offset. *)
Definition pos_lt (l : list page_id) (a b : LogPosition) : Prop :=
  exists i j : nat, l !! i = Some (lp_page a) /\ l !! j = Some (lp_page b) /\
    ((i < j)%nat \/ (i = j /\ lp_offset a < lp_offset b)).

Definition pos_le (l : list page_id) (a b : LogPosition) : Prop :=
  exists i j : nat, l !! i = Some (lp_page a) /\ l !! j = Some (lp_page b) /\
    ((i < j)%nat \/ (i = j /\ lp_offset a <= lp_offset b)).

(** The entries of a page lie one after the other: [b] is reached from
    [a] over acquired entries. *)
Inductive echain (pg : LogPage) (a : Z) : Z -> Prop :=
| echain_refl : echain pg a a
| echain_step b s :
    echain pg a b -> acquired pg b s ->
    echain pg a (b + entrySizeFromSize s).

(** Why a step of [appendEntry] returns null, as the thread at [pc]
    finds the page: (a) the load at line 60 finds the offset sealed;
    (b) the positions from the offset it loaded are taken by entries up
    to one that leaves no room for the entry (line 70); (c) its entry
    at [pos] is acquired and the offset is sealed below the end of the
    entry (lines 93-100). *)
Definition null_cause (size : Z) (pg : LogPage) (pc : append_pc) : Prop :=
  match pc with
  | ALoad => Z.land (mOffset pg) 1 = 0
  | AProbe off pos =>
      echain pg (Z.shiftr off 1) pos /\
      MAX_ENTRY_SIZE < pos + entrySizeFromSize size
  | APublish off pos =>
      acquired pg pos size /\ Z.land (mOffset pg) 1 = 0 /\
      page_offset pg < pos + entrySizeFromSize size
  | AType _ _ | AReturn _ => False
  end.

(** What a thread inside [LogPage::append] has seen of the page: a call
    whose entry is too large for a page has returned null at once, and
    the positions a probing thread went over, from the offset it
    loaded, are taken by entries. *)
Definition appender_seen (pg : LogPage) (a : appender) : Prop :=
  (entrySizeFromSize (a_size a) <= MAX_ENTRY_SIZE \/ a_pc a = AReturn None) /\
  (forall off pos, a_pc a = AProbe off pos -> echain pg (Z.shiftr off 1) pos).

(** The offset of a page and each of its entries are reached from 0
    over entries, and a sealed entry ends inside the used bytes. *)
Definition page_chained (pg : LogPage) : Prop :=
  echain pg 0 (page_offset pg) /\
  (forall o s, acquired pg o s -> echain pg 0 o) /\
  (forall o s, sealed_entry pg o s ->
     o + entrySizeFromSize s <= page_offset pg).

Definition append_pc_chained (pg : LogPage) (pc : append_pc) : Prop :=
  match pc with
  | AProbe _ pos => echain pg 0 pos
  | _ => True
  end.

(** One move of the sealed-head cursor: over a sealed entry, or from
    the end of a sealed page to the start of the next. *)
Inductive adv (st : OrderedLog) : LogPosition -> LogPosition -> Prop :=
| adv_entry p o s :
    sealed_entry (opage st p) o s ->
    adv st (mkLogPosition p o) (mkLogPosition p (o + entrySizeFromSize s))
| adv_page p o q P :
    mOffset (opage st p) = 2 * P -> P <= o ->
    mNext (opage st p) = Some q ->
    adv st (mkLogPosition p o) (mkLogPosition q 0).

Definition reach (st : OrderedLog) : LogPosition -> LogPosition -> Prop :=
  rtc (adv st).

Definition good (st : OrderedLog) (pos : LogPosition) : Prop :=
  reach st (mkLogPosition first_page 0) pos.

(** An entry that [append] may have returned: acquired, and inside the
    used bytes of its page. *)
Definition published (st : OrderedLog) (e : LogPosition) : Prop :=
  exists s, acquired (opage st (lp_page e)) (lp_offset e) s /\
    lp_offset e + entrySizeFromSize s <= page_offset (opage st (lp_page e)).

Definition size_ok (size : Z) : Prop := 0 < size < 2 ^ 31.

Definition cont_ok (l : list page_id) (k : adv_cont) : Prop :=
  match k with
  | KAppend size _ nPage => size_ok size /\ nPage ∈ l
  | KSeal => True
  end.

Definition room_ok (cur : LogPosition) (ce : option LogPosition) : Prop :=
  has_room (lp_offset cur) = true -> ce = Some cur.

(** The page a thread has acquired and not yet linked or freed. *)
Definition npage (t : thread) : option page_id :=
  match t with
  | TCreateLink _ _ _ n | TCreateFree _ _ n _ => Some n
  | _ => None
  end.

Definition adv_ok (st : OrderedLog) (l : list page_id) (k : adv_cont)
    (old cur : LogPosition) : Prop :=
  cont_ok l k /\ good st old /\ reach st old cur.

(** What a thread knows at each program point. *)
Definition thread_ok (st : OrderedLog) (l : list page_id) (t : thread) : Prop :=
  match t with
  | TIdle => True
  | TFault => False
  | TAppendHead size _ => size_ok size
  | TAppend size _ head pc =>
      size_ok size /\ head ∈ l /\
      append_pc_ok size (opage st head) pc /\
      append_pc_chained (opage st head) pc /\
      (forall r, pc <> AReturn r)
  | TCreateNext size _ oldHead
  | TCreateSeal size _ oldHead
  | TCreateAcquire size _ oldHead => size_ok size /\ oldHead ∈ l
  | TCreateHead1 size _ _ next => size_ok size /\ next ∈ l
  | TCreateLink size _ oldHead n =>
      size_ok size /\ oldHead ∈ l /\ (n ∉ l) /\
      oPages st !! n = Some fresh_page
  | TCreateFree size _ n next =>
      size_ok size /\ next ∈ l /\ (n ∉ l) /\
      oPages st !! n = Some fresh_page
  | TCreateHead2 size _ oldHead n
  | TCreateSealed size _ oldHead n =>
      size_ok size /\ oldHead ∈ l /\ n ∈ l
  | TCreateOffset size _ oldHead n sh =>
      size_ok size /\ oldHead ∈ l /\ n ∈ l /\ good st sh
  | TSealEntry e => lp_page e ∈ l /\ published st e
  | TSealLoad _ => True
  | TAdvRead k _ old cur ce => adv_ok st l k old cur /\ ce = Some cur
  | TAdvPage k _ old cur ce
  | TAdvCas k old cur ce => adv_ok st l k old cur /\ room_ok cur ce
  | TAdvNext k _ old cur ce =>
      adv_ok st l k old cur /\ room_ok cur ce /\
      exists P, mOffset (opage st (lp_page cur)) = 2 * P /\ P <= lp_offset cur
  end.

(** The invariant of the log with its threads. *)
Definition log_inv (l : list page_id) (s : log_sys) : Prop :=
  is_chain (sys_log s) l /\
  (forall p, p ∈ l ->
     page_ok (opage (sys_log s) p) /\ page_chained (opage (sys_log s) p)) /\
  mHead (sys_log s) ∈ l /\
  good (sys_log s) (mSealedHead (sys_log s)) /\
  (forall e, e ∈ sys_handed s ->
     lp_page e ∈ l /\ published (sys_log s) e) /\
  Forall (thread_ok (sys_log s) l) (sys_threads s) /\
  (forall (i j : nat) ti tj n,
     i <> j -> sys_threads s !! i = Some ti -> sys_threads s !! j = Some tj ->
     npage ti = Some n -> npage tj <> Some n).

(** The pages of the chain are well formed. *)
Definition pages_good (st : OrderedLog) (l : list page_id) : Prop :=
  forall p, p ∈ l -> page_ok (opage st p) /\ page_chained (opage st p).


(** A step of the log on its chain [l]: every page of the chain stays,
    evolves as pages do, and keeps its link. *)
Definition pages_step (l : list page_id) (st st' : OrderedLog) : Prop :=
  forall p, p ∈ l ->
    exists pg', oPages st' !! p = Some pg' /\
      page_le (opage st p) pg' /\ page_ok pg' /\ page_chained pg'.

(** What one step of a thread [t] on the log [st] with chain [l]
    establishes, with the chain [l'] after the step. *)
Definition step_post (l : list page_id) (st : OrderedLog) (t : thread)
    (l' : list page_id) (r : step_result) : Prop :=
  is_chain r.1.1 l' /\ (forall p, p ∈ l -> p ∈ l') /\
  pages_step l st r.1.1 /\
  (forall p, p ∈ l' ->
     page_ok (opage r.1.1 p) /\ page_chained (opage r.1.1 p)) /\
  mHead r.1.1 ∈ l' /\
  good r.1.1 (mSealedHead r.1.1) /\
  reach r.1.1 (mSealedHead st) (mSealedHead r.1.1) /\
  (forall e, r.2 = Some e -> lp_page e ∈ l' /\ published r.1.1 e) /\
  thread_ok r.1.1 l' r.1.2 /\
  (forall n pg, oPages st !! n = Some pg -> n ∉ l -> npage t <> Some n ->
     oPages r.1.1 !! n = Some pg /\ n ∉ l') /\
  (forall n, npage r.1.2 = Some n ->
     npage t = Some n \/ oPages st !! n = None).


(** The position of the cursor of a thread inside
    [advanceSealedHead]. *)
Definition cursor (t : thread) : option LogPosition :=
  match t with
  | TAdvRead _ _ _ cur _ | TAdvPage _ _ _ cur _
  | TAdvNext _ _ _ cur _ | TAdvCas _ _ cur _ => Some cur
  | _ => None
  end.


(** ** The unordered log, one thread at a time

    [UnorderedLogImpl::createPage], [appendPage] and [appendEntry] as
    one thread runs them with no step of another thread in between.
    The head a caller passes to [createPage] may still be stale: it was
    loaded before other calls changed [mHead]. *)

(** Modelled from the spec: [BaseLogImpl::acquirePage] on the pages of
    an unordered log; see [acquirePage]. *)
Definition uacquirePage (st : UnorderedLog) (alloc : option page_id)
    : option (UnorderedLog * page_id) :=
  match alloc with
  | Some p =>
      match uPages st !! p with
      | None =>
          Some (mkUnorderedLog (<[p := fresh_page]> (uPages st)) (uHead st)
                               (uTail st) (mPages st) (uReclaim st), p)
      | Some _ => None
      end
  | None => None
  end.

Definition uset_page (st : UnorderedLog) (p : page_id) (pg : LogPage)
    : UnorderedLog :=
  mkUnorderedLog (<[p := pg]> (uPages st)) (uHead st) (uTail st) (mPages st)
                 (uReclaim st).

Definition uset_head (st : UnorderedLog) (h : LogHead) : UnorderedLog :=
  mkUnorderedLog (uPages st) h (uTail st) (mPages st) (uReclaim st).

Definition uset_count (st : UnorderedLog) (n : Z) : UnorderedLog :=
  mkUnorderedLog (uPages st) (uHead st) (uTail st) n (uReclaim st).

Definition ufree_page (st : UnorderedLog) (p : page_id) : UnorderedLog :=
  mkUnorderedLog (delete p (uPages st)) (uHead st) (uTail st) (mPages st)
                 (uReclaim st).

#[export] Instance LogHead_eq_dec : EqDecision LogHead.
Proof. solve_decision. Defined.

(** The constructor, Log.cpp:126: one page, which is write head and
    tail; [None] stands for [std::terminate]. *)
Definition UnorderedLog_init (alloc : option page_id) : option UnorderedLog :=
  match alloc with
  | Some p =>
      Some (mkUnorderedLog (<[p := fresh_page]> ∅) (mkLogHead (Some p) None)
                           (Some p) 1 [])
  | None => None
  end.

(** Lines 224-225 of [createPage]: the page counter goes up and the
    new page is linked before the old write head. *)
Definition link_new_head (st : UnorderedLog) (n : page_id)
    (next : option page_id) : UnorderedLog :=
  let st := uset_count st (u64 (mPages st + 1)) in
  uset_page st n (set_next (default fresh_page (uPages st !! n)) next).

(** Lines 233-234: the page counter goes down and the page goes back
    to the page manager. *)
Definition drop_new_head (st : UnorderedLog) (n : page_id) : UnorderedLog :=
  ufree_page (uset_count st (u64 (mPages st - 1))) n.

(** The loop of [createPage], Log.cpp:213-248.  [writeHead0] is the
    write head the call sealed; [allocs] are the answers of the page
    manager to the calls of [acquirePage] to come.  [None] stands for
    a run that runs out of fuel or of answers. *)
Fixpoint createPage_loop (fuel : nat) (st : UnorderedLog)
    (writeHead0 : option page_id) (oldHead : LogHead)
    (allocs : list (option page_id))
    : option (UnorderedLog * LogHead * list (option page_id)) :=
  match fuel with
  | O => None
  | S fuel =>
      match appendHead oldHead with
      | Some a =>
          let nHead := mkLogHead (Some a) None in
          if decide (uHead st = oldHead)
          then Some (uset_head st nHead, nHead, allocs)
          else
            let oldHead := uHead st in
            if decide (writeHead oldHead = writeHead0)
            then createPage_loop fuel st writeHead0 oldHead allocs
            else Some (st, oldHead, allocs)
      | None =>
          match allocs with
          | [] => None
          | alloc :: allocs =>
              match uacquirePage st alloc with
              | None => Some (st, mkLogHead None None, allocs)
              | Some (st1, n) =>
                  let st2 := link_new_head st1 n (writeHead oldHead) in
                  let nHead := mkLogHead (Some n) None in
                  if decide (uHead st2 = oldHead)
                  then Some (uset_head st2 nHead, nHead, allocs)
                  else
                    let oldHead := uHead st2 in
                    let st3 := drop_new_head st2 n in
                    if decide (writeHead oldHead = writeHead0)
                    then createPage_loop fuel st3 writeHead0 oldHead allocs
                    else Some (st3, oldHead, allocs)
              end
          end
      end
  end.

(** [UnorderedLogImpl::createPage], Log.cpp:207: the old write head is
    sealed, then the loop.  [None] also stands for a call with a null
    write head (line 211 reads through it). *)
Definition createPage (fuel : nat) (st : UnorderedLog) (oldHead : LogHead)
    (allocs : list (option page_id))
    : option (UnorderedLog * LogHead * list (option page_id)) :=
  match writeHead oldHead with
  | None => None
  | Some w =>
      match uPages st !! w with
      | None => None
      | Some pg =>
          createPage_loop fuel (uset_page st w (seal_page pg)) (Some w)
                          oldHead allocs
      end
  end.

(** [UnorderedLogImpl::appendPage], Log.cpp:140, for a chain of pages
    from [begin] to [end] (both not null).  The exchange of line 161
    succeeds in the first round: no other thread changed [mHead] since
    line 141 loaded it. *)
Definition appendPage (fuel : nat) (st : UnorderedLog) (begin end_ : page_id)
    : option UnorderedLog :=
  let oldHead := uHead st in
  match count_pages fuel (uPages st) (Some begin) (Some end_) with
  | None => None
  | Some n =>
      let pages := 1 + n in
      let counter := u64 (mPages st + pages) in
      let next :=
        match appendHead oldHead with
        | Some a => Some a
        | None => writeHead oldHead
        end in
      match uPages st !! end_ with
      | None => None
      | Some epg =>
          let ps1 := <[end_ := set_next epg next]> (uPages st) in
          match appendHead oldHead with
          | Some a =>
              match ps1 !! a with
              | Some apg =>
                  Some (mkUnorderedLog (<[a := seal_page apg]> ps1)
                          (mkLogHead (writeHead oldHead) (Some begin))
                          (uTail st) counter (uReclaim st))
              | None => None
              end
          | None =>
              Some (mkUnorderedLog ps1
                      (mkLogHead (writeHead oldHead) (Some begin))
                      (uTail st) counter (uReclaim st))
          end
      end
  end.

(** The first page the log reads from its head: the append head, or
    the write head if there is none (lines 149, 170). *)
Definition head_page (h : LogHead) : option page_id :=
  match appendHead h with
  | Some a => Some a
  | None => writeHead h
  end.

(** The pages linked from the head are [l], and [mPages] counts
    them. *)
Definition counted (st : UnorderedLog) (l : list page_id) : Prop :=
  page_seg (uPages st) (head_page (uHead st)) None l /\
  mPages st = Z.of_nat (length l).


(** Every page the log holds is a page of the chain [l], or the page a
    thread has acquired in [createPage] and not yet linked or given
    back. *)
Definition pages_held (l : list page_id) (s : log_sys) : Prop :=
  forall p, is_Some (oPages (sys_log s) !! p) ->
    p ∈ l \/ exists (tid : nat) t, sys_threads s !! tid = Some t /\ npage t = Some p.


(** ** Who holds an entry

    The entry a thread inside [appendEntry] has acquired by the
    exchange of [tryAcquire], and the entry whose type it has stored. *)
Definition holds (pc : append_pc) : option Z :=
  match pc with
  | AType _ pos | APublish _ pos | AReturn (Some pos) => Some pos
  | _ => None
  end.

Definition typed (pc : append_pc) : option Z :=
  match pc with
  | APublish _ pos | AReturn (Some pos) => Some pos
  | _ => None
  end.

(** No two threads hold the same entry, and an entry whose type was
    stored has the type its thread asked for. *)
Definition page_sys_owned (s : page_sys) : Prop :=
  (forall (i j : nat) ai aj pos,
     i <> j -> s.2 !! i = Some ai -> s.2 !! j = Some aj ->
     holds (a_pc ai) = Some pos -> holds (a_pc aj) <> Some pos) /\
  (forall (i : nat) a pos,
     s.2 !! i = Some a -> typed (a_pc a) = Some pos ->
     mType (entry_at s.1 pos) = a_type a).


(** ** A call that runs alone

    The steps of one thread inside [LogPage::append] until it returns,
    with no step of another thread in between. *)
Fixpoint appender_run (fuel : nat) (pg : LogPage) (a : appender)
    : LogPage * appender :=
  match fuel with
  | O => (pg, a)
  | S fuel =>
      match a_pc a with
      | AReturn _ => (pg, a)
      | _ => let '(pg', a') := appender_step pg a in appender_run fuel pg' a'
      end
  end.

(** No header at or behind the used bytes of the page is taken. *)
Definition tidy (pg : LogPage) : Prop :=
  forall o, page_offset pg <= o -> mSize (entry_at pg o) = 0.


(** The call returns within [fuel] steps when it runs alone. *)
Definition returns_within (fuel : nat) (pg : LogPage) (a : appender) : Prop :=
  exists r, a_pc (appender_run fuel pg a).2 = AReturn r.


(** ** Appending to the unordered log, one thread at a time *)

(** The loop of [UnorderedLogImpl::appendEntry], Log.cpp:192-201, with
    [head] the head the thread works with.  The call of
    [LogPage::appendEntry] runs alone on the write head page.  [None]
    stands for a run that reads through a page that is gone or runs
    out of fuel. *)
Fixpoint uappend_loop (fuel : nat) (st : UnorderedLog) (head : LogHead)
    (size type : Z) (allocs : list (option page_id))
    : option (UnorderedLog * option LogPosition * list (option page_id)) :=
  match fuel with
  | O => None
  | S fuel' =>
      match writeHead head with
      | None => Some (st, None, allocs)
      | Some w =>
          match uPages st !! w with
          | None => None
          | Some pg =>
              let '(pg', a) :=
                appender_run fuel pg (mkAppender size type ALoad) in
              match a_pc a with
              | AReturn (Some pos) =>
                  Some (uset_page st w pg', Some (mkLogPosition w pos), allocs)
              | AReturn None =>
                  match createPage fuel (uset_page st w pg') head allocs with
                  | None => None
                  | Some (st', head', allocs') =>
                      uappend_loop fuel' st' head' size type allocs'
                  end
              | _ => None
              end
          end
      end
  end.

(** [UnorderedLogImpl::appendEntry], Log.cpp:190. *)
Definition UnorderedLog_appendEntry (fuel : nat) (st : UnorderedLog)
    (size type : Z) (allocs : list (option page_id))
    : option (UnorderedLog * option LogPosition * list (option page_id)) :=
  uappend_loop fuel st (uHead st) size type allocs.

(** [Log<UnorderedLogImpl>::append], Log.cpp:469. *)
Definition UnorderedLog_append (fuel : nat) (st : UnorderedLog)
    (size type : Z) (allocs : list (option page_id))
    : option (UnorderedLog * option LogPosition * list (option page_id)) :=
  let entrySize := entrySizeFromSize size in
  if entrySize >? MAX_ENTRY_SIZE then Some (st, None, allocs)
  else UnorderedLog_appendEntry fuel st size type allocs.


(** The entry [e] that an append returned: it lies on the write head,
    has the size and the type of the call, and ends inside the used
    bytes of its page. *)
Definition appended (st : UnorderedLog) (size type : Z) (e : LogPosition)
    : Prop :=
  writeHead (uHead st) = Some (lp_page e) /\
  exists pg, uPages st !! lp_page e = Some pg /\
    acquired pg (lp_offset e) size /\
    mType (entry_at pg (lp_offset e)) = type /\
    lp_offset e + entrySizeFromSize size <= page_offset pg.


(** Every entry that starts inside the used bytes of its page, at a
    position of the chain before [c], is sealed. *)
Definition entries_sealed_before (st : OrderedLog) (l : list page_id)
    (c : LogPosition) : Prop :=
  forall p o sz,
    acquired (opage st p) o sz -> o < page_offset (opage st p) ->
    pos_lt l (mkLogPosition p o) c ->
    sealed_entry (opage st p) o sz.

(** The two ways a cursor changes: it passes the sealed entry it stands
    on, or it stands at the stored offset of a sealed page and goes to
    the start of the next page. *)
Definition cursor_move (st : OrderedLog) (c c' : LogPosition) : Prop :=
  (lp_page c' = lp_page c /\
   exists sz, sealed_entry (opage st (lp_page c)) (lp_offset c) sz /\
              lp_offset c' = lp_offset c + entrySizeFromSize sz) \/
  (exists q, c' = mkLogPosition q 0 /\
     mNext (opage st (lp_page c)) = Some q /\
     Z.land (mOffset (opage st (lp_page c))) 1 = 0 /\
     page_offset (opage st (lp_page c)) = lp_offset c).


(** A layout with the figures of the spec: 16 bytes reserved for an
    entry header, pages of 2 MiB, and a page header of 24 bytes. *)
Definition spec_layout : Layout := mkLayout 16 24 2097152.

(** One thread appends an entry of 100 bytes, seals it and moves the
    sealed head over it. *)
Definition one_entry_sealed : list log_event :=
  [LSpawn; LAppend 0 100 7] ++ repeat (LStep 0 None) 5 ++
  [LSeal 0 (mkLogPosition first_page 0)] ++ repeat (LStep 0 None) 6.

(** Two threads append 2000000 bytes each: the first entry fills most
    of the first page, and the second thread seals that page, links a
    second page (page 1) and appends there. *)
Definition two_pages_run : list log_event :=
  [LSpawn; LSpawn; LAppend 0 2000000 7; LAppend 1 2000000 9] ++
  repeat (LStep 0 None) 5 ++ repeat (LStep 1 (Some 1%nat)) 14.

(** The first thread seals its entry and moves the sealed head to the
    second page. *)
Definition seal_first_entry : list log_event :=
  [LSeal 0 (mkLogPosition first_page 0)] ++ repeat (LStep 0 None) 9.

(** Two calls of [LogPage::append] on a fresh page, of 100 and of 200
    bytes: both threads load the offset and probe the entry at 0; the
    first takes it, the second goes on to the entry at 128, takes it
    and publishes it; the first has stored its type and not published
    yet. *)
Definition two_appenders : list page_event :=
  [PCall 100 7; PCall 200 9; PStep 0; PStep 1; PStep 0; PStep 1; PStep 1;
   PStep 0; PStep 1; PStep 1].

(** An unordered log of four pages, linked 3, 2, 1, 0. *)
Definition four_pages : UnorderedLog :=
  mkUnorderedLog
    (<[3%nat := mkLogPage 0 (Some 2%nat) ∅]>
       (<[2%nat := mkLogPage 0 (Some 1%nat) ∅]>
          (<[1%nat := mkLogPage 0 (Some 0%nat) ∅]>
             (<[0%nat := mkLogPage 0 None ∅]> ∅))))
    (mkLogHead (Some 3%nat) None) (Some 0%nat) 4 [].


(** The four pages with a chain of two more pages, 5 and 4, that is not
    linked into the log yet. *)
Definition six_pages : UnorderedLog :=
  mkUnorderedLog
    (<[5%nat := mkLogPage 1 (Some 4%nat) ∅]>
       (<[4%nat := mkLogPage 1 None ∅]> (uPages four_pages)))
    (uHead four_pages) (uTail four_pages) 4 [].


End Layout.
End Log.


(** * The row-store page collector: [deltamain/rowstore/RowStorePage.cpp] *)

Module RowStore.

Definition page_id := nat.

(** Modelled from the spec: [InsertMap] is declared in
    [deltamain/InsertMap.hpp]; an ordered mapping from record keys to
    the pending inserts of the key.  The list is in iteration order:
    [begin()] is its head, and [first.key] of an element is the first
    component. *)
Definition InsertMap (Entries : Type) : Type := list (Z * Entries).

(** [insertMap.erase(it)] for an iterator at the element of key [k]. *)
Fixpoint im_erase {Entries : Type} (k : Z) (im : InsertMap Entries)
    : InsertMap Entries :=
  match im with
  | [] => []
  | (k', v) :: im' => if k' =? k then im' else (k', v) :: im_erase k im'
  end.

(** The interface of [CDMRecord] / [DMRecord] ([deltamain/Record.hpp]),
    which the collector only calls.  [Body] is what a page holds after
    its 8-byte header.  [copyAndCompact rec lowestActiveVersion
    insertMap dest offset maxSize] writes into the page body [dest] at
    [offset] and gives the bytes written, [couldRelocate], the insert
    map and the page body afterwards. *)
Class RecordOps (Body Entries : Type) : Type := mkRecordOps {
  Rec : Type;
  rec_at : Body -> Z -> Rec;
  dummy_rec : Z -> Rec;
  rec_size : Rec -> Z;
  rec_key : Rec -> Z;
  needsCleaning : Rec -> Z -> InsertMap Entries -> bool;
  copyAndCompact :
    Rec -> Z -> InsertMap Entries -> Body -> Z -> Z ->
    Z * bool * InsertMap Entries * Body;
  empty_body : Body
}.

(** Modelled from the spec: the hash-table modifier is declared in
    [util/CuckooHash.hpp]; [insert(key, location, isRelocation)]
    records the location of the key and [get(key)] gives it.  The
    calls of [insert] are kept in the order they were made. *)
Record Modifier := mkModifier {
  table : gmap Z (page_id * Z);
  inserts : list (Z * (page_id * Z) * bool)
}.

Definition ht_get (ht : Modifier) (key : Z) : option (page_id * Z) :=
  table ht !! key.

Definition ht_insert (ht : Modifier) (key : Z) (pos : page_id * Z)
    (isRelocation : bool) : Modifier :=
  mkModifier (<[key := pos]> (table ht))
             (inserts ht ++ [(key, pos, isRelocation)]).

Section Collector.

Context {L : Layout} {Body Entries : Type} {ops : RecordOps Body Entries}.

(** A page in memory: the used-byte count of its first 8 bytes, and
    the rest. *)
Record Page := mkPage { used : Z; body : Body }.

(** The fields of a [RowStorePage] object. *)
Record RowStorePage := mkRowStorePage {
  mData : page_id;
  mSize : Z;
  mStartOffset : Z;
  mFillPage : option page_id;
  mFillOffset : Z
}.

(** What the object works on: the pages, the free pages of the page
    manager (a stack), and the pages marked for deletion. *)
Record Env := mkEnv {
  heap : gmap page_id Page;
  pm_free : list page_id;
  marked : list page_id
}.

(** Modelled from the spec: [constructFillPage] and
    [markCurrentForDeletion] are defined in [RowStorePage.hpp].  If no
    fill page is open, one is allocated from the page manager, its
    8-byte header is reserved and [mFillOffset] is set to 8; marking
    hands the page to deferred reclamation. *)
Definition constructFillPage (p : RowStorePage) (e : Env)
    : RowStorePage * Env :=
  match mFillPage p with
  | Some _ => (p, e)
  | None =>
      match pm_free e with
      | [] => (mkRowStorePage (mData p) (mSize p) (mStartOffset p) None 8, e)
      | q :: free =>
          (mkRowStorePage (mData p) (mSize p) (mStartOffset p) (Some q) 8,
           mkEnv (<[q := mkPage 0 empty_body]> (heap e)) free (marked e))
      end
  end.

Definition markCurrentForDeletion (p : RowStorePage) (e : Env) : Env :=
  mkEnv (heap e) (pm_free e) (marked e ++ [mData p]).

Record GcResult := mkGcResult {
  gc_ret : option page_id;
  gc_done : bool;
  gc_page : RowStorePage;
  gc_env : Env;
  gc_im : InsertMap Entries;
  gc_ht : Modifier
}.

(** The first loop of [gc], RowStorePage.cpp:73-80: the value of
    [hasToClean] after it. *)
Fixpoint gc_scan (fuel : nat) (data : Body) (size lav : Z)
    (im : InsertMap Entries) (offset : Z) : option bool :=
  match fuel with
  | O => None
  | S fuel =>
      if offset <? size then
        let rec := rec_at data offset in
        if needsCleaning rec lav im then Some true
        else gc_scan fuel data size lav im (u64 (offset + rec_size rec))
      else Some false
  end.

(** The second loop of [gc], RowStorePage.cpp:96-120.  [None] stands
    for a run that reads or writes through a null or unmapped page, or
    runs out of fuel. *)
Fixpoint gc_compact (fuel : nat) (p : RowStorePage) (e : Env) (lav : Z)
    (im : InsertMap Entries) (ht : Modifier) (offset : Z)
    : option GcResult :=
  match fuel with
  | O => None
  | S fuel =>
      if offset <? mSize p then
        match heap e !! mData p, mFillPage p with
        | Some dp, Some f =>
            match heap e !! f with
            | Some fp =>
                let rec := rec_at (body dp) offset in
                let pos := (f, mFillOffset p) in
                let '(n, couldRelocate, im', body') :=
                  copyAndCompact rec lav im (body fp) (mFillOffset p)
                    (u64 (TELL_PAGE_SIZE - mFillOffset p)) in
                let fillOffset := u64 (mFillOffset p + n) in
                if negb couldRelocate then
                  Some (mkGcResult (Some f) false
                          (mkRowStorePage (mData p) (mSize p) (mStartOffset p)
                                          None fillOffset)
                          (mkEnv (<[f := mkPage fillOffset body']> (heap e))
                                 (pm_free e) (marked e))
                          im' ht)
                else
                  gc_compact fuel
                    (mkRowStorePage (mData p) (mSize p) (mStartOffset p)
                                    (Some f) fillOffset)
                    (mkEnv (<[f := mkPage (used fp) body']> (heap e))
                           (pm_free e) (marked e))
                    lav im' (ht_insert ht (rec_key rec) pos true)
                    (u64 (offset + rec_size rec))
            | None => None
            end
        | _, _ => None
        end
      else Some (mkGcResult None true p e im ht)
  end.

(** [RowStorePage::gc], RowStorePage.cpp:63. *)
Definition gc (fuel : nat) (p : RowStorePage) (e : Env) (lav : Z)
    (im : InsertMap Entries) (ht : Modifier) : option GcResult :=
  match heap e !! mData p with
  | None => None
  | Some dp =>
      let hasToClean := negb (mStartOffset p =? 8) in
      match (if hasToClean then Some true
             else gc_scan fuel (body dp) (mSize p) lav im (mStartOffset p)) with
      | None => None
      | Some false => Some (mkGcResult (Some (mData p)) true p e im ht)
      | Some true =>
          let e1 := if mStartOffset p =? 8
                    then markCurrentForDeletion p e else e in
          let '(p2, e2) := constructFillPage p e1 in
          gc_compact fuel p2 e2 lav im ht (mStartOffset p2)
      end
  end.

(** The loop of [fillWithInserts], RowStorePage.cpp:138-164. *)
Fixpoint fill_loop (fuel : nat) (p : RowStorePage) (e : Env) (lav : Z)
    (im : InsertMap Entries) (ht : Modifier)
    : option (RowStorePage * Env * InsertMap Entries * Modifier) :=
  match fuel with
  | O => None
  | S fuel =>
      match im with
      | [] => Some (p, e, im, ht)
      | (key, _) :: _ =>
          match ht_get ht key with
          | Some _ => fill_loop fuel p e lav (im_erase key im) ht
          | None =>
              match mFillPage p with
              | None => None
              | Some f =>
                  match heap e !! f with
                  | None => None
                  | Some fp =>
                      let pos := (f, mFillOffset p) in
                      let '(n, couldRelocate, im', body') :=
                        copyAndCompact (dummy_rec key) lav im (body fp)
                          (mFillOffset p)
                          (u64 (TELL_PAGE_SIZE - mFillOffset p)) in
                      let p1 :=
                        mkRowStorePage (mData p) (mSize p) (mStartOffset p)
                                       (Some f) (u64 (mFillOffset p + n)) in
                      let e1 :=
                        mkEnv (<[f := mkPage (used fp) body']> (heap e))
                              (pm_free e) (marked e) in
                      if couldRelocate then
                        fill_loop fuel p1 e1 lav (im_erase key im')
                                  (ht_insert ht key pos false)
                      else Some (p1, e1, im', ht)
                  end
              end
          end
      end
  end.

Record FillResult := mkFillResult {
  fr_ret : option page_id;
  fr_page : RowStorePage;
  fr_env : Env;
  fr_im : InsertMap Entries;
  fr_ht : Modifier
}.

(** [RowStorePage::fillWithInserts], RowStorePage.cpp:123. *)
Definition fillWithInserts (fuel : nat) (p : RowStorePage) (e : Env)
    (lav : Z) (im : InsertMap Entries) (ht : Modifier)
    : option FillResult :=
  let '(p1, e1) := constructFillPage p e in
  match fill_loop fuel p1 e1 lav im ht with
  | None => None
  | Some (p2, e2, im2, ht2) =>
      match mFillPage p2 with
      | None => None
      | Some f =>
          match heap e2 !! f with
          | None => None
          | Some fp =>
              Some (mkFillResult (Some f)
                      (mkRowStorePage (mData p2) (mSize p2) (mStartOffset p2)
                                      None (mFillOffset p2))
                      (mkEnv (<[f := mkPage (mFillOffset p2) (body fp)]>
                                (heap e2))
                             (pm_free e2) (marked e2))
                      im2 ht2)
          end
      end
  end.

(** The records of a page, as the loops of [gc] meet them from
    [offset]: each has a positive size and the walk ends at or past
    [size]. *)
Inductive packed (data : Body) (size : Z) : Z -> list Z -> Prop :=
| packed_end o : size <= o -> packed data size o []
| packed_rec o l :
    o < size -> 0 < rec_size (rec_at data o) ->
    o + rec_size (rec_at data o) < 2 ^ 64 ->
    packed data size (o + rec_size (rec_at data o)) l ->
    packed data size o (o :: l).

(** [copyAndCompact] only takes entries out of the insert map. *)
Definition consumes_only : Prop :=
  forall rec lav (im : InsertMap Entries) dest off max,
    sublist (copyAndCompact rec lav im dest off max).1.2 im.

(** [copyAndCompact] on the dummy record of [fillWithInserts] leaves the
    keys of the insert map in place: line 160 erases through the
    iterator that line 140 took before the call, and the call consumes
    no entries of other keys. *)
Definition keeps_keys : Prop :=
  forall k lav (im : InsertMap Entries) dest off max,
    map fst (copyAndCompact (dummy_rec k) lav im dest off max).1.2
    = map fst im.


End Collector.

(** ** A small instance of the record interface, for examples

    A page body lists the records written into it, each with its
    offset, key and size; a pending insert is the size of its record.
    A record needs cleaning when its key is below the lowest active
    version or has a pending insert; compaction copies the record and
    the pending insert of its key when both fit. *)
Definition toy_body : Type := list (Z * (Z * Z)).

Definition toy_lookup (b : toy_body) (o : Z) : Z * Z :=
  match find (fun x => x.1 =? o) b with
  | Some x => x.2
  | None => (0, 0)
  end.

Definition toy_pending (k : Z) (im : InsertMap Z) : Z :=
  match find (fun x => x.1 =? k) im with
  | Some x => x.2
  | None => 0
  end.

Definition toy_ops : RecordOps toy_body Z := {|
  Rec := Z * Z;
  rec_at := toy_lookup;
  dummy_rec := fun k => (k, 0);
  rec_size := fun r => r.2;
  rec_key := fun r => r.1;
  needsCleaning := fun r lav im => (r.1 <? lav) || (0 <? toy_pending r.1 im);
  copyAndCompact := fun r lav im dest off max =>
    let need := r.2 + toy_pending r.1 im in
    if need <=? max then (need, true, im, dest ++ [(off, (r.1, need))])
    else (0, false, im, dest);
  empty_body := []
|}.

(** An input page (page 0) with two records, of sizes 512 KiB and 768
    KiB, an open fill page (page 1) that is half full, and two free
    pages. *)
Definition two_records_env : @Env toy_body :=
  mkEnv
    (<[0%nat := mkPage 1310728 [(8, (1, 524288)); (524296, (2, 786432))]]>
       (<[1%nat := mkPage 0 []]> ∅))
    [2%nat; 3%nat] [].

Definition two_records_page : RowStorePage :=
  mkRowStorePage 0%nat 1310728 8 (Some 1%nat) 1048576.

Definition two_records_table : Modifier :=
  mkModifier (<[1 := (0%nat, 8)]> (<[2 := (0%nat, 524296)]> ∅)) [].

(** A fill page (page 1) with 100 bytes left, and one free page. *)
Definition nearly_full_env : @Env toy_body :=
  mkEnv (<[0%nat := mkPage 8 []]> (<[1%nat := mkPage 0 []]> ∅)) [2%nat] [].

Definition nearly_full_page : RowStorePage :=
  mkRowStorePage 0%nat 8 8 (Some 1%nat) 2097052.


End RowStore.

(** * Properties *)

(** ** Machine arithmetic *)

Lemma u32_range x : 0 <= u32 x < 2 ^ 32.
Proof. unfold u32. apply Z.mod_pos_bound. lia. Qed.

Lemma u32_small x : 0 <= x < 2 ^ 32 -> u32 x = x.
Proof. intros H. unfold u32. apply Z.mod_small. exact H. Qed.

Lemma u32_mod16 x : u32 x mod 16 = x mod 16.
Proof.
  unfold u32. apply Z.mod_mod_divide.
  exists 268435456. reflexivity.
Qed.

Lemma shiftl1 a : Z.shiftl a 1 = 2 * a.
Proof. rewrite Z.shiftl_mul_pow2 by lia. lia. Qed.

Lemma shiftr1 a : Z.shiftr a 1 = a / 2.
Proof. rewrite Z.shiftr_div_pow2 by lia. reflexivity. Qed.

Lemma land1 a : Z.land a 1 = a mod 2.
Proof. change 1 with (Z.ones 1). rewrite Z.land_ones by lia. reflexivity. Qed.

Lemma lor1_even a : Z.lor (2 * a) 1 = 2 * a + 1.
Proof.
  symmetry. apply Z.add_nocarry_lor.
  rewrite land1. rewrite Z.mul_comm. apply Z.mod_mul. lia.
Qed.

(** [(x << 1) | 1] on a 32-bit value that keeps its top bit clear. *)
Lemma pack1 x : 0 <= x < 2 ^ 31 -> u32 (Z.lor (u32 (Z.shiftl x 1)) 1) = 2 * x + 1.
Proof.
  intros H. rewrite shiftl1, (u32_small (2 * x)) by lia.
  rewrite lor1_even. apply u32_small. lia.
Qed.

Lemma shiftr1_odd s : Z.shiftr (2 * s + 1) 1 = s.
Proof. rewrite shiftr1. lia. Qed.

Lemma shiftr1_even s : Z.shiftr (2 * s) 1 = s.
Proof. rewrite shiftr1. lia. Qed.

Lemma land1_odd s : Z.land (2 * s + 1) 1 = 1.
Proof. rewrite land1. lia. Qed.

Lemma land1_even s : Z.land (2 * s) 1 = 0.
Proof. rewrite land1. lia. Qed.

(** Clearing bit 0. *)
Lemma ldiff1 a : Z.ldiff a 1 = 2 * (a / 2).
Proof.
  change 1 with (Z.ones 1) at 1. rewrite Z.ldiff_ones_r by lia.
  rewrite shiftl1, shiftr1. reflexivity.
Qed.

Lemma ldiff1_odd s : Z.ldiff (2 * s + 1) 1 = 2 * s.
Proof. rewrite ldiff1. lia. Qed.

Lemma ldiff1_even s : Z.ldiff (2 * s) 1 = 2 * s.
Proof. rewrite ldiff1. lia. Qed.

Lemma u64_small x : 0 <= x < 2 ^ 64 -> u64 x = x.
Proof. intros H. unfold u64. apply Z.mod_small. exact H. Qed.


Module LogTheory.
Import Log.

Section Layout.

Context {L : Layout}.

(** *** Entry sizes *)

Lemma entrySizeFromSize_mod16 s : entrySizeFromSize s mod 16 = 0.
Proof.
  unfold entrySizeFromSize. rewrite u32_mod16.
  destruct (Z.eqb_spec (u32 (s + LOG_ENTRY_SIZE) mod 16) 0); lia.
Qed.

Lemma entrySizeFromSize_bounds s :
  0 < LOG_ENTRY_SIZE <= 16 -> 0 <= s < 2 ^ 31 ->
  s + LOG_ENTRY_SIZE <= entrySizeFromSize s < s + LOG_ENTRY_SIZE + 16.
Proof.
  intros HL Hs. unfold entrySizeFromSize.
  rewrite (u32_small (s + LOG_ENTRY_SIZE)) by lia.
  destruct (Z.eqb_spec ((s + LOG_ENTRY_SIZE) mod 16) 0);
    rewrite u32_small; lia.
Qed.

Lemma entrySizeFromSize_pos s :
  0 < LOG_ENTRY_SIZE <= 16 -> 0 <= s < 2 ^ 31 -> 16 <= entrySizeFromSize s.
Proof.
  intros HL Hs.
  pose proof (entrySizeFromSize_bounds s HL Hs).
  pose proof (entrySizeFromSize_mod16 s). lia.
Qed.

(** *** [LogEntry::tryAcquire] *)

Lemma tryAcquire_free size type e :
  0 <= size < 2 ^ 31 -> mSize e = 0 ->
  tryAcquire size type e = (mkLogEntry (2 * size + 1) type, 0).
Proof.
  intros Hs He. unfold tryAcquire, tryAcquire_cas, compare_exchange_strong.
  rewrite He. simpl. rewrite pack1 by lia. reflexivity.
Qed.

Lemma tryAcquire_occupied size type e :
  mSize e <> 0 ->
  tryAcquire size type e = (e, entrySizeFromSize (Z.shiftr (mSize e) 1)).
Proof.
  intros He. unfold tryAcquire, tryAcquire_cas, compare_exchange_strong.
  destruct (Z.eqb_spec (mSize e) 0); [contradiction|]. reflexivity.
Qed.

(** C6.  For a size with [0 < size < 2^31], [tryAcquire] on a free
    header (size field 0) sets the field to [(size << 1) | 1], stores
    the type and returns 0; on an occupied header it changes nothing
    and returns [entrySizeFromSize] of the occupant's payload size,
    which is not 0; so it returns 0 exactly when it acquired the
    entry. *)
Theorem tryAcquire_spec (size type : Z) (e : LogEntry) :
  0 < LOG_ENTRY_SIZE <= 16 ->
  0 < size < 2 ^ 31 ->
  0 <= mSize e < 2 ^ 32 ->
  (mSize e = 0 ->
     tryAcquire size type e
     = (mkLogEntry (Z.lor (Z.shiftl size 1) 1) type, 0)) /\
  (mSize e <> 0 ->
     tryAcquire size type e
     = (e, entrySizeFromSize (Z.shiftr (mSize e) 1)) /\
     entrySizeFromSize (Z.shiftr (mSize e) 1) <> 0) /\
  ((tryAcquire size type e).2 = 0 <-> mSize e = 0).
Proof.
  intros HL Hs He.
  assert (Hocc : mSize e <> 0 -> entrySizeFromSize (Z.shiftr (mSize e) 1) <> 0).
  { intros _. rewrite shiftr1.
    pose proof (entrySizeFromSize_pos (mSize e / 2) HL). lia. }
  split; [|split].
  - intros H0. rewrite tryAcquire_free by (lia || assumption).
    rewrite shiftl1, lor1_even. reflexivity.
  - intros Hn. split; [apply tryAcquire_occupied; assumption | auto].
  - split.
    + intros Hr. destruct (Z.eq_dec (mSize e) 0) as [|Hn]; [assumption|].
      rewrite tryAcquire_occupied in Hr by assumption. simpl in Hr.
      exfalso. apply (Hocc Hn). assumption.
    + intros H0. rewrite tryAcquire_free by (lia || assumption). reflexivity.
Qed.

(** *** One page under concurrent appends *)

Lemma entry_at_set_entry pg pos e o :
  entry_at (set_entry pg pos e) o = if decide (pos = o) then e else entry_at pg o.
Proof.
  unfold entry_at, set_entry. simpl. rewrite lookup_insert.
  destruct (decide (pos = o)); reflexivity.
Qed.

Lemma page_offset_div pg : page_offset pg = mOffset pg / 2.
Proof. unfold page_offset. apply shiftr1. Qed.

Lemma acquired_inj pg o s s' : acquired pg o s -> acquired pg o s' -> s = s'.
Proof. unfold acquired, is_acquired. lia. Qed.

Lemma acquired_nonzero pg o s : acquired pg o s -> mSize (entry_at pg o) <> 0.
Proof. unfold acquired, is_acquired. lia. Qed.

Lemma acquired_shiftr pg o s :
  acquired pg o s -> Z.shiftr (mSize (entry_at pg o)) 1 = s.
Proof. unfold acquired, is_acquired. rewrite shiftr1. lia. Qed.

Lemma sealed_entry_acquired pg o s : sealed_entry pg o s -> acquired pg o s.
Proof. unfold sealed_entry, acquired, is_sealed, is_acquired. tauto. Qed.

Lemma acquired_set_entry pg pos e o s :
  acquired (set_entry pg pos e) o s <->
  if decide (pos = o) then is_acquired (mSize e) s else acquired pg o s.
Proof.
  unfold acquired. rewrite entry_at_set_entry.
  destruct (decide (pos = o)); reflexivity.
Qed.

Lemma sealed_set_entry pg pos e o s :
  sealed_entry (set_entry pg pos e) o s <->
  if decide (pos = o) then is_sealed (mSize e) s else sealed_entry pg o s.
Proof.
  unfold sealed_entry. rewrite entry_at_set_entry.
  destruct (decide (pos = o)); reflexivity.
Qed.

Lemma page_le_refl pg : page_le pg pg.
Proof. unfold page_le. split_and!; auto. lia. Qed.

Lemma page_le_trans pg1 pg2 pg3 : page_le pg1 pg2 -> page_le pg2 pg3 -> page_le pg1 pg3.
Proof.
  unfold page_le. intros (A1 & A2 & A3 & A4 & A5) (B1 & B2 & B3 & B4 & B5).
  split_and!; auto; try lia.
  intros H. rewrite B2; [auto|]. rewrite A2; auto.
Qed.

Lemma append_pc_ok_stable size pg pg' pc :
  append_pc_ok size pg pc -> page_le pg pg' -> append_pc_ok size pg' pc.
Proof.
  intros H (A1 & A2 & A3 & A4 & A5).
  destruct pc as [| | | |[r|]]; simpl in *; intuition (auto; lia).
Qed.

Lemma page_ok_entry pg o :
  page_ok pg -> mSize (entry_at pg o) <> 0 ->
  exists s, acquired pg o s /\ 0 <= o /\ o mod 16 = 0 /\
            o + entrySizeFromSize s <= MAX_ENTRY_SIZE.
Proof. intros [_ H] Hn. destruct (H o) as [|?]; [contradiction|assumption]. Qed.

Lemma page_ok_acquired pg o s :
  page_ok pg -> acquired pg o s ->
  0 <= o /\ o mod 16 = 0 /\ o + entrySizeFromSize s <= MAX_ENTRY_SIZE.
Proof.
  intros Hok Ha.
  destruct (page_ok_entry pg o Hok (acquired_nonzero _ _ _ Ha)) as (s' & Ha' & H).
  rewrite (acquired_inj _ _ _ _ Ha Ha'). exact H.
Qed.

Lemma page_ok_set_entry pg pos e :
  page_ok pg ->
  (mSize e = 0 \/
   exists s, is_acquired (mSize e) s /\ 0 <= pos /\ pos mod 16 = 0 /\
             pos + entrySizeFromSize s <= MAX_ENTRY_SIZE) ->
  page_ok (set_entry pg pos e).
Proof.
  intros [Ho He] H. split; [exact Ho|].
  intros o. destruct (He o) as [H0|(s & Ha & Hb)].
  - destruct (decide (pos = o)) as [->|Hne].
    + rewrite entry_at_set_entry, decide_True by reflexivity.
      destruct H as [|(s & Ha & Hb)]; [auto|]. right. exists s.
      split; [|exact Hb]. apply acquired_set_entry.
      rewrite decide_True by reflexivity. exact Ha.
    + left. rewrite entry_at_set_entry, decide_False by assumption. exact H0.
  - destruct (decide (pos = o)) as [->|Hne].
    + rewrite entry_at_set_entry, decide_True by reflexivity.
      destruct H as [|(s' & Ha' & Hb')]; [auto|]. right. exists s'.
      split; [|exact Hb']. apply acquired_set_entry.
      rewrite decide_True by reflexivity. exact Ha'.
    + right. exists s. split; [|exact Hb]. apply acquired_set_entry.
      rewrite decide_False by assumption. exact Ha.
Qed.

Lemma page_le_set_entry pg pos e :
  (forall s, acquired pg pos s -> is_acquired (mSize e) s) ->
  (forall s, sealed_entry pg pos s -> is_sealed (mSize e) s) ->
  page_le pg (set_entry pg pos e).
Proof.
  intros Ha Hs. unfold page_le. split_and!; simpl; auto.
  - unfold page_offset. simpl. lia.
  - intros o s H. apply acquired_set_entry.
    destruct (decide (pos = o)) as [->|]; auto.
  - intros o s H. apply sealed_set_entry.
    destruct (decide (pos = o)) as [->|]; auto.
Qed.

Lemma page_ok_set_offset pg P :
  page_ok pg -> 0 <= P <= MAX_ENTRY_SIZE -> P mod 16 = 0 ->
  page_ok (set_offset pg (2 * P + 1)) /\ page_ok (set_offset pg (2 * P)).
Proof.
  intros [Ho He] HP HP16. split; (split; [exists P; simpl; auto|exact He]).
Qed.

Ltac page_arith :=
  repeat rewrite page_offset_div in *; repeat rewrite shiftr1 in *;
  repeat rewrite land1 in *; simpl in *; lia.

Lemma appendEntry_step_ok size type pg pc :
  layout_ok -> page_ok pg -> 0 < size < 2 ^ 31 ->
  append_pc_ok size pg pc ->
  page_ok (appendEntry_step size (entrySizeFromSize size) type pg pc).1 /\
  append_pc_ok size
    (appendEntry_step size (entrySizeFromSize size) type pg pc).1
    (appendEntry_step size (entrySizeFromSize size) type pg pc).2 /\
  page_le pg (appendEntry_step size (entrySizeFromSize size) type pg pc).1.
Proof.
  intros (HL & HH & HH8 & HP & HP30) Hok Hs Hpc.
  pose proof (entrySizeFromSize_bounds size HL ltac:(lia)) as Hesz.
  pose proof (entrySizeFromSize_mod16 size) as Hesz16.
  assert (HM : MAX_ENTRY_SIZE < 2 ^ 30) by (unfold MAX_ENTRY_SIZE; lia).
  destruct pc as [|off pos|off pos|off pos|r]; simpl.
  - (* load of the offset *)
    destruct Hok as [(P & HP1 & HP2 & HP3) He].
    rewrite land1, shiftr1.
    destruct (Z.eqb_spec (mOffset pg mod 2) 0); simpl.
    + split_and!; auto using page_le_refl. split; [eauto 10|auto].
    + split_and!; auto using page_le_refl; try (split; [eauto 10|auto]);
        page_arith.
  - (* bounds check and exchange on the header *)
    destruct Hpc as (Hp1 & Hp2 & Ho1 & Ho2 & Ho3).
    rewrite (u32_small (pos + entrySizeFromSize size)) by lia.
    destruct (Z.gtb_spec (pos + entrySizeFromSize size) MAX_ENTRY_SIZE); simpl.
    { split_and!; auto using page_le_refl. }
    unfold tryAcquire_cas, compare_exchange_strong.
    destruct (Z.eqb_spec (mSize (entry_at pg pos)) 0) as [H0|Hn]; simpl.
    + rewrite pack1 by lia.
      assert (Hacq : is_acquired (2 * size + 1) size) by (unfold is_acquired; lia).
      split_and!.
      * apply page_ok_set_entry; [assumption|]. right. exists size. simpl. split_and!; auto; lia.
      * apply acquired_set_entry. rewrite decide_True by reflexivity. exact Hacq.
      * assumption.
      * unfold page_offset in *. simpl. assumption.
      * apply page_le_set_entry; simpl.
        -- intros s Ha. apply acquired_nonzero in Ha. contradiction.
        -- intros s Ha. apply sealed_entry_acquired, acquired_nonzero in Ha.
           contradiction.
    + destruct (page_ok_entry pg pos Hok Hn) as (s' & Ha & Hb1 & Hb2 & Hb3).
      rewrite (acquired_shiftr _ _ _ Ha).
      assert (Hs' : 0 <= s' < 2 ^ 31) by (destruct Ha; lia).
      pose proof (entrySizeFromSize_pos s' HL Hs') as Hpos'.
      pose proof (entrySizeFromSize_mod16 s') as H16'.
      destruct (Z.eqb_spec (entrySizeFromSize s') 0); [lia|]. simpl.
      rewrite u32_small by lia.
      split_and!; auto using page_le_refl; lia.
  - (* store of the type *)
    destruct Hpc as (Ha & Ho1 & Ho2).
    destruct (page_ok_acquired pg pos size Hok Ha) as (Hb1 & Hb2 & Hb3).
    split_and!.
    + apply page_ok_set_entry; [assumption|]. right. exists size. simpl. split_and!; auto; lia.
    + apply acquired_set_entry. rewrite decide_True by reflexivity. exact Ha.
    + assumption.
    + unfold page_offset in *. simpl. assumption.
    + apply page_le_set_entry; simpl; auto.
  - (* one round of the publishing loop *)
    destruct Hpc as (Ha & Ho1 & Ho2).
    destruct (page_ok_acquired pg pos size Hok Ha) as (Hb1 & Hb2 & Hb3).
    rewrite (u32_small (pos + entrySizeFromSize size)) by lia.
    rewrite pack1 by lia.
    destruct (Z.ltb_spec off (2 * (pos + entrySizeFromSize size) + 1)); simpl.
    + unfold compare_exchange_strong.
      destruct (Z.eqb_spec (mOffset pg) off) as [He|Hne]; simpl.
      * split_and!.
        -- apply page_ok_set_offset; [assumption|lia|lia].
        -- exact Ha.
        -- unfold page_offset. simpl. rewrite shiftr1. lia.
        -- unfold page_le. split_and!; simpl; auto.
           ++ page_arith.
           ++ rewrite land1. lia.
      * rewrite land1, shiftr1.
        destruct (Z.eqb_spec (mOffset pg mod 2) 0); simpl.
        -- destruct (Z.geb_spec (mOffset pg / 2) (pos + entrySizeFromSize size));
             simpl; split_and!; auto using page_le_refl. page_arith.
        -- split_and!; auto using page_le_refl; page_arith.
    + split_and!; auto using page_le_refl. page_arith.
  - destruct r; simpl in *; split_and!; auto using page_le_refl; tauto.
Qed.

Lemma seal_page_ok pg :
  page_ok pg -> page_ok (seal_page pg) /\ page_le pg (seal_page pg).
Proof.
  intros [(P & HP1 & HP2 & HP3) He]. unfold seal_page. split.
  - split; [|exact He]. exists P. simpl. rewrite ldiff1. split_and!; auto; lia.
  - unfold page_le, page_offset. simpl. rewrite ldiff1, !shiftr1, land1.
    split_and!; auto; lia.
Qed.

Lemma seal_entry_ok pg pos :
  page_ok pg ->
  page_ok (set_entry pg pos (seal_entry (entry_at pg pos))) /\
  page_le pg (set_entry pg pos (seal_entry (entry_at pg pos))).
Proof.
  intros Hok. split.
  - apply page_ok_set_entry; [assumption|]. simpl. rewrite ldiff1.
    destruct Hok as [_ He]. destruct (He pos) as [H0|(s & Ha & Hb)].
    + left. lia.
    + right. exists s. split; [|exact Hb].
      unfold acquired, is_acquired in *. lia.
  - apply page_le_set_entry; simpl; rewrite ldiff1;
      unfold acquired, sealed_entry, is_acquired, is_sealed; lia.
Qed.

Lemma appender_ok_stable pg pg' a :
  appender_ok pg a -> page_le pg pg' -> appender_ok pg' a.
Proof.
  intros [Hs Hpc] Hle. split; [exact Hs|].
  eapply append_pc_ok_stable; eassumption.
Qed.

Lemma page_step_ok s ev :
  layout_ok -> page_sys_ok s -> page_sys_ok (page_step s ev).
Proof.
  intros HL. destruct s as [pg ts]. intros [Hok Hts]. simpl in *.
  destruct ev as [size type|tid| |pos]; simpl.
  - destruct (Z.ltb_spec 0 size); simpl; [|split; assumption].
    destruct (Z.ltb_spec size (2 ^ 31)); simpl; [|split; assumption].
    split; [assumption|]. simpl. apply Forall_app. split; [assumption|].
    apply Forall_cons. split; [|apply Forall_nil; exact I].
    split; simpl; [lia|]. unfold append_entry_pc.
    destruct (entrySizeFromSize size >? MAX_ENTRY_SIZE); exact I.
  - destruct (ts !! tid) as [a|] eqn:Ha; [|split; assumption].
    pose proof (Forall_lookup_1 _ _ _ _ Hts Ha) as [Hs Hpc].
    unfold appender_step.
    pose proof (appendEntry_step_ok (a_size a) (a_type a) pg (a_pc a)
                  HL Hok Hs Hpc) as (H1 & H2 & H3).
    destruct (appendEntry_step _ _ _ pg (a_pc a)) as [pg' pc']. simpl in *.
    split; [assumption|]. simpl. apply Forall_insert.
    + eapply Forall_impl; [exact Hts|]. intros b Hb.
      eapply appender_ok_stable; eassumption.
    + split; assumption.
  - destruct (seal_page_ok pg Hok) as [H1 H2]. split; [assumption|]. simpl.
    eapply Forall_impl; [exact Hts|]. intros b Hb.
    eapply appender_ok_stable; eassumption.
  - destruct (seal_entry_ok pg pos Hok) as [H1 H2]. split; [assumption|]. simpl.
    eapply Forall_impl; [exact Hts|]. intros b Hb.
    eapply appender_ok_stable; eassumption.
Qed.

Lemma fresh_page_ok : layout_ok -> page_ok fresh_page.
Proof.
  intros (HL & HH & HH8 & HP & HP30). split.
  - exists 0. unfold MAX_ENTRY_SIZE. simpl. split_and!; auto; lia.
  - intros o. left. reflexivity.
Qed.

Lemma page_run_ok sched : layout_ok -> page_sys_ok (page_run sched).
Proof.
  intros HL. unfold page_run.
  assert (H0 : page_sys_ok (fresh_page, [])).
  { split; [apply fresh_page_ok; assumption|apply Forall_nil; exact I]. }
  revert H0. generalize (fresh_page, @nil appender).
  induction sched as [|ev sched IH]; intros s Hs; simpl; [assumption|].
  apply IH. apply page_step_ok; assumption.
Qed.

Lemma u64_mod16 x : u64 x mod 16 = x mod 16.
Proof.
  unfold u64. apply Z.mod_mod_divide.
  exists (2 ^ 60). reflexivity.
Qed.

(** C9.  On a page that starts fresh and is appended to and sealed by
    any interleaving of threads, the position stored in the page offset
    is a multiple of 16, [entrySizeFromSize] always is a multiple of
    16, and every position a thread probes is a multiple of 16; with a
    page at a 16-byte aligned address and a page header of size 8
    modulo 16, the address of every probed entry header is 8 modulo
    16. *)
Theorem probe_alignment (base : Z) (sched : list page_event) :
  layout_ok -> base mod 16 = 0 ->
  page_offset (page_run sched).1 mod 16 = 0 /\
  (forall s, entrySizeFromSize s mod 16 = 0) /\
  (forall tid a off pos,
     (page_run sched).2 !! tid = Some a -> a_pc a = AProbe off pos ->
     pos mod 16 = 0 /\ entry_address base pos mod 16 = 8).
Proof.
  intros HL Hbase. pose proof (page_run_ok sched HL) as [Hok Hts].
  split_and!.
  - destruct Hok as [(P & HP1 & HP2 & HP3) _]. rewrite page_offset_div. lia.
  - apply entrySizeFromSize_mod16.
  - intros tid a off pos Ha Hpc.
    pose proof (Forall_lookup_1 _ _ _ _ Hts Ha) as [Hs Hapc].
    rewrite Hpc in Hapc. simpl in Hapc. destruct Hapc as (_ & H16 & _).
    split; [exact H16|]. unfold entry_address.
    rewrite u64_mod16. destruct HL as (_ & _ & HH8 & _).
    rewrite <- Z.add_mod_idemp_l by lia. rewrite u64_mod16.
    rewrite Z.add_mod_idemp_l by lia. lia.
Qed.

(** *** Releasing chains of pages *)

Lemma freePage_run_seg ps b e l :
  page_seg ps b e l ->
  forall fuel, (length l <= fuel)%nat -> freePage_run fuel ps b e = Some l.
Proof.
  induction 1 as [e|p pg e l Hne Hp Hseg IH]; intros fuel Hfuel.
  - destruct fuel; simpl; rewrite decide_True by reflexivity; reflexivity.
  - destruct fuel as [|fuel]; simpl in Hfuel; [lia|]. simpl.
    rewrite decide_False by assumption. rewrite Hp.
    rewrite IH by lia. reflexivity.
Qed.

Lemma freePage_run_sound fuel ps b e l :
  freePage_run fuel ps b e = Some l -> page_seg ps b e l.
Proof.
  revert b l. induction fuel as [|fuel IH]; intros b l; simpl.
  - destruct (decide (b = e)) as [->|]; [|discriminate].
    intros [= <-]. constructor.
  - destruct (decide (b = e)) as [->|Hne].
    { intros [= <-]. constructor. }
    destruct b as [p|]; [|discriminate].
    destruct (ps !! p) as [pg|] eqn:Hp; [|discriminate].
    destruct (freePage_run fuel ps (mNext pg) e) as [l'|] eqn:Hrun;
      [|discriminate].
    intros [= <-]. econstructor; eauto.
Qed.

Lemma count_pages_seg ps b e l :
  page_seg ps b e l ->
  forall fuel, (length l <= fuel)%nat ->
  count_pages fuel ps b e = Some (Z.of_nat (length l)).
Proof.
  induction 1 as [e|p pg e l Hne Hp Hseg IH]; intros fuel Hfuel.
  - destruct fuel; simpl; rewrite decide_True by reflexivity; reflexivity.
  - destruct fuel as [|fuel]; simpl in Hfuel; [lia|]. simpl.
    rewrite decide_False by assumption. rewrite Hp.
    rewrite IH by lia. f_equal. lia.
Qed.

(** C7.  [truncateLog] returns true exactly when the tail equals
    [oldTail] at the exchange; otherwise it returns false and leaves
    the log as it is; on success the tail is [newTail], nothing else of
    the log changes, and a release of the chain from [oldTail]'s page
    up to, and without, [newTail]'s page is handed to the reclamation
    primitive exactly when the two pages differ; that release frees
    exactly the pages of that part of the chain. *)
Theorem truncateLog_spec (st : OrderedLog) (oldTail newTail : LogPosition) :
  let st' := (truncateLog st oldTail newTail).1 in
  ((truncateLog st oldTail newTail).2 = true <-> mTail st = oldTail) /\
  (mTail st <> oldTail -> truncateLog st oldTail newTail = (st, false)) /\
  (mTail st = oldTail ->
   mTail st' = newTail /\ oPages st' = oPages st /\ mHead st' = mHead st /\
   mSealedHead st' = mSealedHead st /\
   oReclaim st' =
     oReclaim st ++
     (if decide (lp_page oldTail = lp_page newTail) then []
      else [(Some (lp_page oldTail), Some (lp_page newTail))])) /\
  (forall l fuel,
     page_seg (oPages st) (Some (lp_page oldTail)) (Some (lp_page newTail)) l ->
     (length l <= fuel)%nat ->
     freePage_run fuel (oPages st')
       (Some (lp_page oldTail)) (Some (lp_page newTail)) = Some l).
Proof.
  unfold truncateLog. cbv zeta.
  destruct (decide (mTail st = oldTail)) as [He|Hne].
  - destruct (decide (lp_page oldTail <> lp_page newTail)) as [Hp|Hp]; simpl.
    + rewrite decide_False by assumption.
      split_and!; auto; try tauto.
      intros l fuel Hseg Hfuel. apply freePage_run_seg; assumption.
    + assert (Heq : lp_page oldTail = lp_page newTail).
      { destruct (decide (lp_page oldTail = lp_page newTail)); tauto. }
      rewrite decide_True by assumption.
      split_and!; auto; try tauto.
      * rewrite app_nil_r. tauto.
      * intros l fuel Hseg Hfuel. apply freePage_run_seg; assumption.
  - simpl. split_and!; auto; try tauto.
    + split; [discriminate|contradiction].
    + intros l fuel Hseg Hfuel. apply freePage_run_seg; assumption.
Qed.

(** C8, as the code has it.  [erase(begin, end)] with [begin == end]
    returns at once on every log: nothing is exchanged and nothing
    changes.  Otherwise, when the chain from the old link of [begin]
    reaches [end]: the tail becomes [begin] if [end] is null, the link
    of [begin] becomes [end], the counter drops by the number of pages
    between the old link and [end], the release of exactly those pages
    is handed to the reclamation primitive, and nothing else changes. *)
Theorem erase_spec (fuel : nat) (st : UnorderedLog) (begin : page_id)
    (end_ : option page_id) :
  (Some begin = end_ -> erase fuel st begin end_ = Some st) /\
  (Some begin <> end_ ->
   forall (pg : LogPage) (l : list page_id),
   uPages st !! begin = Some pg ->
   page_seg (<[begin := set_next pg end_]> (uPages st)) (mNext pg) end_ l ->
   (length l <= fuel)%nat ->
   Z.of_nat (length l) <= mPages st < 2 ^ 64 ->
   exists st', erase fuel st begin end_ = Some st' /\
     uTail st' = (match end_ with None => Some begin | Some _ => uTail st end) /\
     uPages st' = <[begin := set_next pg end_]> (uPages st) /\
     uHead st' = uHead st /\
     mPages st' = mPages st - Z.of_nat (length l) /\
     uReclaim st' =
       uReclaim st ++ (match l with [] => [] | _ => [(mNext pg, end_)] end) /\
     freePage_run fuel (uPages st') (mNext pg) end_ = Some l).
Proof.
  unfold erase. split.
  - intros He. rewrite decide_True by assumption. reflexivity.
  - intros Hne pg l Hpg Hseg Hfuel Hcnt.
    rewrite decide_False by assumption. rewrite Hpg.
    destruct (decide (mNext pg = end_)) as [Hn|Hn].
    + assert (l = []) as ->.
      { inversion Hseg; subst; [reflexivity|]. congruence. }
      eexists. split; [reflexivity|]. simpl.
      split_and!; auto; try lia.
      * rewrite app_nil_r. reflexivity.
      * rewrite Hn. destruct fuel; simpl; rewrite decide_True by reflexivity;
          reflexivity.
    + rewrite (count_pages_seg _ _ _ _ Hseg) by assumption.
      eexists. split; [reflexivity|]. simpl.
      split_and!; auto.
      * apply u64_small. lia.
      * destruct l; [|reflexivity]. inversion Hseg. congruence.
      * apply freePage_run_seg; assumption.
Qed.

(** *** Entries of a page lie one after the other *)

Lemma echain_mono pg pg' a b :
  echain pg a b -> page_le pg pg' -> echain pg' a b.
Proof.
  intros H (_ & _ & _ & Hacq & _). induction H as [|b s H IH Ha].
  - constructor.
  - econstructor; eauto.
Qed.

Lemma append_pc_chained_stable pg pg' pc :
  append_pc_chained pg pc -> page_le pg pg' -> append_pc_chained pg' pc.
Proof.
  destruct pc; simpl; auto. intros H Hle. eapply echain_mono; eassumption.
Qed.

Lemma page_chained_le pg pg' :
  page_chained pg -> page_le pg pg' ->
  page_offset pg' = page_offset pg ->
  (forall o s, acquired pg' o s -> acquired pg o s) ->
  (forall o s, sealed_entry pg' o s -> sealed_entry pg o s) ->
  page_chained pg'.
Proof.
  intros (H1 & H2 & H3) Hle Hoff Ha Hs. split_and!.
  - rewrite Hoff. eapply echain_mono; eassumption.
  - intros o s H. eapply echain_mono; [|eassumption]. eapply H2, Ha, H.
  - intros o s H. rewrite Hoff. eapply H3, Hs, H.
Qed.

Lemma entry_at_fresh o : entry_at fresh_page o = free_entry.
Proof. unfold entry_at, fresh_page. simpl. rewrite lookup_empty. reflexivity. Qed.

Lemma fresh_page_chained : page_chained fresh_page.
Proof.
  split_and!.
  - constructor.
  - intros o s H. unfold acquired, is_acquired in H.
    rewrite entry_at_fresh in H. simpl in H. lia.
  - intros o s H. unfold sealed_entry, is_sealed in H.
    rewrite entry_at_fresh in H. simpl in H. lia.
Qed.

Lemma seal_page_chained pg : page_chained pg -> page_chained (seal_page pg).
Proof.
  intros (H1 & H2 & H3). unfold seal_page. split_and!.
  - assert (Ho : page_offset (set_offset pg (Z.ldiff (mOffset pg) 1))
                 = page_offset pg).
    { unfold page_offset. simpl. rewrite ldiff1, !shiftr1. lia. }
    rewrite Ho. clear - H1. induction H1; econstructor; eauto.
  - intros o s Ha. specialize (H2 o s Ha). clear - H2.
    induction H2; econstructor; eauto.
  - intros o s Hs. specialize (H3 o s Hs). unfold page_offset in *. simpl.
    rewrite ldiff1, !shiftr1 in *. lia.
Qed.

Lemma seal_entry_chained pg pos s :
  page_ok pg -> page_chained pg -> acquired pg pos s ->
  pos + entrySizeFromSize s <= page_offset pg ->
  page_chained (set_entry pg pos (seal_entry (entry_at pg pos))).
Proof.
  intros Hok (H1 & H2 & H3) Ha Hpub.
  destruct (seal_entry_ok pg pos Hok) as [_ Hle].
  assert (Hacq : forall o s', acquired (set_entry pg pos (seal_entry (entry_at pg pos))) o s' ->
                 acquired pg o s').
  { intros o s' H. apply acquired_set_entry in H.
    destruct (decide (pos = o)) as [<-|]; [|exact H].
    simpl in H. rewrite ldiff1 in H.
    unfold acquired, is_acquired in *. lia. }
  split_and!.
  - change (page_offset (set_entry pg pos (seal_entry (entry_at pg pos))))
      with (page_offset pg). eapply echain_mono; eassumption.
  - intros o s' H. eapply echain_mono; [|eassumption]. eapply H2, Hacq, H.
  - intros o s' H.
    change (page_offset (set_entry pg pos (seal_entry (entry_at pg pos))))
      with (page_offset pg).
    apply sealed_set_entry in H. destruct (decide (pos = o)) as [<-|].
    + assert (s' = s); [|subst; assumption].
      simpl in H. rewrite ldiff1 in H.
      unfold acquired, is_acquired, is_sealed in *. lia.
    + eapply H3, H.
Qed.

Lemma appendEntry_step_chained size type pg pc :
  layout_ok -> page_ok pg -> page_chained pg -> 0 < size < 2 ^ 31 ->
  append_pc_ok size pg pc -> append_pc_chained pg pc ->
  page_chained (appendEntry_step size (entrySizeFromSize size) type pg pc).1 /\
  append_pc_chained
    (appendEntry_step size (entrySizeFromSize size) type pg pc).1
    (appendEntry_step size (entrySizeFromSize size) type pg pc).2.
Proof.
  intros HL Hok Hch Hs Hpc Hpcc.
  pose proof (appendEntry_step_ok size type pg pc HL Hok Hs Hpc)
    as (Hok' & Hpc' & Hle).
  destruct HL as (HL & HH & HH8 & HP & HP30).
  pose proof (entrySizeFromSize_bounds size HL ltac:(lia)) as Hesz.
  assert (HM : MAX_ENTRY_SIZE < 2 ^ 30) by (unfold MAX_ENTRY_SIZE; lia).
  destruct Hch as (H1 & H2 & H3).
  destruct pc as [|off pos|off pos|off pos|r]; simpl in *.
  - (* load *)
    rewrite land1, shiftr1.
    destruct (Z.eqb_spec (mOffset pg mod 2) 0); simpl;
      (split; [split_and!; assumption|]); [exact I|].
    rewrite <- page_offset_div. exact H1.
  - (* probe *)
    destruct Hpc as (Hp1 & Hp2 & Ho1 & Ho2 & Ho3).
    rewrite (u32_small (pos + entrySizeFromSize size)) in * by lia.
    destruct (Z.gtb_spec (pos + entrySizeFromSize size) MAX_ENTRY_SIZE);
      simpl in *.
    { split; [split_and!; assumption|exact I]. }
    unfold tryAcquire_cas, compare_exchange_strong in *.
    destruct (Z.eqb_spec (mSize (entry_at pg pos)) 0) as [H0|Hn]; simpl in *.
    + rewrite pack1 in * by lia. split; [|exact I]. split_and!.
      * eapply echain_mono; eassumption.
      * intros o s Ha. apply acquired_set_entry in Ha.
        destruct (decide (pos = o)) as [<-|].
        -- eapply echain_mono; eassumption.
        -- eapply echain_mono; [|eassumption]. eapply H2, Ha.
      * intros o s Ha. apply sealed_set_entry in Ha.
        destruct (decide (pos = o)) as [<-|].
        -- simpl in Ha. unfold is_sealed in Ha. lia.
        -- apply (H3 o s Ha).
    + destruct (page_ok_entry pg pos Hok Hn) as (s' & Ha & Hb1 & Hb2 & Hb3).
      rewrite (acquired_shiftr _ _ _ Ha) in *.
      assert (Hs' : 0 <= s' < 2 ^ 31) by (destruct Ha; lia).
      pose proof (entrySizeFromSize_pos s' HL Hs') as Hpos'.
      destruct (Z.eqb_spec (entrySizeFromSize s') 0); [lia|]. simpl in *.
      rewrite u32_small in * by lia.
      split; [split_and!; assumption|]. econstructor; eassumption.
  - (* type *)
    split; [|exact I]. destruct Hpc as (Ha & _).
    eapply page_chained_le; [split_and!; eassumption|exact Hle|reflexivity| |].
    + intros o s H. apply acquired_set_entry in H.
      destruct (decide (pos = o)) as [<-|]; exact H.
    + intros o s H. apply sealed_set_entry in H.
      destruct (decide (pos = o)) as [<-|]; exact H.
  - (* publish *)
    destruct Hpc as (Ha & Ho1 & Ho2).
    destruct (page_ok_acquired pg pos size Hok Ha) as (Hb1 & Hb2 & Hb3).
    rewrite (u32_small (pos + entrySizeFromSize size)) in * by lia.
    rewrite pack1 in * by lia.
    destruct (Z.ltb_spec off (2 * (pos + entrySizeFromSize size) + 1));
      simpl in *; [|split; [split_and!; assumption|exact I]].
    unfold compare_exchange_strong in *.
    destruct (Z.eqb_spec (mOffset pg) off) as [He|Hne]; simpl in *.
    + split; [|exact I]. split_and!.
      * unfold page_offset. simpl. rewrite shiftr1.
        replace ((2 * (pos + entrySizeFromSize size) + 1) / 2)
          with (pos + entrySizeFromSize size) by lia.
        econstructor; [|exact Ha].
        eapply echain_mono; [eapply H2, Ha|exact Hle].
      * intros o s Ha'. eapply echain_mono; [eapply H2; exact Ha'|exact Hle].
      * intros o s Hse. specialize (H3 o s Hse).
        unfold page_offset in *. simpl. rewrite shiftr1 in *. lia.
    + rewrite land1, shiftr1 in *.
      destruct (Z.eqb_spec (mOffset pg mod 2) 0); simpl in *.
      * destruct (Z.geb_spec (mOffset pg / 2) (pos + entrySizeFromSize size));
          simpl; (split; [split_and!; assumption|exact I]).
      * split; [split_and!; assumption|exact I].
  - split; [split_and!; assumption|]. destruct r; exact I.
Qed.


(** *** The chain of the ordered log *)

Lemma opage_lookup st p pg : oPages st !! p = Some pg -> opage st p = pg.
Proof. intros H. unfold opage. rewrite H. reflexivity. Qed.

Lemma opage_set_page st p pg q :
  opage (set_page st p pg) q = if decide (p = q) then pg else opage st q.
Proof.
  unfold opage, set_page. simpl. rewrite lookup_insert.
  destruct (decide (p = q)); reflexivity.
Qed.

Lemma is_chain_lookup st l p :
  is_chain st l -> p ∈ l -> oPages st !! p = Some (opage st p).
Proof.
  intros (_ & _ & H) Hp. apply list_elem_of_lookup in Hp as [i Hi].
  destruct (H i p Hi) as (pg & Hpg & _). rewrite Hpg.
  f_equal. symmetry. apply opage_lookup. exact Hpg.
Qed.

Lemma is_chain_next st l p q :
  is_chain st l -> p ∈ l -> mNext (opage st p) = Some q -> q ∈ l.
Proof.
  intros (_ & _ & H) Hp Hq. apply list_elem_of_lookup in Hp as [i Hi].
  destruct (H i p Hi) as (pg & Hpg & Hn).
  rewrite (opage_lookup _ _ _ Hpg) in Hq. rewrite Hq in Hn.
  apply list_elem_of_lookup. eauto.
Qed.

Lemma is_chain_first st l : is_chain st l -> first_page ∈ l.
Proof. intros (_ & H & _). apply list_elem_of_lookup. eauto. Qed.

Lemma pages_step_chain l st st' :
  is_chain st l -> pages_step l st st' ->
  (forall p, p ∈ l -> mNext (opage st' p) = mNext (opage st p)) ->
  is_chain st' l.
Proof.
  intros (Hnd & H0 & H) Hstep Hnext. split_and!; [assumption|assumption|].
  intros i p Hi. destruct (H i p Hi) as (pg & Hpg & Hn).
  assert (Hp : p ∈ l) by (apply list_elem_of_lookup; eauto).
  destruct (Hstep p Hp) as (pg' & Hpg' & _).
  exists pg'. split; [assumption|].
  rewrite <- (opage_lookup _ _ _ Hpg'), (Hnext p Hp), (opage_lookup _ _ _ Hpg).
  exact Hn.
Qed.

Lemma pages_step_le l st st' p :
  pages_step l st st' -> p ∈ l -> page_le (opage st p) (opage st' p).
Proof.
  intros Hstep Hp. destruct (Hstep p Hp) as (pg' & Hpg' & Hle & _).
  rewrite (opage_lookup _ _ _ Hpg'). exact Hle.
Qed.

Lemma adv_in st l a b :
  is_chain st l -> adv st a b -> lp_page a ∈ l -> lp_page b ∈ l.
Proof.
  intros Hc Hadv Ha. destruct Hadv as [p o s Hs|p o q P Ho HP Hn]; simpl in *.
  - exact Ha.
  - eapply is_chain_next; eassumption.
Qed.

Lemma adv_mono l st st' a b :
  pages_step l st st' -> adv st a b -> lp_page a ∈ l -> adv st' a b.
Proof.
  intros Hstep Hadv Ha.
  destruct Hadv as [p o s Hs|p o q P Ho HP Hn]; simpl in *;
    pose proof (pages_step_le l st st' p Hstep Ha) as (_ & Hoff & Hnext & _ & Hse).
  - constructor. apply Hse. exact Hs.
  - econstructor; [|exact HP|apply Hnext; exact Hn].
    rewrite Hoff; [exact Ho|]. rewrite Ho, land1. lia.
Qed.

Lemma reach_in st l a b :
  is_chain st l -> reach st a b -> lp_page a ∈ l -> lp_page b ∈ l.
Proof.
  intros Hc H. induction H as [|a a1 b Hadv _ IH]; [auto|].
  intros Ha. apply IH. eapply adv_in; eassumption.
Qed.

Lemma reach_mono l st st' a b :
  is_chain st l -> pages_step l st st' ->
  reach st a b -> lp_page a ∈ l -> reach st' a b.
Proof.
  intros Hc Hstep H. induction H as [|a a1 b Hadv _ IH]; intros Ha.
  - apply rtc_refl.
  - eapply rtc_l; [eapply adv_mono; eassumption|].
    apply IH. eapply adv_in; eassumption.
Qed.

Lemma good_in st l x : is_chain st l -> good st x -> lp_page x ∈ l.
Proof.
  intros Hc H. eapply reach_in; [eassumption|exact H|].
  simpl. eapply is_chain_first; eassumption.
Qed.

Lemma good_mono l st st' x :
  is_chain st l -> pages_step l st st' -> good st x -> good st' x.
Proof.
  intros Hc Hstep H. eapply reach_mono; [eassumption|eassumption|exact H|].
  simpl. eapply is_chain_first; eassumption.
Qed.

Lemma published_mono l st st' e :
  pages_step l st st' -> lp_page e ∈ l -> published st e -> published st' e.
Proof.
  intros Hstep He (s & Ha & Hp).
  pose proof (pages_step_le l st st' _ Hstep He) as (Hoff & _ & _ & Hacq & _).
  exists s. split; [apply Hacq; exact Ha|lia].
Qed.

(** A cursor the sealed head may take lies on an aligned position
    inside the used bytes of a page of the chain. *)
Lemma good_bounds st l x :
  layout_ok -> is_chain st l ->
  (forall p, p ∈ l -> page_ok (opage st p) /\ page_chained (opage st p)) ->
  good st x ->
  lp_page x ∈ l /\ 0 <= lp_offset x <= page_offset (opage st (lp_page x)) /\
  lp_offset x mod 16 = 0.
Proof.
  intros HL Hc Hpages H. unfold good, reach in H. revert x H.
  apply (rtc_ind_r (fun x =>
    lp_page x ∈ l /\ 0 <= lp_offset x <= page_offset (opage st (lp_page x)) /\
    lp_offset x mod 16 = 0)).
  - simpl. pose proof (is_chain_first _ _ Hc) as Hf.
    destruct (Hpages _ Hf) as [[(P & HP1 & HP2 & HP3) _] _].
    rewrite page_offset_div. split_and!; auto; lia.
  - intros a b Hreach Hadv (Ha & Hb1 & Hb2).
    destruct Hadv as [p o s Hs|p o q P Ho HP Hn]; simpl in *.
    + destruct (Hpages _ Ha) as [Hok (_ & _ & H3)].
      pose proof (H3 o s Hs) as Hpub.
      pose proof (entrySizeFromSize_mod16 s).
      destruct Hs as [Hs _]. destruct HL as (HL & _).
      pose proof (entrySizeFromSize_pos s HL ltac:(lia)).
      split_and!; auto; lia.
    + pose proof (is_chain_next _ _ _ _ Hc Ha Hn) as Hq.
      destruct (Hpages _ Hq) as [[(P' & HP1 & HP2 & HP3) _] _].
      rewrite page_offset_div. split_and!; auto; lia.
Qed.


(** *** Steps of the log and what threads know *)

Lemma pages_step_refl l st :
  is_chain st l -> pages_good st l -> pages_step l st st.
Proof.
  intros Hc Hpages p Hp. exists (opage st p).
  destruct (Hpages p Hp). split_and!; auto using page_le_refl.
  eapply is_chain_lookup; eassumption.
Qed.

Lemma pages_step_same l st st' st'' :
  pages_step l st st' -> oPages st'' = oPages st' -> pages_step l st st''.
Proof. intros H He p Hp. rewrite He. exact (H p Hp). Qed.

Lemma pages_step_set l st p pg' :
  is_chain st l -> pages_good st l ->
  page_le (opage st p) pg' -> page_ok pg' -> page_chained pg' ->
  pages_step l st (set_page st p pg').
Proof.
  intros Hc Hpages Hle Hok Hch q Hq. simpl.
  destruct (decide (p = q)) as [<-|Hne].
  - exists pg'. rewrite lookup_insert_eq. auto.
  - exists (opage st q). rewrite lookup_insert_ne by assumption.
    destruct (Hpages q Hq). split_and!; auto using page_le_refl.
    eapply is_chain_lookup; eassumption.
Qed.

Lemma pages_step_free l st n :
  is_chain st l -> pages_good st l -> n ∉ l ->
  pages_step l st (freeEmptyPageNow st n).
Proof.
  intros Hc Hpages Hn q Hq. simpl. exists (opage st q).
  rewrite lookup_delete_ne by (intros ->; contradiction).
  destruct (Hpages q Hq). split_and!; auto using page_le_refl.
  eapply is_chain_lookup; eassumption.
Qed.

Lemma pages_good_step l st st' :
  pages_step l st st' -> pages_good st' l.
Proof.
  intros H p Hp. destruct (H p Hp) as (pg' & Hpg' & _ & Hok & Hch).
  rewrite (opage_lookup _ _ _ Hpg'). auto.
Qed.

Lemma not_in_chain st l n : is_chain st l -> oPages st !! n = None -> n ∉ l.
Proof.
  intros Hc Hn Hin. rewrite (is_chain_lookup _ _ _ Hc Hin) in Hn. discriminate.
Qed.

Lemma cont_ok_grow l l' k :
  (forall p, p ∈ l -> p ∈ l') -> cont_ok l k -> cont_ok l' k.
Proof. intros Hsub. destruct k; simpl; [|auto]. intros [? ?]. auto. Qed.

Lemma thread_ok_grow st l l' t :
  (forall p, p ∈ l -> p ∈ l') ->
  (forall n, npage t = Some n -> n ∉ l') ->
  thread_ok st l t -> thread_ok st l' t.
Proof.
  intros Hsub Hn.
  destruct t; simpl in *; unfold adv_ok in *;
    intuition (eauto using cont_ok_grow).
Qed.

Lemma thread_ok_stable l st st' t :
  is_chain st l -> pages_step l st st' ->
  (forall n pg, npage t = Some n -> oPages st !! n = Some pg ->
     oPages st' !! n = Some pg) ->
  thread_ok st l t -> thread_ok st' l t.
Proof.
  intros Hc Hstep Hframe.
  assert (Hadv : forall k old cur,
    adv_ok st l k old cur ->
    adv_ok st' l k old cur /\ lp_page cur ∈ l).
  { intros k old cur (Hk & Hg & Hr).
    pose proof (good_in _ _ _ Hc Hg) as Hold. split.
    - split_and!; [assumption|eapply good_mono; eassumption|].
      eapply reach_mono; eassumption.
    - eapply reach_in; eassumption. }
  destruct t; simpl; try tauto.
  - (* TAppend *)
    intros (Hs & Hh & Hpc & Hpcc & Hr).
    pose proof (pages_step_le _ _ _ _ Hstep Hh) as Hle.
    split_and!; auto.
    + eapply append_pc_ok_stable; eassumption.
    + eapply append_pc_chained_stable; eassumption.
  - intros (? & ? & ? & ?). split_and!; eauto.
  - intros (? & ? & ? & ?). split_and!; eauto.
  - intros (? & ? & ? & ?). split_and!; auto. eapply good_mono; eassumption.
  - intros (? & ?). split; [assumption|]. eapply published_mono; eassumption.
  - intros (Ha & ?). destruct (Hadv _ _ _ Ha). auto.
  - intros (Ha & ?). destruct (Hadv _ _ _ Ha). auto.
  - intros (Ha & ? & P & HP & ?). destruct (Hadv _ _ _ Ha) as [? Hcur].
    split_and!; auto. exists P. split; [|assumption].
    pose proof (pages_step_le _ _ _ _ Hstep Hcur) as (_ & Hoff & _).
    rewrite Hoff; [assumption|]. rewrite HP, land1. lia.
  - intros (Ha & ?). destruct (Hadv _ _ _ Ha). auto.
Qed.


Lemma appendEntry_step_next size entrySize type pg pc :
  mNext (appendEntry_step size entrySize type pg pc).1 = mNext pg.
Proof.
  destruct pc as [|off pos|off pos|off pos|r]; simpl.
  - destruct (_ =? _); reflexivity.
  - destruct (_ >? _); [reflexivity|].
    destruct (tryAcquire_cas _ _) as [[e res] [|]]; [reflexivity|].
    destruct (negb _); reflexivity.
  - reflexivity.
  - destruct (_ <? _); [|reflexivity].
    destruct (compare_exchange_strong _ _ _) as [[cur [|]] o]; [reflexivity|].
    destruct (_ =? _); [|reflexivity]. destruct (_ >=? _); reflexivity.
  - reflexivity.
Qed.

Lemma set_next_ok pg n :
  page_ok pg -> page_chained pg -> mNext pg = None ->
  page_ok (set_next pg n) /\ page_chained (set_next pg n) /\
  page_le pg (set_next pg n).
Proof.
  intros Hok Hch Hn. split_and!.
  - exact Hok.
  - destruct Hch as (H1 & H2 & H3). split_and!.
    + clear - H1. change (page_offset (set_next pg n)) with (page_offset pg).
      induction H1; econstructor; eauto.
    + intros o s Ha. specialize (H2 o s Ha). clear - H2.
      induction H2; econstructor; eauto.
    + exact H3.
  - unfold page_le. split_and!; auto.
    + change (page_offset (set_next pg n)) with (page_offset pg). lia.
    + intros q Hq. congruence.
Qed.

Lemma has_room_spec o :
  layout_ok -> has_room o = true <-> o <= MAX_ENTRY_SIZE - LOG_ENTRY_SIZE.
Proof.
  intros (HL & HH & HH8 & HP & HP30). unfold has_room.
  rewrite u32_small by (unfold MAX_ENTRY_SIZE; lia).
  destruct (Z.leb_spec o (MAX_ENTRY_SIZE - LOG_ENTRY_SIZE)); split; auto;
    try discriminate; lia.
Qed.

Lemma adv_return_ok st l k : cont_ok l k -> thread_ok st l (adv_return k).
Proof.
  destruct k as [size type n|]; simpl; [|auto].
  intros [Hs Hn]. split_and!; auto; discriminate.
Qed.

Lemma append_return_ok st l size type h :
  size_ok size -> h ∈ l ->
  thread_ok st l (append_return size type (Some h)).
Proof. intros Hs Hh. simpl. split_and!; auto; discriminate. Qed.

Lemma adv_start_ok st l k old :
  cont_ok l k -> good st old -> thread_ok st l (adv_start k old).
Proof.
  intros Hk Hg. unfold adv_start.
  destruct (has_room (lp_offset old)) eqn:Hr; simpl; unfold adv_ok.
  - split_and!; auto. apply rtc_refl.
  - split_and!; auto; [apply rtc_refl|]. intros H. congruence.
Qed.

(** A header read as sealed with a size is that of a sealed entry. *)
Lemma read_sealed pg o s :
  page_ok pg -> sizeAndSealed (entry_at pg o) = (s, true) -> s <> 0 ->
  sealed_entry pg o s.
Proof.
  intros [_ He]. unfold sizeAndSealed. rewrite land1, shiftr1.
  intros [= Hs Hsealed] Hn. apply Z.eqb_eq in Hsealed.
  destruct (He o) as [H0|(s' & [Hs1 Hs2] & _)].
  - lia.
  - split; lia.
Qed.

Lemma adv_loop_ok st l k old cur size sealed :
  layout_ok -> is_chain st l -> pages_good st l ->
  adv_ok st l k old cur ->
  sizeAndSealed (entry_at (opage st (lp_page cur)) (lp_offset cur))
  = (size, sealed) ->
  thread_ok st l (adv_loop k size sealed old cur (Some cur)).
Proof.
  intros HL Hc Hpages (Hk & Hg & Hr) Hread. unfold adv_loop.
  assert (Hgc : good st cur) by (eapply rtc_trans; eassumption).
  destruct (good_bounds _ _ _ HL Hc Hpages Hgc) as (Hin & Hb & H16).
  destruct (Hpages _ Hin) as [Hok (_ & _ & H3)].
  destruct sealed; [|simpl; unfold adv_ok, room_ok; split_and!; auto].
  destruct (Z.eqb_spec size 0) as [H0|Hn];
    [simpl; unfold adv_ok, room_ok; split_and!; auto|].
  pose proof (read_sealed _ _ _ Hok Hread Hn) as Hse.
  pose proof (H3 _ _ Hse) as Hpub.
  assert (Hu : u32 (lp_offset cur + entrySizeFromSize size)
               = lp_offset cur + entrySizeFromSize size).
  { destruct HL as (HL & HH & HH8 & HP & HP30). destruct Hse as [Hs _].
    pose proof (entrySizeFromSize_pos size HL ltac:(lia)).
    destruct Hok as [(P & HP1 & HP2 & HP3) _].
    rewrite page_offset_div in *. unfold MAX_ENTRY_SIZE in *.
    apply u32_small. lia. }
  rewrite Hu.
  assert (Hr' : reach st old
            (mkLogPosition (lp_page cur)
                           (lp_offset cur + entrySizeFromSize size))).
  { eapply rtc_r; [exact Hr|]. destruct cur as [p o]. simpl in *.
    constructor. exact Hse. }
  destruct (has_room _) eqn:Hroom; simpl; unfold adv_ok, room_ok.
  - split_and!; auto.
  - split_and!; auto. simpl in *. intros H. congruence.
Qed.


Lemma step_post_intro l st t st' t' h :
  is_chain st l -> pages_step l st st' ->
  (forall p, p ∈ l -> mNext (opage st' p) = mNext (opage st p)) ->
  mHead st' ∈ l ->
  good st (mSealedHead st) ->
  good st (mSealedHead st') -> reach st (mSealedHead st) (mSealedHead st') ->
  (forall e, h = Some e -> lp_page e ∈ l /\ published st' e) ->
  thread_ok st' l t' ->
  (forall n pg, oPages st !! n = Some pg -> n ∉ l -> npage t <> Some n ->
     oPages st' !! n = Some pg) ->
  (forall n, npage t' = Some n -> npage t = Some n \/ oPages st !! n = None) ->
  step_post l st t l (st', t', h).
Proof.
  intros Hc Hstep Hnext Hhead Hg Hg' Hr Hh Ht Hframe Hn.
  unfold step_post. simpl. split_and!; auto.
  - eapply pages_step_chain; eassumption.
  - eapply pages_good_step; eassumption.
  - eapply good_mono; eassumption.
  - eapply reach_mono; try eassumption. eapply good_in; eassumption.
Qed.

Lemma step_post_id l st t t' :
  is_chain st l -> pages_good st l -> mHead st ∈ l ->
  good st (mSealedHead st) ->
  thread_ok st l t' ->
  (forall n, npage t' = Some n -> npage t = Some n) ->
  step_post l st t l (st, t', None).
Proof.
  intros Hc Hpages Hhead Hg Ht Hn.
  apply step_post_intro; auto.
  - apply pages_step_refl; assumption.
  - apply rtc_refl.
  - discriminate.
Qed.

Lemma step_post_page l st t p pg' t' h :
  is_chain st l -> pages_good st l -> mHead st ∈ l ->
  good st (mSealedHead st) ->
  p ∈ l -> page_le (opage st p) pg' -> page_ok pg' -> page_chained pg' ->
  mNext pg' = mNext (opage st p) ->
  (forall e, h = Some e -> lp_page e ∈ l /\ published (set_page st p pg') e) ->
  thread_ok (set_page st p pg') l t' ->
  npage t' = None ->
  step_post l st t l (set_page st p pg', t', h).
Proof.
  intros Hc Hpages Hhead Hg Hp Hle Hok Hch Hnext Hh Ht Hn.
  apply step_post_intro; auto.
  - apply pages_step_set; assumption.
  - intros q Hq. rewrite opage_set_page.
    destruct (decide (p = q)) as [<-|]; auto.
  - apply rtc_refl.
  - intros n pg Hpg Hnl _. simpl. rewrite lookup_insert_ne; [assumption|].
    intros ->. contradiction.
  - intros n Hn'. congruence.
Qed.

Lemma step_post_head l st t x t' :
  is_chain st l -> pages_good st l -> good st (mSealedHead st) ->
  x ∈ l -> thread_ok st l t' -> npage t' = None ->
  step_post l st t l (set_head st x, t', None).
Proof.
  intros Hc Hpages Hg Hx Ht Hn.
  assert (Hstep : pages_step l st (set_head st x)).
  { eapply pages_step_same; [apply pages_step_refl; eassumption|reflexivity]. }
  apply step_post_intro; auto.
  - apply rtc_refl.
  - discriminate.
  - eapply thread_ok_stable; try eassumption. auto.
  - intros n Hn'. congruence.
Qed.

Lemma step_post_sealed l st t cur t' :
  is_chain st l -> pages_good st l -> mHead st ∈ l ->
  good st (mSealedHead st) -> reach st (mSealedHead st) cur ->
  thread_ok st l t' -> npage t' = None ->
  step_post l st t l (set_sealed st cur, t', None).
Proof.
  intros Hc Hpages Hhead Hg Hr Ht Hn.
  assert (Hstep : pages_step l st (set_sealed st cur)).
  { eapply pages_step_same; [apply pages_step_refl; eassumption|reflexivity]. }
  apply step_post_intro; auto.
  - simpl. eapply rtc_trans; eassumption.
  - discriminate.
  - eapply thread_ok_stable; try eassumption. auto.
  - intros n Hn'. congruence.
Qed.


Lemma step_post_link l st t size type oldHead n :
  is_chain st l -> pages_good st l -> mHead st ∈ l ->
  good st (mSealedHead st) -> size_ok size ->
  oldHead ∈ l -> n ∉ l -> oPages st !! n = Some fresh_page ->
  mNext (opage st oldHead) = None ->
  npage t = Some n ->
  layout_ok ->
  step_post l st t (l ++ [n])
    (set_page st oldHead (set_next (opage st oldHead) (Some n)),
     TCreateHead2 size type oldHead n, None).
Proof.
  intros Hc Hpages Hhead Hg Hs Hold Hn Hfresh Hnone Hnp HL.
  destruct (Hpages _ Hold) as [Hok Hch].
  destruct (set_next_ok _ (Some n) Hok Hch Hnone) as (Hok' & Hch' & Hle).
  set (st' := set_page st oldHead (set_next (opage st oldHead) (Some n))).
  assert (Hstep : pages_step l st st').
  { apply pages_step_set; assumption. }
  assert (Hne : oldHead <> n) by (intros ->; contradiction).
  unfold step_post. cbn [fst snd]. fold st'. split_and!.
  - (* the chain grows by the new page *)
    destruct Hc as (Hnd & H0 & Hlinks). split_and!.
    + apply NoDup_app. split_and!; [assumption| |apply NoDup_singleton].
      intros x Hx Hx'. apply list_elem_of_singleton in Hx'. subst. contradiction.
    + rewrite lookup_app_l; [assumption|].
      apply lookup_lt_Some in H0. exact H0.
    + intros i p Hi.
      assert (Hlast : forall j, l !! j = Some oldHead -> S j = length l).
      { intros j Hj. destruct (Hlinks j _ Hj) as (pg & Hpg & Hnx).
        rewrite (opage_lookup _ _ _ Hpg) in Hnone. rewrite Hnone in Hnx.
        symmetry in Hnx. apply lookup_ge_None in Hnx.
        apply lookup_lt_Some in Hj. lia. }
      destruct (decide (i < length l)%nat) as [Hlt|Hge].
      * rewrite lookup_app_l in Hi by assumption.
        destruct (Hlinks i p Hi) as (pg & Hpg & Hnx).
        destruct (decide (p = oldHead)) as [->|Hp].
        -- eexists. simpl. rewrite lookup_insert_eq. split; [reflexivity|].
           simpl. rewrite (Hlast i Hi).
           rewrite lookup_app_r by lia. rewrite Nat.sub_diag. reflexivity.
        -- exists pg. simpl. rewrite lookup_insert_ne by congruence.
           split; [assumption|]. rewrite Hnx.
           destruct (l !! S i) as [q|] eqn:Hq.
           ++ rewrite lookup_app_l; [auto|]. apply lookup_lt_Some in Hq. exact Hq.
           ++ exfalso. apply lookup_ge_None in Hq.
              apply list_elem_of_lookup in Hold as [j Hj].
              pose proof (Hlast j Hj). apply Hp.
              assert (i = j) by lia. subst. congruence.
      * rewrite lookup_app_r in Hi by lia.
        destruct (i - length l)%nat as [|k] eqn:Hk; simpl in Hi;
          [|rewrite lookup_nil in Hi; discriminate].
        injection Hi as <-. exists fresh_page. simpl.
        rewrite lookup_insert_ne by assumption. split; [assumption|].
        simpl. symmetry. apply lookup_ge_None. rewrite length_app. simpl. lia.
  - intros p Hp. apply elem_of_app. auto.
  - exact Hstep.
  - intros p Hp. apply elem_of_app in Hp as [Hp|Hp].
    + eapply pages_good_step; eassumption.
    + apply list_elem_of_singleton in Hp. subst p.
      unfold st'. rewrite opage_set_page, decide_False by assumption.
      rewrite (opage_lookup _ _ _ Hfresh).
      split; [apply fresh_page_ok; assumption|apply fresh_page_chained].
  - apply elem_of_app. auto.
  - eapply good_mono; eassumption.
  - apply rtc_refl.
  - discriminate.
  - simpl. split; [exact Hs|].
    split; apply elem_of_app;
      [left; assumption|right; apply list_elem_of_singleton; reflexivity].
  - intros m pg Hpg Hm Hmn. split.
    + unfold st'. simpl.
      rewrite lookup_insert_ne; [assumption|]. intros ->. contradiction.
    + intros Hin. apply elem_of_app in Hin as [?|Hin]; [contradiction|].
      apply list_elem_of_singleton in Hin. subst. congruence.
  - discriminate.
Qed.


Lemma step_post_alloc l st t size type oldHead n :
  is_chain st l -> pages_good st l -> mHead st ∈ l ->
  good st (mSealedHead st) -> size_ok size -> oldHead ∈ l ->
  oPages st !! n = None ->
  step_post l st t l
    (set_page st n fresh_page, TCreateLink size type oldHead n, None).
Proof.
  intros Hc Hpages Hhead Hg Hs Hold Hn.
  pose proof (not_in_chain _ _ _ Hc Hn) as Hnl.
  assert (Hstep : pages_step l st (set_page st n fresh_page)).
  { intros q Hq. simpl. exists (opage st q).
    rewrite lookup_insert_ne by (intros ->; contradiction).
    destruct (Hpages q Hq). split_and!; auto using page_le_refl.
    eapply is_chain_lookup; eassumption. }
  apply step_post_intro; auto.
  - intros q Hq. rewrite opage_set_page, decide_False; [reflexivity|].
    intros ->. contradiction.
  - apply rtc_refl.
  - discriminate.
  - simpl. split_and!; auto. apply lookup_insert_eq.
  - intros m pg Hpg _ _. simpl. rewrite lookup_insert_ne; [assumption|].
    intros ->. congruence.
  - simpl. intros m [= <-]. auto.
Qed.

Lemma step_post_free l st size type n next :
  is_chain st l -> pages_good st l -> mHead st ∈ l ->
  good st (mSealedHead st) -> size_ok size -> next ∈ l -> n ∉ l ->
  step_post l st (TCreateFree size type n next) l
    (freeEmptyPageNow st n, append_return size type (Some next), None).
Proof.
  intros Hc Hpages Hhead Hg Hs Hnext Hn.
  assert (Hstep : pages_step l st (freeEmptyPageNow st n)).
  { apply pages_step_free; assumption. }
  apply step_post_intro; auto.
  - intros q Hq. unfold opage. simpl.
    rewrite lookup_delete_ne; [reflexivity|]. intros ->. contradiction.
  - apply rtc_refl.
  - discriminate.
  - apply append_return_ok; assumption.
  - intros m pg Hpg _ Hm. simpl. rewrite lookup_delete_ne; [assumption|].
    simpl in Hm. congruence.
  - discriminate.
Qed.

(** One step of a thread keeps what the log and the thread rely on. *)
Lemma thread_step_post alloc l st t :
  layout_ok -> is_chain st l -> pages_good st l -> mHead st ∈ l ->
  good st (mSealedHead st) -> thread_ok st l t ->
  exists l', step_post l st t l' (thread_step alloc st t).
Proof.
  intros HL Hc Hpages Hhead Hg Ht.
  assert (Hid : forall t', thread_ok st l t' ->
                (forall n, npage t' = Some n -> npage t = Some n) ->
                exists l', step_post l st t l' (st, t', None)).
  { intros t' Ht' Hn. exists l. apply step_post_id; assumption. }
  pose proof (fun p => is_chain_lookup st l p Hc) as Hlook.
  destruct t; simpl in Ht.
  - (* TIdle *) apply Hid; simpl; auto.
  - contradiction.
  - (* TAppendHead *)
    apply Hid; [|discriminate]. simpl. split_and!; auto; discriminate.
  - (* TAppend *)
    destruct Ht as (Hs & Hh & Hpc & Hpcc & Hnr).
    destruct (Hpages _ Hh) as [Hok Hch].
    simpl. unfold with_page. rewrite (Hlook _ Hh).
    pose proof (appendEntry_step_ok size type _ pc HL Hok Hs Hpc)
      as (Hok' & Hpc' & Hle).
    pose proof (appendEntry_step_chained size type _ pc HL Hok Hch Hs Hpc Hpcc)
      as (Hch' & Hpcc').
    pose proof (appendEntry_step_next size (entrySizeFromSize size) type
                  (opage st head) pc) as Hnx.
    destruct (appendEntry_step size (entrySizeFromSize size) type
                (opage st head) pc) as [pg' pc'].
    simpl in *. exists l.
    assert (Hop : opage (set_page st head pg') head = pg').
    { rewrite opage_set_page, decide_True; reflexivity. }
    destruct pc' as [|off pos|off pos|off pos|[pos|]];
      apply step_post_page; auto; try discriminate;
      try (cbn [thread_ok]; rewrite Hop;
           split; [assumption|]; split; [assumption|]; split; [assumption|];
           split; [assumption|intros r; discriminate]).
    + intros e [= <-]. simpl. split; [assumption|].
      exists size. simpl. rewrite Hop. exact Hpc'.
    + simpl. auto.
  - (* TCreateNext *)
    destruct Ht as (Hs & Hh).
    simpl. unfold with_page. rewrite (Hlook _ Hh).
    destruct (mNext (opage st oldHead)) as [next|] eqn:Hn;
      (apply Hid; [|discriminate]); simpl; split_and!; auto.
    eapply is_chain_next; eassumption.
  - (* TCreateHead1 *)
    destruct Ht as (Hs & Hn). simpl.
    destruct (decide (mHead st = oldHead)).
    + exists l. apply step_post_head; auto.
      apply append_return_ok; assumption.
    + apply Hid; [|discriminate]. apply append_return_ok; assumption.
  - (* TCreateSeal *)
    destruct Ht as (Hs & Hh). destruct (Hpages _ Hh) as [Hok Hch].
    simpl. unfold with_page. rewrite (Hlook _ Hh). exists l.
    destruct (seal_page_ok _ Hok) as [Hok' Hle].
    apply step_post_page; auto; try discriminate.
    + apply seal_page_chained. assumption.
    + simpl. auto.
  - (* TCreateAcquire *)
    destruct Ht as (Hs & Hh). simpl. unfold acquirePage.
    destruct alloc as [n|]; [|apply Hid; simpl; auto; discriminate].
    destruct (oPages st !! n) eqn:Hn; [apply Hid; simpl; auto; discriminate|].
    exists l. apply step_post_alloc; assumption.
  - (* TCreateLink *)
    destruct Ht as (Hs & Hh & Hn & Hfresh).
    simpl. unfold with_page. rewrite (Hlook _ Hh).
    destruct (mNext (opage st oldHead)) as [next|] eqn:Hnx.
    + apply Hid; [|auto]. simpl. split_and!; auto.
      eapply is_chain_next; eassumption.
    + exists (l ++ [nPage]). apply step_post_link; auto.
  - (* TCreateFree *)
    destruct Ht as (Hs & Hnx & Hn & Hfresh). simpl.
    exists l. apply step_post_free; assumption.
  - (* TCreateHead2 *)
    destruct Ht as (Hs & Hh & Hn). simpl.
    destruct (decide (mHead st = oldHead)).
    + exists l. apply step_post_head; simpl; auto.
    + apply Hid; [|discriminate]. simpl. auto.
  - (* TCreateSealed *)
    destruct Ht as (Hs & Hh & Hn). simpl.
    destruct (decide (lp_page (mSealedHead st) = oldHead));
      (apply Hid; [|discriminate]).
    + simpl. auto.
    + apply append_return_ok; assumption.
  - (* TCreateOffset *)
    destruct Ht as (Hs & Hh & Hn & Hgs).
    simpl. unfold with_page. rewrite (Hlook _ Hh).
    destruct (_ =? _).
    + apply Hid.
      * apply adv_start_ok; simpl; auto.
      * unfold adv_start. destruct (has_room _); discriminate.
    + apply Hid; [|discriminate]. apply append_return_ok; assumption.
  - (* TSealEntry *)
    destruct Ht as (Hh & s & Ha & Hpub). destruct (Hpages _ Hh) as [Hok Hch].
    simpl. unfold with_page. rewrite (Hlook _ Hh). exists l.
    destruct (seal_entry_ok _ (lp_offset entry) Hok) as [Hok' Hle].
    apply step_post_page; auto; try discriminate.
    + eapply seal_entry_chained; eassumption.
    + simpl. auto.
  - (* TSealLoad *)
    simpl. destruct (decide (mSealedHead st = entry)).
    + apply Hid.
      * apply adv_start_ok; simpl; auto.
      * unfold adv_start. destruct (has_room _); discriminate.
    + apply Hid; simpl; auto; discriminate.
  - (* TAdvRead *)
    destruct Ht as (Ha & ->). unfold thread_step, with_page. cbv beta iota.
    assert (Hin : lp_page sealedHead ∈ l).
    { destruct Ha as (_ & Hgo & Hr).
      eapply reach_in; [eassumption|exact Hr|].
      eapply good_in; eassumption. }
    rewrite (Hlook _ Hin).
    destruct (sizeAndSealed (entry_at (opage st (lp_page sealedHead))
                                      (lp_offset sealedHead)))
      as [size sealed] eqn:Hread.
    pose proof (adv_loop_ok _ _ _ _ _ _ _ HL Hc Hpages Ha Hread) as Hloop.
    assert (Hnl : forall n, npage (adv_loop k size sealed oldSealedHead
                     sealedHead (Some sealedHead)) = Some n -> npage
                     (TAdvRead k m oldSealedHead sealedHead (Some sealedHead))
                     = Some n).
    { unfold adv_loop. intros n.
      destruct sealed; [|discriminate]. destruct (size =? 0); [discriminate|].
      destruct (has_room _); discriminate. }
    assert (Hret : thread_ok st l (adv_return k)).
    { apply adv_return_ok. apply Ha. }
    assert (Hnr : forall n, npage (adv_return k) = Some n -> npage
                     (TAdvRead k m oldSealedHead sealedHead (Some sealedHead))
                     = Some n).
    { destruct k; discriminate. }
    destruct m.
    + apply Hid; assumption.
    + destruct (size =? 0).
      * apply Hid; [|discriminate]. simpl. split; [assumption|].
        intros _. reflexivity.
      * destruct sealed; simpl; apply Hid; assumption.
    + destruct sealed; simpl; apply Hid; assumption.
  - (* TAdvPage *)
    destruct Ht as (Ha & Hroom). simpl. unfold with_page.
    assert (Hgc : good st sealedHead).
    { destruct Ha as (_ & Hgo & Hr). eapply rtc_trans; eassumption. }
    destruct (good_bounds _ _ _ HL Hc Hpages Hgc) as (Hin & Hb & H16).
    rewrite (Hlook _ Hin). destruct (Hpages _ Hin) as [Hok _].
    assert (Hret : thread_ok st l (adv_return k)).
    { apply adv_return_ok. apply Ha. }
    unfold offsetAndSealed. rewrite land1, shiftr1.
    destruct (Z.eqb_spec (mOffset (opage st (lp_page sealedHead)) mod 2) 0)
      as [Heven|Hodd]; simpl.
    + destruct (Z.gtb_spec (mOffset (opage st (lp_page sealedHead)) / 2)
                  (lp_offset sealedHead)) as [Hgt|Hle].
      * (* an append came in: the entry at the cursor is read again *)
        assert (Hr : has_room (lp_offset sealedHead) = true).
        { apply has_room_spec; [assumption|].
          destruct Hok as [(P & HP1 & HP2 & HP3) _].
          destruct HL as (HLE & _). lia. }
        apply Hid; [|discriminate]. simpl. split; [assumption|]. auto.
      * apply Hid; [|discriminate]. simpl. split_and!; auto.
        exists (mOffset (opage st (lp_page sealedHead)) / 2). split; lia.
    + destruct outer; apply Hid; simpl; auto; try discriminate.
      destruct k; discriminate.
  - (* TAdvNext *)
    destruct Ht as (Ha & Hroom & P & HP & HPle). simpl. unfold with_page.
    assert (Hgc : good st sealedHead).
    { destruct Ha as (_ & Hgo & Hr). eapply rtc_trans; eassumption. }
    pose proof (good_in _ _ _ Hc Hgc) as Hin.
    rewrite (Hlook _ Hin).
    assert (Hret : thread_ok st l (adv_return k)).
    { apply adv_return_ok. apply Ha. }
    destruct (mNext (opage st (lp_page sealedHead))) as [next|] eqn:Hnx.
    + apply Hid; [|discriminate]. simpl. split; [|reflexivity].
      destruct Ha as (Hk & Hgo & Hr). split_and!; auto.
      eapply rtc_r; [exact Hr|]. destruct sealedHead as [p o]. simpl in *.
      econstructor; eassumption.
    + destruct outer; apply Hid; simpl; auto; try discriminate.
      destruct k; discriminate.
  - (* TAdvCas *)
    destruct Ht as (Ha & Hroom). simpl.
    destruct Ha as (Hk & Hgo & Hr).
    assert (Hgc : good st sealedHead) by (eapply rtc_trans; eassumption).
    destruct (decide (mSealedHead st = oldSealedHead)) as [He|Hne].
    + exists l. apply step_post_sealed; auto.
      * rewrite He. exact Hr.
      * destruct (has_room (lp_offset sealedHead)) eqn:Hroom'; simpl;
          unfold adv_ok; split_and!; auto; apply rtc_refl.
      * destruct (has_room _); reflexivity.
    + apply Hid; [apply adv_return_ok; assumption|].
      destruct k; discriminate.
Qed.


(** *** The invariant of the log with its threads *)

Lemma npage_ok st l t n :
  thread_ok st l t -> npage t = Some n ->
  (n ∉ l) /\ oPages st !! n = Some fresh_page.
Proof.
  destruct t; simpl; try discriminate; intros (_ & _ & ? & ?) [= <-]; auto.
Qed.

Lemma log_init_inv : layout_ok -> log_inv [first_page] log_init.
Proof.
  intros HL. unfold log_inv, log_init. simpl. split_and!.
  - split_and!.
    + apply NoDup_singleton.
    + reflexivity.
    + intros [|i] p; simpl; [|rewrite lookup_nil; discriminate].
      intros [= <-]. exists fresh_page. split; [|reflexivity].
      apply lookup_insert_eq.
  - intros p Hp. apply list_elem_of_singleton in Hp. subst.
    unfold opage. simpl. rewrite lookup_insert_eq. simpl.
    split; [apply fresh_page_ok; assumption|apply fresh_page_chained].
  - apply list_elem_of_singleton. reflexivity.
  - apply rtc_refl.
  - intros e He. apply elem_of_nil in He. contradiction.
  - apply Forall_nil. exact I.
  - intros i j ti tj n _ Hi. rewrite lookup_nil in Hi. discriminate.
Qed.

(** Replacing a thread that holds no page, or the page it held. *)
Lemma log_inv_replace l s tid t t' :
  log_inv l s -> sys_threads s !! tid = Some t ->
  thread_ok (sys_log s) l t' ->
  (forall n, npage t' = Some n -> npage t = Some n) ->
  log_inv l (mkLogSys (sys_log s) (<[tid := t']> (sys_threads s))
                      (sys_handed s)).
Proof.
  intros (Hc & Hpages & Hhead & Hg & Hh & Hts & Hd) Htid Ht' Hn.
  unfold log_inv. simpl. split_and!; auto.
  - apply Forall_insert; assumption.
  - intros i j ti tj n Hij Hi Hj Hni Hnj.
    destruct (decide (tid = i)) as [<-|Hti];
      [rewrite list_lookup_insert_eq in Hi by (eapply lookup_lt_Some; eassumption);
       injection Hi as <-
      |rewrite list_lookup_insert_ne in Hi by assumption];
    (destruct (decide (tid = j)) as [<-|Htj];
      [rewrite list_lookup_insert_eq in Hj by (eapply lookup_lt_Some; eassumption);
       injection Hj as <-
      |rewrite list_lookup_insert_ne in Hj by assumption]).
    + contradiction.
    + eapply (Hd tid j); eauto.
    + eapply (Hd i tid); eauto.
    + eapply (Hd i j); eauto.
Qed.

Lemma log_step_inv l s ev :
  layout_ok -> log_inv l s ->
  exists l', log_inv l' (log_step s ev) /\
    (forall p, p ∈ l -> p ∈ l') /\
    pages_step l (sys_log s) (sys_log (log_step s ev)) /\
    reach (sys_log (log_step s ev)) (mSealedHead (sys_log s))
          (mSealedHead (sys_log (log_step s ev))).
Proof.
  intros HL Hinv. destruct s as [st ts hs].
  assert (Hsame : forall ts' hs', log_inv l (mkLogSys st ts' hs') ->
            exists l', log_inv l' (mkLogSys st ts' hs') /\
              (forall p, p ∈ l -> p ∈ l') /\
              pages_step l st st /\
              reach st (mSealedHead st) (mSealedHead st)).
  { intros ts' hs' Hs'. exists l. split_and!; auto; [|apply rtc_refl].
    destruct Hs' as (Hc & Hpages & _). apply pages_step_refl; assumption. }
  destruct ev as [|tid size type|tid entry|tid alloc]; simpl.
  - (* a new thread *)
    apply Hsame.
    destruct Hinv as (Hc & Hpages & Hhead & Hg & Hh & Hts & Hd).
    unfold log_inv. simpl in *. split_and!; auto.
    + apply Forall_app. split; [assumption|].
      apply Forall_cons. split; [exact I|apply Forall_nil; exact I].
    + intros i j ti tj n Hij Hi Hj Hni Hnj.
      destruct (decide (i < length ts)%nat);
        destruct (decide (j < length ts)%nat).
      * rewrite lookup_app_l in Hi, Hj by assumption. eapply (Hd i j); eauto.
      * rewrite lookup_app_r in Hj by lia.
        destruct (j - length ts)%nat; simpl in Hj;
          [injection Hj as <-; discriminate|rewrite lookup_nil in Hj; discriminate].
      * rewrite lookup_app_r in Hi by lia.
        destruct (i - length ts)%nat; simpl in Hi;
          [injection Hi as <-; discriminate|rewrite lookup_nil in Hi; discriminate].
      * rewrite lookup_app_r in Hi by lia.
        destruct (i - length ts)%nat; simpl in Hi;
          [injection Hi as <-; discriminate|rewrite lookup_nil in Hi; discriminate].
  - (* a call of append *)
    destruct (ts !! tid) as [t|] eqn:Ht; [|apply Hsame; auto].
    destruct t; try (apply Hsame; auto; fail).
    destruct (Z.ltb_spec 0 size); simpl; [|apply Hsame; auto].
    destruct (Z.ltb_spec size (2 ^ 31)); simpl; [|apply Hsame; auto].
    apply Hsame.
    apply (log_inv_replace l (mkLogSys st ts hs) tid TIdle); auto.
    + unfold Log_append. destruct (_ >? _); simpl; [exact I|]. split; assumption.
    + unfold Log_append. intros n. destruct (_ >? _); discriminate.
  - (* a call of seal *)
    destruct (ts !! tid) as [t|] eqn:Ht; [|apply Hsame; auto].
    destruct t; try (apply Hsame; auto; fail).
    destruct (decide (entry ∈ hs)) as [Hin|]; [|apply Hsame; auto].
    apply Hsame.
    apply (log_inv_replace l (mkLogSys st ts hs) tid TIdle); auto;
      try discriminate.
    simpl. destruct Hinv as (_ & _ & _ & _ & Hh & _). apply Hh. exact Hin.
  - (* a step of a thread *)
    destruct (ts !! tid) as [t|] eqn:Ht; [|apply Hsame; auto].
    destruct Hinv as (Hc & Hpages & Hhead & Hg & Hh & Hts & Hd).
    simpl in *.
    pose proof (Forall_lookup_1 _ _ _ _ Hts Ht) as Htok.
    destruct (thread_step_post alloc l st t HL Hc Hpages Hhead Hg Htok)
      as (l' & Hpost).
    destruct (thread_step alloc st t) as [[st' t'] h].
    destruct Hpost as (Hc' & Hsub & Hstep & Hpages' & Hhead' & Hg' & Hr' &
                       Hh' & Ht' & Hframe & Hnew).
    simpl in *. exists l'. split_and!; auto.
    unfold log_inv. simpl. split_and!; auto.
    + intros e He.
      assert (He' : e ∈ hs -> lp_page e ∈ l' /\ published st' e).
      { intros Hin. destruct (Hh e Hin) as [Hp Hpub]. split; [auto|].
        eapply published_mono; eassumption. }
      destruct h as [e0|]; [|auto].
      apply elem_of_cons in He as [->|He]; auto.
    + apply Forall_lookup_2. intros j u Hj.
      destruct (decide (tid = j)) as [<-|Hne].
      * rewrite list_lookup_insert_eq in Hj
          by (eapply lookup_lt_Some; eassumption).
        injection Hj as <-. exact Ht'.
      * rewrite list_lookup_insert_ne in Hj by assumption.
        pose proof (Forall_lookup_1 _ _ _ _ Hts Hj) as Hu.
        eapply thread_ok_grow; [exact Hsub| |].
        -- intros n Hn. destruct (npage_ok _ _ _ _ Hu Hn) as [Hnl Hfresh].
           eapply Hframe; try eassumption.
           intros Htn. eapply (Hd tid j); eauto.
        -- eapply thread_ok_stable; try eassumption.
           intros n pg Hn Hpg. destruct (npage_ok _ _ _ _ Hu Hn) as [Hnl _].
           eapply Hframe; try eassumption.
           intros Htn. eapply (Hd tid j); eauto.
    + (* pages held by threads stay distinct *)
      assert (Hfresh : forall j u n, tid <> j -> ts !! j = Some u ->
                npage u = Some n -> npage t' <> Some n).
      { intros j u n Hne Hj Hn Hn'.
        pose proof (Forall_lookup_1 _ _ _ _ Hts Hj) as Hu.
        destruct (npage_ok _ _ _ _ Hu Hn) as [_ Hpg].
        destruct (Hnew n Hn') as [Htn|Hnone]; [|congruence].
        eapply (Hd tid j); eauto. }
      intros i j ti tj n Hij Hi Hj Hni Hnj.
      destruct (decide (tid = i)) as [<-|Hti];
        [rewrite list_lookup_insert_eq in Hi
           by (eapply lookup_lt_Some; eassumption);
         injection Hi as <-
        |rewrite list_lookup_insert_ne in Hi by assumption];
      (destruct (decide (tid = j)) as [<-|Htj];
        [rewrite list_lookup_insert_eq in Hj
           by (eapply lookup_lt_Some; eassumption);
         injection Hj as <-
        |rewrite list_lookup_insert_ne in Hj by assumption]).
      * contradiction.
      * eapply (Hfresh j tj n); eauto.
      * eapply (Hfresh i ti n); eauto.
      * eapply (Hd i j); eauto.
Qed.

Lemma log_run_inv sched :
  layout_ok -> exists l, log_inv l (log_run sched).
Proof.
  intros HL. unfold log_run.
  assert (H0 : exists l, log_inv l log_init).
  { eexists. apply log_init_inv. assumption. }
  revert H0. generalize log_init.
  induction sched as [|ev sched IH]; intros s Hs; simpl; [assumption|].
  apply IH. destruct Hs as [l Hl].
  destruct (log_step_inv l s ev HL Hl) as (l' & Hl' & _). eauto.
Qed.


(** *** Entries before the sealed head *)

Lemma echain_le pg a b : layout_ok -> echain pg a b -> a <= b.
Proof.
  intros (HL & _) H. induction H as [|b s H IH [Hs _]]; [lia|].
  pose proof (entrySizeFromSize_pos s HL ltac:(lia)). lia.
Qed.

(** Two entries reached from the same start do not overlap. *)
Lemma echain_spaced pg a b :
  layout_ok -> echain pg a b ->
  forall c s, echain pg a c -> acquired pg c s -> c < b ->
    c + entrySizeFromSize s <= b.
Proof.
  intros HL H. induction H as [|b' s' H IH Ha']; intros c s Hc Ha Hlt.
  - pose proof (echain_le _ _ _ HL Hc). lia.
  - pose proof HL as (HL1 & _).
    pose proof Ha' as [Hs' _].
    pose proof (entrySizeFromSize_pos s' HL1 ltac:(lia)) as Hpos'.
    destruct (Z.lt_trichotomy c b') as [Hc1|[->|Hc1]].
    + pose proof (IH c s Hc Ha Hc1). lia.
    + rewrite (acquired_inj _ _ _ _ Ha Ha'). lia.
    + exfalso. clear s Ha. induction Hc as [|c' s'' Hc IHc Ha''].
      * pose proof (echain_le _ _ _ HL H). lia.
      * pose proof Ha'' as [Hs'' _].
        pose proof (entrySizeFromSize_pos s'' HL1 ltac:(lia)) as Hpos''.
        destruct (Z.lt_trichotomy c' b') as [Hc2|[->|Hc2]].
        -- pose proof (IH c' s'' Hc Ha'' Hc2). lia.
        -- rewrite (acquired_inj _ _ _ _ Ha'' Ha') in *. lia.
        -- apply IHc; lia.
Qed.

Lemma entry_between pg c s o sz :
  layout_ok -> page_chained pg ->
  acquired pg c s -> acquired pg o sz -> c < o ->
  c + entrySizeFromSize s <= o.
Proof.
  intros HL (_ & Hall & _) Hc Ho Hlt.
  eapply (echain_spaced pg 0 o); eauto.
Qed.

(** Below a cursor the sealed head may take, every entry of its page is
    sealed, and so is every entry inside the used bytes of an earlier
    page of the chain. *)
Lemma good_sealed st l x :
  layout_ok -> is_chain st l -> pages_good st l -> good st x ->
  (forall o sz, acquired (opage st (lp_page x)) o sz -> o < lp_offset x ->
     sealed_entry (opage st (lp_page x)) o sz) /\
  (forall (i j : nat) p, l !! i = Some p -> l !! j = Some (lp_page x) ->
     (i < j)%nat ->
     forall o sz, acquired (opage st p) o sz ->
       o + entrySizeFromSize sz <= page_offset (opage st p) ->
       sealed_entry (opage st p) o sz).
Proof.
  intros HL Hc Hpages H. unfold good, reach in H. revert x H.
  pose proof Hc as (Hnd & Hfirst & Hlinks).
  apply (rtc_ind_r (fun x =>
    (forall o sz, acquired (opage st (lp_page x)) o sz -> o < lp_offset x ->
       sealed_entry (opage st (lp_page x)) o sz) /\
    (forall (i j : nat) p, l !! i = Some p -> l !! j = Some (lp_page x) ->
       (i < j)%nat ->
       forall o sz, acquired (opage st p) o sz ->
         o + entrySizeFromSize sz <= page_offset (opage st p) ->
         sealed_entry (opage st p) o sz))).
  - simpl. split.
    + intros o sz Ha Hlt.
      destruct (Hpages _ (is_chain_first _ _ Hc)) as [Hok _].
      pose proof (page_ok_acquired _ _ _ Hok Ha). lia.
    + intros i j p Hi Hj Hlt.
      pose proof (NoDup_lookup _ _ _ _ Hnd Hj Hfirst). lia.
  - intros a b Hreach Hadv [IHa IHb].
    destruct (good_bounds st l a HL Hc Hpages Hreach) as (Hin & Hoff & _).
    destruct Hadv as [p c s Hs|p c q P Ho HP Hn]; simpl in *.
    + split; [|exact IHb].
      intros o sz Ha Hlt. destruct (Hpages _ Hin) as [Hok Hch].
      pose proof (sealed_entry_acquired _ _ _ Hs) as Hs'.
      destruct (Z.lt_trichotomy o c) as [Hc1|[->|Hc1]].
      * apply IHa; assumption.
      * rewrite (acquired_inj _ _ _ _ Ha Hs'). exact Hs.
      * pose proof (entry_between _ _ _ _ _ HL Hch Hs' Ha Hc1). lia.
    + pose proof (is_chain_next _ _ _ _ Hc Hin Hn) as Hq. split.
      * intros o sz Ha Hlt. destruct (Hpages _ Hq) as [Hok _].
        pose proof (page_ok_acquired _ _ _ Hok Ha). lia.
      * intros i j p0 Hi Hj Hlt o sz Ha Hpub.
        apply list_elem_of_lookup in Hin as [jp Hjp].
        destruct (Hlinks jp p Hjp) as (pg & Hpg & Hnext).
        rewrite (opage_lookup _ _ _ Hpg) in Hn. rewrite Hn in Hnext.
        symmetry in Hnext.
        pose proof (NoDup_lookup _ _ _ _ Hnd Hj Hnext) as ->.
        destruct (decide (i = jp)) as [->|Hne].
        -- rewrite Hjp in Hi. injection Hi as <-. apply IHa; [exact Ha|].
           pose proof Ha as [Hsz _]. destruct HL as (HL1 & _).
           pose proof (entrySizeFromSize_pos sz HL1 ltac:(lia)).
           rewrite page_offset_div in Hpub. lia.
        -- eapply (IHb i jp p0); eauto. lia.
Qed.

(** The positions the cursor passes keep chain order. *)
Lemma reach_pos_le st l a b :
  layout_ok -> is_chain st l -> pages_good st l ->
  good st a -> reach st a b -> pos_le l a b.
Proof.
  intros HL Hc Hpages Hg H. pose proof Hc as (Hnd & Hfirst & Hlinks).
  induction H as [a|a a1 b Hadv Hreach IH].
  - destruct (good_bounds st l a HL Hc Hpages Hg) as (Hin & _).
    apply list_elem_of_lookup in Hin as [i Hi].
    exists i, i. split_and!; auto. right. split; [reflexivity|lia].
  - assert (Hg1 : good st a1) by (eapply rtc_r; eassumption).
    destruct (IH Hg1) as (i1 & j & Hi1 & Hj & Hord).
    destruct (good_bounds st l a HL Hc Hpages Hg) as (Hin & _).
    apply list_elem_of_lookup in Hin as [i Hi].
    exists i, j. split_and!; auto.
    destruct Hadv as [p c s Hs|p c q P Ho HP Hn]; simpl in *.
    + pose proof (NoDup_lookup _ _ _ _ Hnd Hi Hi1) as ->.
      destruct Hs as [Hs _]. destruct HL as (HL1 & _).
      pose proof (entrySizeFromSize_pos s HL1 ltac:(lia)).
      destruct Hord as [?|[? ?]]; [left; assumption|right; split; [assumption|lia]].
    + destruct (Hlinks i p Hi) as (pg & Hpg & Hnext).
      rewrite (opage_lookup _ _ _ Hpg) in Hn. rewrite Hn in Hnext.
      symmetry in Hnext.
      pose proof (NoDup_lookup _ _ _ _ Hnd Hi1 Hnext) as ->.
      left. lia.
Qed.

(** A step keeps the pages of the chain at their places. *)
Lemma chain_grows st st' l l' :
  is_chain st l -> is_chain st' l' -> pages_step l st st' ->
  forall (i : nat) p, l !! i = Some p -> l' !! i = Some p.
Proof.
  intros (Hnd & Hfirst & Hlinks) (Hnd' & Hfirst' & Hlinks') Hstep.
  induction i as [|i IH]; intros p Hi.
  - rewrite Hfirst in Hi. rewrite Hfirst'. exact Hi.
  - destruct (lookup_lt_is_Some_2 l i) as [p0 Hp0].
    { apply lookup_lt_Some in Hi. lia. }
    destruct (Hlinks i p0 Hp0) as (pg & Hpg & Hnext).
    destruct (Hlinks' i p0 (IH p0 Hp0)) as (pg' & Hpg' & Hnext').
    assert (Hin : p0 ∈ l) by (apply list_elem_of_lookup; eauto).
    pose proof (pages_step_le l st st' p0 Hstep Hin) as (_ & _ & Hn & _).
    rewrite (opage_lookup _ _ _ Hpg), (opage_lookup _ _ _ Hpg') in Hn.
    rewrite <- Hnext'. apply Hn. rewrite Hnext. exact Hi.
Qed.


(** *** The cursor of [advanceSealedHead] *)

Lemma adv_return_cursor k : cursor (adv_return k) = None.
Proof. destruct k; reflexivity. Qed.

Lemma adv_loop_cursor k size sealed old cur ce c' :
  cursor (adv_loop k size sealed old cur ce) = Some c' -> c' <> cur ->
  sealed = true /\ size <> 0 /\
  c' = mkLogPosition (lp_page cur)
         (u32 (lp_offset cur + entrySizeFromSize size)).
Proof.
  unfold adv_loop. destruct sealed; [|simpl; congruence].
  destruct (Z.eqb_spec size 0); [simpl; congruence|].
  destruct (has_room _); simpl; intros [= <-] _; auto.
Qed.

Lemma entries_sealed_before_good st l c :
  layout_ok -> is_chain st l -> pages_good st l -> good st c ->
  entries_sealed_before st l c.
Proof.
  intros HL Hc Hpages Hg p o sz Ha Hused (i & j & Hi & Hj & Hord).
  simpl in *.
  destruct (good_sealed st l c HL Hc Hpages Hg) as [HA HB].
  destruct Hord as [Hlt|[-> Hlt]].
  - eapply HB; eauto.
    assert (Hp : p ∈ l) by (apply list_elem_of_lookup; eauto).
    destruct (Hpages p Hp) as [_ (Hoff & Hall & _)].
    eapply (echain_spaced _ 0 _ HL Hoff); eauto.
  - rewrite Hi in Hj. injection Hj as ->. apply HA; assumption.
Qed.

(** A step of a thread moves its cursor over a sealed entry or to the
    page after a sealed page that is used up to the cursor. *)
Lemma cursor_step alloc l st t c c' :
  layout_ok -> is_chain st l -> pages_good st l -> thread_ok st l t ->
  cursor t = Some c -> cursor (thread_step alloc st t).1.2 = Some c' ->
  c' <> c -> cursor_move st c c'.
Proof.
  intros HL Hc Hpages Ht Hcur Hcur' Hne.
  destruct t as [| | | | | | | | | | | | | | |k m old cur ce|k outer old cur ce
                |k outer old cur ce|k old cur ce];
    simpl in Hcur; try discriminate; injection Hcur as ->.
  - (* the entry under the cursor is read *)
    destruct Ht as [Hadv ->]. pose proof Hadv as (Hk & Hg & Hr).
    assert (Hgc : good st c) by (eapply rtc_trans; eassumption).
    destruct (good_bounds _ _ _ HL Hc Hpages Hgc) as (Hin & Hb & H16).
    destruct (Hpages _ Hin) as [Hok (_ & _ & H3)].
    unfold thread_step, with_page in Hcur'. cbv beta iota in Hcur'.
    rewrite (is_chain_lookup _ _ _ Hc Hin) in Hcur'.
    destruct (sizeAndSealed _) as [size sealed] eqn:Hread.
    assert (Hloop : forall ce, cursor (adv_loop k size sealed old c ce) = Some c' ->
              cursor_move st c c').
    { intros ce Hl. destruct (adv_loop_cursor _ _ _ _ _ _ _ Hl Hne)
        as (-> & Hn & ->).
      pose proof (read_sealed _ _ _ Hok Hread Hn) as Hse.
      pose proof (H3 _ _ Hse) as Hpub.
      left. simpl. split; [reflexivity|]. exists size. split; [exact Hse|].
      destruct HL as (HL & HH & HH8 & HP & HP30). destruct Hse as [Hs _].
      pose proof (entrySizeFromSize_pos size HL ltac:(lia)).
      destruct Hok as [(P & HP1 & HP2 & HP3) _].
      rewrite page_offset_div in *. unfold MAX_ENTRY_SIZE in *.
      apply u32_small. lia. }
    cbn [fst snd] in Hcur'.
    destruct m.
    + eauto.
    + destruct (size =? 0); [simpl in Hcur'; congruence|].
      destruct (negb sealed); [rewrite adv_return_cursor in Hcur'; discriminate|].
      eauto.
    + destruct (negb sealed); [rewrite adv_return_cursor in Hcur'; discriminate|].
      eauto.
  - (* the offset of the page is read *)
    unfold thread_step, with_page in Hcur'.
    destruct (oPages st !! lp_page c); [|discriminate]. simpl in Hcur'.
    destruct (negb _);
      [destruct outer;
       [rewrite adv_return_cursor in Hcur'; discriminate
       |simpl in Hcur'; congruence]|].
    destruct (_ >? _); simpl in Hcur'; congruence.
  - (* the link of the page is read *)
    destruct Ht as (Hadv & _ & P & HP & HPc). pose proof Hadv as (Hk & Hg & Hr).
    assert (Hgc : good st c) by (eapply rtc_trans; eassumption).
    destruct (good_bounds _ _ _ HL Hc Hpages Hgc) as (Hin & Hb & H16).
    unfold thread_step, with_page in Hcur'.
    rewrite (is_chain_lookup _ _ _ Hc Hin) in Hcur'. simpl in Hcur'.
    destruct (mNext (opage st (lp_page c))) as [next|] eqn:Hnext.
    + simpl in Hcur'. injection Hcur' as <-. right. exists next.
      split_and!; auto.
      * rewrite HP. apply land1_even.
      * rewrite page_offset_div in *. lia.
    + destruct outer;
        [rewrite adv_return_cursor in Hcur'; discriminate
        |simpl in Hcur'; congruence].
  - (* the sealed head is set *)
    unfold thread_step in Hcur'.
    destruct (decide _);
      [|simpl in Hcur'; rewrite adv_return_cursor in Hcur'; discriminate].
    simpl in Hcur'. destruct (has_room _); simpl in Hcur'; congruence.
Qed.


Lemma cursor_good st l t c :
  thread_ok st l t -> cursor t = Some c -> good st c.
Proof.
  destruct t; simpl; try discriminate; intros Ht [= ->];
    destruct Ht as [(_ & Hg & Hr) _]; eapply rtc_trans; eassumption.
Qed.

(** What an event does to a thread. *)
Lemma log_step_thread s ev (tid : nat) t t' :
  sys_threads s !! tid = Some t ->
  sys_threads (log_step s ev) !! tid = Some t' ->
  t' = t \/ t = TIdle \/
  exists alloc, t' = (thread_step alloc (sys_log s) t).1.2.
Proof.
  intros Ht Ht'.
  assert (Hins : forall (tid0 : nat) t0 u,
            sys_threads s !! tid0 = Some t0 ->
            <[tid0 := u]> (sys_threads s) !! tid = Some t' ->
            t' = t \/ (tid0 = tid /\ t0 = t /\ t' = u)).
  { intros tid0 t0 u H0 H. destruct (decide (tid0 = tid)) as [->|Hne].
    - rewrite list_lookup_insert_eq in H
        by (eapply lookup_lt_Some; eassumption).
      right. split_and!; congruence.
    - rewrite list_lookup_insert_ne in H by assumption. left. congruence. }
  destruct ev as [|tid0 size type|tid0 entry|tid0 alloc]; simpl in Ht'.
  - rewrite lookup_app_l in Ht' by (eapply lookup_lt_Some; eassumption).
    left. congruence.
  - destruct (sys_threads s !! tid0) as [t0|] eqn:H0; [|left; congruence].
    destruct t0; try (left; congruence).
    destruct (_ && _); [|left; congruence]. simpl in Ht'.
    destruct (Hins _ _ _ H0 Ht') as [?|(_ & <- & _)]; auto.
  - destruct (sys_threads s !! tid0) as [t0|] eqn:H0; [|left; congruence].
    destruct t0; try (left; congruence).
    destruct (decide _); [|left; congruence]. simpl in Ht'.
    destruct (Hins _ _ _ H0 Ht') as [?|(_ & <- & _)]; auto.
  - destruct (sys_threads s !! tid0) as [t0|] eqn:H0; [|left; congruence].
    destruct (thread_step alloc (sys_log s) t0) as [[st' t1] h] eqn:Hstep.
    simpl in Ht'.
    destruct (Hins _ _ _ H0 Ht') as [?|(_ & <- & ->)]; auto.
    right. right. exists alloc. rewrite Hstep. reflexivity.
Qed.

(** C1: after any sequence of calls of [append] (of 1 to [2^31 - 1]
    bytes) and [seal] (of an entry that [append] returned) and of steps
    of the threads inside them ([createPage] and [advanceSealedHead]
    included), in any interleaving, every entry at a position of the
    chain strictly before the sealed head is sealed, and one more event
    leaves the sealed head where it is or moves it forward in chain
    order.  An entry is a header that was acquired and starts inside
    the used bytes of its page; what lies behind the stored offset of a
    page is not part of the log.
    The cursor of a thread inside [advanceSealedHead] has only
    sealed entries before it; when a step changes it, it passes the
    sealed entry it stands on, or it goes to the start of the next page
    from a page that is sealed and whose stored offset is the offset of
    the cursor.  The chain is the list of pages linked from the first
    page; an event keeps it or adds a page at its end. *)
Theorem sealed_head_invariant (sched : list log_event) (ev : log_event) :
  layout_ok ->
  let s := log_run sched in
  let s' := log_step s ev in
  exists l l' : list page_id,
    is_chain (sys_log s) l /\ is_chain (sys_log s') l' /\
    (forall (i : nat) p, l !! i = Some p -> l' !! i = Some p) /\
    entries_sealed_before (sys_log s) l (mSealedHead (sys_log s)) /\
    pos_le l' (mSealedHead (sys_log s)) (mSealedHead (sys_log s')) /\
    forall (tid : nat) t c,
      sys_threads s !! tid = Some t -> cursor t = Some c ->
      entries_sealed_before (sys_log s) l c /\
      forall t' c',
        sys_threads s' !! tid = Some t' -> cursor t' = Some c' -> c' <> c ->
        cursor_move (sys_log s) c c'.
Proof.
  intros HL s s'.
  destruct (log_run_inv sched HL) as [l Hinv]. fold s in Hinv.
  destruct (log_step_inv l s ev HL Hinv) as (l' & Hinv' & Hsub & Hstep & Hreach).
  fold s' in Hinv', Hstep, Hreach.
  destruct Hinv as (Hc & Hpages & Hhead & Hg & Hh & Hts & Hd).
  destruct Hinv' as (Hc' & Hpages' & Hhead' & Hg' & _).
  exists l, l'. split_and!; auto.
  - eapply chain_grows; eassumption.
  - apply entries_sealed_before_good; assumption.
  - eapply reach_pos_le; try eassumption.
    apply (good_mono l (sys_log s) (sys_log s')); assumption.
  - intros tid t c Htid Hcur.
    pose proof (Forall_lookup_1 _ _ _ _ Hts Htid) as Hok.
    split.
    + apply entries_sealed_before_good; try assumption.
      eapply cursor_good; eassumption.
    + intros t' c' Htid' Hcur' Hne.
      destruct (log_step_thread s ev tid t t' Htid Htid')
        as [->|[->|[alloc ->]]].
      * congruence.
      * discriminate.
      * eapply cursor_step; eassumption.
Qed.


(** *** What every run of the ordered log keeps *)

(** A cursor the sealed head may take stands at the start of an entry
    slot: it is reached from the start of its page over entries. *)
Lemma good_echain st x :
  good st x -> echain (opage st (lp_page x)) 0 (lp_offset x).
Proof.
  unfold good, reach. revert x.
  apply (rtc_ind_r (fun x => echain (opage st (lp_page x)) 0 (lp_offset x))).
  - simpl. constructor.
  - intros a b _ Hadv IH.
    destruct Hadv as [p o s Hs|p o q P Ho HP Hn]; simpl in *.
    + econstructor; [exact IH|]. apply sealed_entry_acquired. exact Hs.
    + constructor.
Qed.

Lemma log_step_handed s ev e :
  e ∈ sys_handed s -> e ∈ sys_handed (log_step s ev).
Proof.
  intros He. destruct ev as [|tid size type|tid entry|tid alloc]; simpl.
  - exact He.
  - destruct (sys_threads s !! tid) as [[]|]; try exact He.
    destruct (_ && _); exact He.
  - destruct (sys_threads s !! tid) as [[]|]; try exact He.
    destruct (decide _); exact He.
  - destruct (sys_threads s !! tid) as [t|]; [|exact He].
    destruct (thread_step alloc (sys_log s) t) as [[st' t'] [h|]]; simpl;
      [apply elem_of_cons; right|]; exact He.
Qed.

Lemma pages_step_trans l l1 st st1 st2 :
  (forall p, p ∈ l -> p ∈ l1) ->
  pages_step l st st1 -> pages_step l1 st1 st2 -> pages_step l st st2.
Proof.
  intros Hsub H1 H2 p Hp.
  destruct (H1 p Hp) as (pg1 & Hpg1 & Hle1 & _).
  destruct (H2 p (Hsub p Hp)) as (pg2 & Hpg2 & Hle2 & Hok2 & Hch2).
  exists pg2. split_and!; auto.
  rewrite (opage_lookup _ _ _ Hpg1) in Hle2.
  eapply page_le_trans; eassumption.
Qed.

(** The invariant along a continuation of a run. *)
Lemma log_steps_inv more :
  layout_ok -> forall l s, log_inv l s ->
  exists l', log_inv l' (fold_left log_step more s) /\
    (forall p, p ∈ l -> p ∈ l') /\
    pages_step l (sys_log s) (sys_log (fold_left log_step more s)) /\
    reach (sys_log (fold_left log_step more s)) (mSealedHead (sys_log s))
          (mSealedHead (sys_log (fold_left log_step more s))) /\
    (forall e, e ∈ sys_handed s -> e ∈ sys_handed (fold_left log_step more s)).
Proof.
  intros HL. induction more as [|ev more IH]; intros l s Hinv; simpl.
  - exists l. pose proof Hinv as (Hc & Hpages & _).
    split_and!; auto; [apply pages_step_refl; assumption|apply rtc_refl].
  - destruct (log_step_inv l s ev HL Hinv) as (l1 & Hinv1 & Hsub1 & Hst1 & Hr1).
    destruct (IH l1 _ Hinv1) as (l' & Hinv' & Hsub' & Hst' & Hr' & Hh').
    exists l'. split_and!; auto.
    + eapply pages_step_trans; eassumption.
    + eapply rtc_trans; [|exact Hr'].
      destruct Hinv as (Hc & _ & _ & Hg & _).
      destruct Hinv1 as (Hc1 & _).
      apply (reach_mono l1 (sys_log (log_step s ev)));
        [exact Hc1|exact Hst'|exact Hr1|].
      apply Hsub1. eapply good_in; eassumption.
    + intros e He. apply Hh'. apply log_step_handed. exact He.
Qed.

(** X1.  In any interleaving of appends and seals on the ordered log no
    thread reads through a null pointer or a page that was given back
    to the page manager: [advanceSealedHead] reads the entry under its
    cursor only where [currentEntry] was set (it is null after line
    360 and stale after line 400), and [createPage] gives back only a
    page that it acquired and did not link. *)
Theorem no_thread_faults (sched : list log_event) (tid : nat) (t : thread) :
  layout_ok ->
  sys_threads (log_run sched) !! tid = Some t -> t <> TFault.
Proof.
  intros HL Ht ->.
  destruct (log_run_inv sched HL) as (l & _ & _ & _ & _ & _ & Hts & _).
  exact (Forall_lookup_1 _ _ _ _ Hts Ht).
Qed.

(** X2.  Every entry that [append] has returned lies on a page of the
    chain, at an aligned position, with its header acquired and its
    bytes inside the used bytes of the page, so that a reader of the
    page meets it. *)
Theorem appended_entries_valid (sched : list log_event) (e : LogPosition) :
  layout_ok ->
  e ∈ sys_handed (log_run sched) ->
  exists l s,
    is_chain (sys_log (log_run sched)) l /\ lp_page e ∈ l /\
    acquired (opage (sys_log (log_run sched)) (lp_page e)) (lp_offset e) s /\
    0 <= lp_offset e /\ lp_offset e mod 16 = 0 /\
    lp_offset e + entrySizeFromSize s
    <= page_offset (opage (sys_log (log_run sched)) (lp_page e)) /\
    page_offset (opage (sys_log (log_run sched)) (lp_page e)) <= MAX_ENTRY_SIZE.
Proof.
  intros HL He.
  destruct (log_run_inv sched HL) as (l & Hc & Hpages & _ & _ & Hh & _).
  destruct (Hh e He) as (Hin & s & Ha & Hpub).
  destruct (Hpages _ Hin) as [Hok _].
  destruct (page_ok_acquired _ _ _ Hok Ha) as (H0 & H16 & _).
  exists l, s. split_and!; auto.
  destruct Hok as [(P & HP & _ & HP') _]. rewrite page_offset_div. lia.
Qed.

(** X3.  The sealed head always stands on a page of the chain, at the
    start of an entry slot (it is reached from the start of the page
    over entries), aligned and not past the used bytes of the page; the
    head page is a page of the chain. *)
Theorem sealed_head_valid (sched : list log_event) :
  layout_ok ->
  exists l,
    is_chain (sys_log (log_run sched)) l /\
    mHead (sys_log (log_run sched)) ∈ l /\
    lp_page (mSealedHead (sys_log (log_run sched))) ∈ l /\
    echain (opage (sys_log (log_run sched))
                  (lp_page (mSealedHead (sys_log (log_run sched)))))
           0 (lp_offset (mSealedHead (sys_log (log_run sched)))) /\
    lp_offset (mSealedHead (sys_log (log_run sched))) mod 16 = 0 /\
    0 <= lp_offset (mSealedHead (sys_log (log_run sched)))
      <= page_offset (opage (sys_log (log_run sched))
                            (lp_page (mSealedHead (sys_log (log_run sched))))).
Proof.
  intros HL.
  destruct (log_run_inv sched HL) as (l & Hc & Hpages & Hhead & Hg & _).
  destruct (good_bounds _ _ _ HL Hc Hpages Hg) as (Hin & Hb & H16).
  exists l. split_and!; auto; try lia. apply good_echain. exact Hg.
Qed.

(** X4.  On a page of the chain no two entries overlap, in any
    interleaving: an entry that starts after another one starts at or
    after its end. *)
Theorem entries_disjoint (sched : list log_event) :
  layout_ok ->
  exists l,
    is_chain (sys_log (log_run sched)) l /\
    forall p o1 s1 o2 s2,
      p ∈ l ->
      acquired (opage (sys_log (log_run sched)) p) o1 s1 ->
      acquired (opage (sys_log (log_run sched)) p) o2 s2 ->
      o1 < o2 ->
      o1 + entrySizeFromSize s1 <= o2.
Proof.
  intros HL.
  destruct (log_run_inv sched HL) as (l & Hc & Hpages & _).
  exists l. split; [exact Hc|]. intros p o1 s1 o2 s2 Hp H1 H2 Hlt.
  destruct (Hpages p Hp) as [_ Hch].
  eapply entry_between; eassumption.
Qed.

(** X5.  A continuation of a run keeps the pages of the chain at their
    places and may add pages at its end; on a page of the chain the
    used bytes do not shrink, the offset of a sealed page and the link
    to the next page are final, an entry keeps its size and a sealed
    entry stays sealed; the entries that [append] returned stay
    returned, and the sealed head does not move backwards. *)
Theorem log_grows (sched more : list log_event) :
  layout_ok ->
  let s := log_run sched in
  let s' := log_run (sched ++ more) in
  exists l l' : list page_id,
    is_chain (sys_log s) l /\ is_chain (sys_log s') l' /\
    (forall (i : nat) p, l !! i = Some p -> l' !! i = Some p) /\
    (forall p, p ∈ l -> page_le (opage (sys_log s) p) (opage (sys_log s') p)) /\
    (forall e, e ∈ sys_handed s -> e ∈ sys_handed s') /\
    pos_le l' (mSealedHead (sys_log s)) (mSealedHead (sys_log s')).
Proof.
  intros HL s s'.
  destruct (log_run_inv sched HL) as [l Hinv]. fold s in Hinv.
  destruct (log_steps_inv more HL l s Hinv)
    as (l' & Hinv' & Hsub & Hstep & Hreach & Hh).
  assert (Hs' : fold_left log_step more s = s').
  { unfold s', s, log_run. rewrite fold_left_app. reflexivity. }
  rewrite Hs' in *.
  destruct Hinv as (Hc & Hpages & Hhead & Hg & _).
  destruct Hinv' as (Hc' & Hpages' & Hhead' & Hg' & _).
  exists l, l'. split_and!; auto.
  - eapply chain_grows; eassumption.
  - intros p Hp. eapply pages_step_le; eassumption.
  - eapply reach_pos_le; try eassumption.
    apply (good_mono l (sys_log s) (sys_log s')); assumption.
Qed.


(** *** Who holds an entry of a page *)

(** A step of a thread acquires only a free entry, and stores the type
    of the entry it holds only. *)
Lemma appendEntry_step_holds size type pg pc :
  layout_ok -> page_ok pg -> 0 < size < 2 ^ 31 ->
  append_pc_ok size pg pc ->
  (forall o, holds (appendEntry_step size (entrySizeFromSize size) type pg pc).2
             = Some o ->
     holds pc = Some o \/ mSize (entry_at pg o) = 0) /\
  (forall o, holds pc <> Some o -> mSize (entry_at pg o) <> 0 ->
     mType (entry_at
              (appendEntry_step size (entrySizeFromSize size) type pg pc).1 o)
     = mType (entry_at pg o)) /\
  ((forall o, typed pc = Some o -> mType (entry_at pg o) = type) ->
   forall o, typed (appendEntry_step size (entrySizeFromSize size) type pg pc).2
             = Some o ->
     mType (entry_at
              (appendEntry_step size (entrySizeFromSize size) type pg pc).1 o)
     = type).
Proof.
  intros (HL & HH & HH8 & HP & HP30) Hok Hs Hpc.
  pose proof (entrySizeFromSize_bounds size HL ltac:(lia)) as Hesz.
  assert (HM : MAX_ENTRY_SIZE < 2 ^ 30) by (unfold MAX_ENTRY_SIZE; lia).
  destruct pc as [|off pos|off pos|off pos|r].
  - simpl. rewrite land1.
    destruct (_ =? 0); simpl; split_and!; auto; discriminate.
  - simpl. destruct Hpc as (Hp1 & Hp2 & Ho1 & Ho2 & Ho3).
    rewrite (u32_small (pos + entrySizeFromSize size)) by lia.
    destruct (Z.gtb_spec (pos + entrySizeFromSize size) MAX_ENTRY_SIZE); simpl.
    { split_and!; auto; discriminate. }
    unfold tryAcquire_cas, compare_exchange_strong.
    destruct (Z.eqb_spec (mSize (entry_at pg pos)) 0) as [H0|Hn]; simpl.
    + split_and!.
      * intros o [= <-]. right. exact H0.
      * intros o _ Hno. rewrite entry_at_set_entry.
        destruct (decide (pos = o)) as [->|]; [contradiction|reflexivity].
      * discriminate.
    + destruct (page_ok_entry pg pos Hok Hn) as (s' & Ha & Hb1 & Hb2 & Hb3).
      rewrite (acquired_shiftr _ _ _ Ha).
      assert (Hs' : 0 <= s' < 2 ^ 31) by (destruct Ha; lia).
      pose proof (entrySizeFromSize_pos s' HL Hs') as Hpos'.
      destruct (Z.eqb_spec (entrySizeFromSize s') 0); [lia|]. simpl.
      split_and!; auto; discriminate.
  - simpl. split_and!.
    + intros o [= <-]. left. reflexivity.
    + intros o Hne _. rewrite entry_at_set_entry.
      destruct (decide (pos = o)) as [->|]; [congruence|reflexivity].
    + intros _ o [= <-]. rewrite entry_at_set_entry.
      rewrite decide_True by reflexivity. reflexivity.
  - set (r := appendEntry_step size (entrySizeFromSize size) type pg
                (APublish off pos)).
    assert (Hr : (forall o, entry_at r.1 o = entry_at pg o) /\
                 (r.2 = AReturn (Some pos) \/ r.2 = AReturn None \/
                  exists off', r.2 = APublish off' pos)).
    { subst r. simpl. destruct (_ <? _); [|simpl; auto].
      unfold compare_exchange_strong.
      destruct (_ =? off); simpl; [auto|].
      destruct (_ =? 0); simpl; [|eauto].
      destruct (_ >=? _); simpl; auto. }
    destruct Hr as [He Hr]. destruct r as [pg' pc']. simpl in *. split_and!.
    + intros o Ho. left.
      destruct Hr as [->|[->|[off' ->]]]; simpl in Ho; congruence.
    + intros o _ _. rewrite He. reflexivity.
    + intros Ht o Ho. rewrite He. apply Ht.
      destruct Hr as [->|[->|[off' ->]]]; simpl in Ho; congruence.
  - simpl. split_and!; auto.
Qed.

Lemma entry_at_seal_page pg o : entry_at (seal_page pg) o = entry_at pg o.
Proof. reflexivity. Qed.

Lemma page_step_owned s ev :
  layout_ok -> page_sys_ok s -> page_sys_owned s ->
  page_sys_owned (page_step s ev).
Proof.
  intros HL. destruct s as [pg ts]. intros [Hok Hts] [Hd Ht]. simpl in *.
  destruct ev as [size type|tid| |pos]; simpl.
  - (* a call *)
    assert (Hnew : holds (append_entry_pc size) = None /\
                   typed (append_entry_pc size) = None).
    { unfold append_entry_pc. destruct (_ >? _); auto. }
    destruct ((0 <? size) && (size <? 2 ^ 31)); [|split; assumption].
    assert (Hlook : forall (i : nat) a,
              (ts ++ [LogPage_append size type]) !! i = Some a ->
              ts !! i = Some a \/ a = LogPage_append size type).
    { intros i a Hi. apply lookup_app_Some in Hi as [Hi|[_ Hi]]; [auto|].
      right. destruct (i - length ts)%nat; simpl in Hi;
        [congruence|rewrite lookup_nil in Hi; discriminate]. }
    split; simpl.
    + intros i j ai aj pos Hij Hi Hj Hhi Hhj.
      destruct (Hlook _ _ Hi) as [Hi'| ->];
        [|simpl in Hhi; destruct Hnew; congruence].
      destruct (Hlook _ _ Hj) as [Hj'| ->];
        [|simpl in Hhj; destruct Hnew; congruence].
      eapply (Hd i j); eauto.
    + intros i a pos Hi Hty.
      destruct (Hlook _ _ Hi) as [Hi'| ->];
        [|simpl in Hty; destruct Hnew; congruence].
      eapply Ht; eauto.
  - (* a step *)
    destruct (ts !! tid) as [a|] eqn:Ha; [|split; assumption].
    pose proof (Forall_lookup_1 _ _ _ _ Hts Ha) as [Hs Hpc].
    unfold appender_step.
    pose proof (appendEntry_step_holds (a_size a) (a_type a) pg (a_pc a)
                  HL Hok Hs Hpc) as (H1 & H2 & H3).
    destruct (appendEntry_step _ _ _ pg (a_pc a)) as [pg' pc']. simpl in *.
    assert (Hother : forall (j : nat) aj o, tid <> j -> ts !! j = Some aj ->
              holds (a_pc aj) = Some o ->
              holds (a_pc a) <> Some o /\ mSize (entry_at pg o) <> 0).
    { intros j aj o Hne Hj Ho. split.
      - intros Hh. eapply (Hd tid j); eauto.
      - pose proof (Forall_lookup_1 _ _ _ _ Hts Hj) as [_ Hpcj].
        destruct (a_pc aj) as [| | | |[]]; simpl in Ho; try discriminate;
          injection Ho as <-; simpl in Hpcj;
          apply (acquired_nonzero _ _ (a_size aj)); tauto. }
    assert (Hins : forall (i : nat) b,
              <[tid := mkAppender (a_size a) (a_type a) pc']> ts !! i = Some b ->
              (i = tid /\ b = mkAppender (a_size a) (a_type a) pc') \/
              (i <> tid /\ ts !! i = Some b)).
    { intros i b Hi. destruct (decide (tid = i)) as [<-|Hne].
      - rewrite list_lookup_insert_eq in Hi
          by (eapply lookup_lt_Some; eassumption).
        left. split; congruence.
      - rewrite list_lookup_insert_ne in Hi by assumption. right. auto. }
    split; simpl.
    + intros i j ai aj pos Hij Hi Hj Hhi Hhj.
      destruct (Hins _ _ Hi) as [[-> ->]|[Hni Hi']];
        destruct (Hins _ _ Hj) as [[-> ->]|[Hnj Hj']]; simpl in *.
      * contradiction.
      * destruct (Hother j aj pos ltac:(auto) Hj' Hhj) as [Hn1 Hn2].
        destruct (H1 pos Hhi); contradiction.
      * destruct (Hother i ai pos ltac:(auto) Hi' Hhi) as [Hn1 Hn2].
        destruct (H1 pos Hhj); contradiction.
      * eapply (Hd i j); eauto.
    + intros i b pos Hi Hty.
      destruct (Hins _ _ Hi) as [[-> ->]|[Hni Hi']]; simpl in *.
      * apply H3; [|exact Hty]. intros o Ho. eapply Ht; eauto.
      * assert (Hh : holds (a_pc b) = Some pos).
        { destruct (a_pc b) as [| | | |[]]; simpl in *; congruence. }
        destruct (Hother i b pos ltac:(auto) Hi' Hh) as [Hn1 Hn2].
        rewrite (H2 pos Hn1 Hn2). eapply Ht; eauto.
  - (* the page is sealed *)
    split; simpl; [exact Hd|]. intros i a pos Hi Hty.
    rewrite entry_at_seal_page. eapply Ht; eauto.
  - (* an entry is sealed *)
    split; simpl; [exact Hd|]. intros i a o Hi Hty.
    rewrite entry_at_set_entry. destruct (decide (pos = o)) as [->|].
    + simpl. eapply Ht; eauto.
    + eapply Ht; eauto.
Qed.

Lemma page_run_owned sched :
  layout_ok -> page_sys_ok (page_run sched) /\ page_sys_owned (page_run sched).
Proof.
  intros HL. unfold page_run.
  assert (H0 : page_sys_ok (fresh_page, []) /\ page_sys_owned (fresh_page, [])).
  { split; [split; [apply fresh_page_ok; assumption|apply Forall_nil; exact I]|].
    split; simpl; intros; rewrite lookup_nil in *; discriminate. }
  revert H0. generalize (fresh_page, @nil appender).
  induction sched as [|ev sched IH]; intros s Hs; simpl; [assumption|].
  apply IH. destruct Hs. split; [apply page_step_ok|apply page_step_owned];
    assumption.
Qed.


Lemma page_step_le s ev :
  layout_ok -> page_sys_ok s -> page_le s.1 (page_step s ev).1.
Proof.
  intros HL. destruct s as [pg ts]. intros [Hok Hts]. simpl in *.
  destruct ev as [size type|tid| |pos]; simpl.
  - destruct (_ && _); apply page_le_refl.
  - destruct (ts !! tid) as [a|] eqn:Ha; [|apply page_le_refl].
    pose proof (Forall_lookup_1 _ _ _ _ Hts Ha) as [Hs Hpc].
    unfold appender_step.
    pose proof (appendEntry_step_ok (a_size a) (a_type a) pg (a_pc a)
                  HL Hok Hs Hpc) as (_ & _ & H3).
    destruct (appendEntry_step _ _ _ pg (a_pc a)) as [pg' pc']. exact H3.
  - apply seal_page_ok. exact Hok.
  - apply seal_entry_ok. exact Hok.
Qed.

(** A thread that has returned stays as it is. *)
Lemma page_step_returned s ev (tid : nat) a r :
  s.2 !! tid = Some a -> a_pc a = AReturn r ->
  (page_step s ev).2 !! tid = Some a.
Proof.
  destruct s as [pg ts]. simpl. intros Ha Hr.
  destruct ev as [size type|tid0| |pos]; simpl; auto.
  - destruct (_ && _); simpl; [|exact Ha].
    rewrite lookup_app_l by (eapply lookup_lt_Some; eassumption). exact Ha.
  - destruct (ts !! tid0) as [a0|] eqn:Ha0; [|exact Ha].
    destruct (decide (tid0 = tid)) as [->|Hne].
    + rewrite Ha in Ha0. injection Ha0 as <-.
      unfold appender_step. rewrite Hr. simpl.
      rewrite list_lookup_insert_eq by (eapply lookup_lt_Some; eassumption).
      destruct a. simpl in *. congruence.
    + destruct (appender_step pg a0) as [pg' a']. simpl.
      rewrite list_lookup_insert_ne by assumption. exact Ha.
Qed.

Lemma page_steps more :
  layout_ok -> forall s, page_sys_ok s -> page_sys_owned s ->
  page_sys_ok (fold_left page_step more s) /\
  page_sys_owned (fold_left page_step more s) /\
  page_le s.1 (fold_left page_step more s).1 /\
  (forall (tid : nat) a r, s.2 !! tid = Some a -> a_pc a = AReturn r ->
     (fold_left page_step more s).2 !! tid = Some a).
Proof.
  intros HL. induction more as [|ev more IH]; intros s Hok Hown; simpl.
  - split_and!; auto using page_le_refl.
  - destruct (IH (page_step s ev)) as (H1 & H2 & H3 & H4);
      [apply page_step_ok; assumption|apply page_step_owned; assumption|].
    split_and!; auto.
    + eapply page_le_trans; [apply page_step_le; assumption|exact H3].
    + intros tid a r Ha Hr. eapply H4; [|exact Hr].
      eapply page_step_returned; eassumption.
Qed.

(** X6.  In any interleaving of calls of [LogPage::append] with sealing
    of the page and of entries, no two threads hold the same entry: the
    exchange of [tryAcquire] gives an entry to one thread only, and two
    calls never return the same entry. *)
Theorem append_exclusive (sched : list page_event) (i j : nat)
    (ai aj : appender) (pos : Z) :
  layout_ok -> i <> j ->
  (page_run sched).2 !! i = Some ai -> (page_run sched).2 !! j = Some aj ->
  holds (a_pc ai) = Some pos -> holds (a_pc aj) <> Some pos.
Proof.
  intros HL Hij Hi Hj Hh.
  destruct (page_run_owned sched HL) as [_ [Hd _]].
  eapply (Hd i j); eassumption.
Qed.

(** X7.  The entry that a call of [LogPage::append] returned has the
    size and the type the call asked for, starts aligned and lies
    inside the used bytes of the page, and this stays so whatever other
    threads do afterwards. *)
Theorem append_round_trip (sched more : list page_event) (tid : nat)
    (a : appender) (pos : Z) :
  layout_ok ->
  (page_run sched).2 !! tid = Some a -> a_pc a = AReturn (Some pos) ->
  (sizeAndSealed (entry_at (page_run (sched ++ more)).1 pos)).1 = a_size a /\
  mType (entry_at (page_run (sched ++ more)).1 pos) = a_type a /\
  0 <= pos /\ pos mod 16 = 0 /\
  pos + entrySizeFromSize (a_size a)
  <= page_offset (page_run (sched ++ more)).1.
Proof.
  intros HL Ha Hr.
  destruct (page_run_owned sched HL) as [Hok Hown].
  destruct (page_steps more HL _ Hok Hown) as ([Hok' Hts'] & [_ Ht'] & _ & Hret).
  assert (Hrun : fold_left page_step more (page_run sched)
                 = page_run (sched ++ more)).
  { unfold page_run. rewrite fold_left_app. reflexivity. }
  rewrite Hrun in *.
  pose proof (Hret tid a _ Ha Hr) as Ha'.
  pose proof (Forall_lookup_1 _ _ _ _ Hts' Ha') as [Hs Hpc].
  rewrite Hr in Hpc. simpl in Hpc. destruct Hpc as [Hacq Hpub].
  destruct (page_ok_acquired _ _ _ Hok' Hacq) as (H0 & H16 & _).
  split_and!; auto.
  - simpl. apply acquired_shiftr. exact Hacq.
  - eapply Ht'; [exact Ha'|]. rewrite Hr. reflexivity.
Qed.

(** X8.  Whatever threads do on a page, its used bytes do not shrink,
    the offset of a sealed page is final, an entry keeps its size and a
    sealed entry stays sealed. *)
Theorem page_grows (sched more : list page_event) :
  layout_ok ->
  page_le (page_run sched).1 (page_run (sched ++ more)).1.
Proof.
  intros HL.
  destruct (page_run_owned sched HL) as [Hok Hown].
  destruct (page_steps more HL _ Hok Hown) as (_ & _ & Hle & _).
  unfold page_run in *. rewrite fold_left_app. exact Hle.
Qed.


(** *** A call that runs alone *)

Lemma set_entry_twice pg pos e1 e2 :
  set_entry (set_entry pg pos e1) pos e2 = set_entry pg pos e2.
Proof. unfold set_entry. simpl. rewrite insert_insert_eq. reflexivity. Qed.

Lemma appender_run_step fuel pg a :
  (forall r, a_pc a <> AReturn r) ->
  appender_run (S fuel) pg a
  = appender_run fuel (appender_step pg a).1 (appender_step pg a).2.
Proof.
  intros Hn. simpl. destruct (appender_step pg a) as [pg' a'].
  destruct (a_pc a); try reflexivity. exfalso. eapply Hn. reflexivity.
Qed.

Lemma appender_run_done fuel pg a r :
  a_pc a = AReturn r -> appender_run fuel pg a = (pg, a).
Proof. intros Hr. destruct fuel; simpl; [reflexivity|]. rewrite Hr. reflexivity. Qed.

(** A call alone on an active page with room behind its used bytes. *)
Lemma appender_run_tidy size type pg :
  layout_ok -> page_ok pg -> tidy pg -> 0 < size < 2 ^ 31 ->
  Z.land (mOffset pg) 1 <> 0 ->
  page_offset pg + entrySizeFromSize size <= MAX_ENTRY_SIZE ->
  appender_run 4 pg (mkAppender size type ALoad)
  = (set_offset
       (set_entry pg (page_offset pg) (mkLogEntry (2 * size + 1) type))
       (2 * (page_offset pg + entrySizeFromSize size) + 1),
     mkAppender size type (AReturn (Some (page_offset pg)))).
Proof.
  intros HLay Hok Htidy Hs Hodd Hroom.
  set (P := page_offset pg) in *. set (E := entrySizeFromSize size) in *.
  pose proof HLay as (HL & HH & HH8 & HP & HP30).
  pose proof (entrySizeFromSize_bounds size HL ltac:(lia)) as Hesz.
  assert (HM : MAX_ENTRY_SIZE < 2 ^ 30) by (unfold MAX_ENTRY_SIZE; lia).
  pose proof Hok as [(P' & HP1 & HP2 & HP3) He].
  assert (HPP : P = P') by (unfold P; rewrite page_offset_div; lia).
  assert (Hfree : mSize (entry_at pg P) = 0) by (apply Htidy; unfold P; lia).
  rewrite land1 in Hodd.
  assert (Hoff : mOffset pg = 2 * P + 1) by lia.
  rewrite appender_run_step by (simpl; discriminate).
  unfold appender_step. cbn [a_pc a_size a_type appendEntry_step].
  rewrite land1. destruct (Z.eqb_spec (mOffset pg mod 2) 0); [lia|].
  cbn [fst snd]. rewrite appender_run_step by (simpl; discriminate).
  unfold appender_step. cbn [a_pc a_size a_type appendEntry_step].
  fold E. rewrite shiftr1. replace (mOffset pg / 2) with P by lia.
  rewrite (u32_small (P + E)) by lia.
  destruct (Z.gtb_spec (P + E) MAX_ENTRY_SIZE); [lia|].
  unfold tryAcquire_cas, compare_exchange_strong. rewrite Hfree.
  cbn [Z.eqb negb fst snd]. rewrite pack1 by lia.
  rewrite appender_run_step by (simpl; discriminate).
  unfold appender_step. cbn [a_pc a_size a_type appendEntry_step fst snd].
  rewrite entry_at_set_entry, decide_True by reflexivity.
  unfold tryAcquire_type. cbn [mSize]. rewrite set_entry_twice.
  rewrite appender_run_step by (simpl; discriminate).
  unfold appender_step. cbn [a_pc a_size a_type appendEntry_step].
  fold E. rewrite (u32_small (P + E)) by lia. rewrite pack1 by lia.
  rewrite Hoff.
  destruct (Z.ltb_spec (2 * P + 1) (2 * (P + E) + 1)); [|lia].
  unfold compare_exchange_strong. cbn [set_entry mOffset].
  rewrite Hoff, Z.eqb_refl. cbn [fst snd].
  apply (appender_run_done _ _ _ (Some P)). reflexivity.
Qed.

(** X9.  A call of [LogPage::append] that runs alone on a page with no
    header taken behind its used bytes: on a sealed page, or when the
    entry does not fit behind the used bytes, it returns null and
    leaves the page as it is; otherwise it returns the entry at the
    offset of the page, with the size and the type of the call, and
    advances the offset by the entry size, within four steps.  The page
    is again one with no header taken behind its used bytes, so
    consecutive calls lay their entries out back to back. *)
Theorem append_alone (size type : Z) (pg : LogPage) :
  layout_ok -> page_ok pg -> tidy pg -> 0 < size < 2 ^ 31 ->
  let P := page_offset pg in
  let E := entrySizeFromSize size in
  let r := appender_run 4 pg (LogPage_append size type) in
  (Z.land (mOffset pg) 1 = 0 \/ MAX_ENTRY_SIZE < P + E ->
   r = (pg, mkAppender size type (AReturn None))) /\
  (Z.land (mOffset pg) 1 <> 0 -> P + E <= MAX_ENTRY_SIZE ->
   r = (set_offset (set_entry pg P (mkLogEntry (2 * size + 1) type))
                   (2 * (P + E) + 1),
        mkAppender size type (AReturn (Some P))) /\
   page_ok r.1 /\ tidy r.1).
Proof.
  intros HLay Hok Htidy Hs P E r.
  pose proof HLay as (HL & HH & HH8 & HP & HP30).
  pose proof (entrySizeFromSize_bounds size HL ltac:(lia)) as Hesz.
  pose proof (entrySizeFromSize_mod16 size) as Hesz16.
  assert (HM : MAX_ENTRY_SIZE < 2 ^ 30) by (unfold MAX_ENTRY_SIZE; lia).
  pose proof Hok as [(P' & HP1 & HP2 & HP3) He].
  assert (HPP : P = P') by (unfold P; rewrite page_offset_div; lia).
  assert (Hfree : mSize (entry_at pg P) = 0) by (apply Htidy; unfold P; lia).
  assert (Hnull : Z.land (mOffset pg) 1 = 0 \/ MAX_ENTRY_SIZE < P + E ->
                  r = (pg, mkAppender size type (AReturn None))).
  { intros Hcase. subst r. unfold LogPage_append, append_entry_pc. fold E.
    destruct (Z.gtb_spec E MAX_ENTRY_SIZE) as [Hbig|Hfit]; [reflexivity|].
    rewrite appender_run_step by (simpl; discriminate).
    unfold appender_step. cbn [a_pc a_size a_type appendEntry_step].
    destruct (Z.eqb_spec (Z.land (mOffset pg) 1) 0) as [Heven|Hodd];
      [reflexivity|].
    cbn [fst snd]. rewrite appender_run_step by (simpl; discriminate).
    unfold appender_step. cbn [a_pc a_size a_type appendEntry_step].
    fold E. rewrite shiftr1. replace (mOffset pg / 2) with P
      by (unfold P; rewrite page_offset_div; reflexivity).
    rewrite (u32_small (P + E)) by lia.
    destruct (Z.gtb_spec (P + E) MAX_ENTRY_SIZE) as [Hfull|Hroom];
      [reflexivity|]. lia. }
  split; [exact Hnull|]. intros Hodd Hroom. rewrite land1 in Hodd.
  assert (Hoff : mOffset pg = 2 * P + 1) by lia.
  assert (Hr : r = (set_offset
                      (set_entry pg P (mkLogEntry (2 * size + 1) type))
                      (2 * (P + E) + 1),
                    mkAppender size type (AReturn (Some P)))).
  { subst r. unfold LogPage_append, append_entry_pc. fold E.
    destruct (Z.gtb_spec E MAX_ENTRY_SIZE) as [Hbig|Hfit]; [lia|].
    apply appender_run_tidy; auto; rewrite land1; lia. }
  split; [exact Hr|]. rewrite Hr. cbn [fst]. split.
  - apply page_ok_set_offset; [|lia|lia].
    apply (page_ok_set_entry pg P (mkLogEntry (2 * size + 1) type));
      [exact Hok|]. right. exists size. simpl.
    unfold is_acquired. split_and!; auto; lia.
  - intros o Ho. unfold page_offset in Ho. simpl in Ho.
    rewrite shiftr1 in Ho.
    change (mSize (entry_at (set_entry pg P (mkLogEntry (2 * size + 1) type)) o)
            = 0).
    rewrite entry_at_set_entry. destruct (decide (P = o)); [lia|].
    apply Htidy. fold P. lia.
Qed.


Lemma appender_run_more n pg a r :
  a_pc (appender_run n pg a).2 = AReturn r ->
  forall m, (n <= m)%nat -> appender_run m pg a = appender_run n pg a.
Proof.
  revert pg a. induction n as [|n IH]; intros pg a Hr m Hm.
  - simpl in *. apply (appender_run_done _ _ _ r). exact Hr.
  - destruct m as [|m]; [lia|]. simpl in *.
    destruct (a_pc a) eqn:Hpc; try reflexivity;
      destruct (appender_step pg a) as [pg' a']; apply IH; auto; lia.
Qed.

Lemma returns_within_more n m pg a :
  returns_within n pg a -> (n <= m)%nat -> returns_within m pg a.
Proof.
  intros [r Hr] Hm. exists r. rewrite (appender_run_more n pg a r Hr m Hm).
  exact Hr.
Qed.

Lemma returns_within_step n pg a :
  returns_within n (appender_step pg a).1 (appender_step pg a).2 ->
  returns_within (S n) pg a.
Proof.
  intros [r Hr]. unfold returns_within. simpl.
  destruct (a_pc a) eqn:Hpc;
    destruct (appender_step pg a) as [pg' a']; eauto.
Qed.

Lemma returns_within_done n pg a r : a_pc a = AReturn r -> returns_within n pg a.
Proof.
  intros Hr. exists r. rewrite (appender_run_done _ _ _ r Hr). exact Hr.
Qed.

Lemma appender_step_ok pg a :
  layout_ok -> page_ok pg -> appender_ok pg a ->
  page_ok (appender_step pg a).1 /\
  appender_ok (appender_step pg a).1 (appender_step pg a).2 /\
  a_size (appender_step pg a).2 = a_size a.
Proof.
  intros HL Hok [Hs Hpc]. unfold appender_step.
  pose proof (appendEntry_step_ok (a_size a) (a_type a) pg (a_pc a)
                HL Hok Hs Hpc) as (H1 & H2 & _).
  destruct (appendEntry_step _ _ _ pg (a_pc a)) as [pg' pc']. simpl in *.
  split_and!; auto. split; assumption.
Qed.

(** The publishing loop ends after two rounds. *)
Lemma publish_returns pg a off pos :
  layout_ok -> page_ok pg -> appender_ok pg a -> a_pc a = APublish off pos ->
  returns_within 2 pg a.
Proof.
  intros HL Hok Ha Hpc. apply returns_within_step.
  destruct a as [size type pc]. simpl in Hpc. subst pc.
  unfold appender_step. cbn [a_pc a_size a_type appendEntry_step].
  set (nOff := u32 (Z.lor (u32 (Z.shiftl (u32 (pos + entrySizeFromSize size)) 1)) 1)).
  destruct (off <? nOff) eqn:Hlt;
    [|apply (returns_within_done _ _ _ (Some pos)); reflexivity].
  unfold compare_exchange_strong.
  destruct (Z.eqb_spec (mOffset pg) off) as [He|Hne];
    [apply (returns_within_done _ _ _ (Some pos)); reflexivity|].
  destruct (_ =? 0);
    [destruct (_ >=? _);
     [apply (returns_within_done _ _ _ (Some pos))
     |apply (returns_within_done _ _ _ None)]; reflexivity|].
  cbn [fst snd]. apply returns_within_step.
  unfold appender_step. cbn [a_pc a_size a_type appendEntry_step].
  fold nOff. destruct (mOffset pg <? nOff);
    [|apply (returns_within_done _ _ _ (Some pos)); reflexivity].
  unfold compare_exchange_strong. rewrite Z.eqb_refl.
  apply (returns_within_done _ _ _ (Some pos)). reflexivity.
Qed.

(** The probing loop ends before it leaves the page. *)
Lemma probe_returns n :
  layout_ok -> forall pg a off pos,
  page_ok pg -> appender_ok pg a -> a_pc a = AProbe off pos ->
  MAX_ENTRY_SIZE - pos < 16 * (Z.of_nat n + 1) ->
  returns_within (4 + n) pg a.
Proof.
  intros HLay. pose proof HLay as (HL & HH & HH8 & HP & HP30).
  assert (HM : MAX_ENTRY_SIZE < 2 ^ 30) by (unfold MAX_ENTRY_SIZE; lia).
  induction n as [|n IH]; intros pg a off pos Hok Ha Hpc Hn;
    (apply returns_within_step;
     pose proof (appender_step_ok pg a HLay Hok Ha) as (Hok' & Ha' & Hsz);
     destruct a as [size type pc]; simpl in Hpc; subst pc;
     pose proof Ha as [Hs (Hp1 & Hp2 & _)]; simpl in Hs, Hsz;
     pose proof (entrySizeFromSize_bounds size HL ltac:(lia)) as Hesz;
     pose proof (entrySizeFromSize_mod16 size) as Hesz16;
     revert Hok' Ha'; unfold appender_step;
     cbn [a_pc a_size a_type appendEntry_step];
     rewrite (u32_small (pos + entrySizeFromSize size)) by lia;
     destruct (Z.gtb_spec (pos + entrySizeFromSize size) MAX_ENTRY_SIZE);
     [intros _ _; apply (returns_within_done _ _ _ None); reflexivity|]).
  - lia.
  - unfold tryAcquire_cas, compare_exchange_strong.
    destruct (Z.eqb_spec (mSize (entry_at pg pos)) 0) as [H0|Hnz];
      cbn [negb fst snd].
    + intros Hok' Ha'. apply returns_within_step.
      pose proof (appender_step_ok _ _ HLay Hok' Ha') as (Hok2 & Ha2 & _).
      revert Hok2 Ha2. unfold appender_step at 1 2 3.
      cbn [a_pc a_size a_type appendEntry_step fst snd]. intros Hok2 Ha2.
      eapply returns_within_more;
        [eapply publish_returns; try eassumption; reflexivity|lia].
    + destruct (page_ok_entry pg pos Hok Hnz) as (s' & Hacq & Hb1 & Hb2 & Hb3).
      rewrite (acquired_shiftr _ _ _ Hacq).
      assert (Hs' : 0 <= s' < 2 ^ 31) by (destruct Hacq; lia).
      pose proof (entrySizeFromSize_pos s' HL Hs') as Hpos'.
      destruct (Z.eqb_spec (entrySizeFromSize s') 0); [lia|].
      cbn [negb fst snd]. rewrite u32_small by lia. intros Hok' Ha'.
      eapply (IH pg _ off (pos + entrySizeFromSize s')); try eassumption;
        [reflexivity|lia].
Qed.

(** A call that runs alone returns. *)
Lemma appender_returns pg a :
  layout_ok -> page_ok pg -> appender_ok pg a ->
  returns_within (5 + Z.to_nat (MAX_ENTRY_SIZE / 16)) pg a.
Proof.
  intros HLay Hok Ha. set (N := Z.to_nat (MAX_ENTRY_SIZE / 16)).
  pose proof HLay as (HL & HH & HH8 & HP & HP30).
  assert (HN : forall pos, 0 <= pos -> MAX_ENTRY_SIZE - pos < 16 * (Z.of_nat N + 1)).
  { intros pos Hpos. unfold N. rewrite Z2Nat.id; unfold MAX_ENTRY_SIZE; lia. }
  destruct (a_pc a) as [|off pos|off pos|off pos|r] eqn:Hpc.
  - apply returns_within_step.
    pose proof (appender_step_ok pg a HLay Hok Ha) as (Hok' & Ha' & _).
    destruct (a_pc (appender_step pg a).2) as [|off pos|off pos|off pos|r]
      eqn:Hpc'.
    + exfalso. revert Hpc'. unfold appender_step. rewrite Hpc. simpl.
      destruct (_ =? 0); discriminate.
    + eapply probe_returns; try eassumption. apply HN.
      destruct Ha' as [_ Hp]. rewrite Hpc' in Hp. simpl in Hp. lia.
    + exfalso. revert Hpc'. unfold appender_step. rewrite Hpc. simpl.
      destruct (_ =? 0); discriminate.
    + exfalso. revert Hpc'. unfold appender_step. rewrite Hpc. simpl.
      destruct (_ =? 0); discriminate.
    + eapply returns_within_done. eassumption.
  - eapply returns_within_more; [eapply (probe_returns N)|lia]; try eassumption.
    apply HN. destruct Ha as [_ Hp]. rewrite Hpc in Hp. simpl in Hp. lia.
  - apply returns_within_step.
    pose proof (appender_step_ok pg a HLay Hok Ha) as (Hok' & Ha' & _).
    eapply returns_within_more;
      [eapply (publish_returns _ _ off pos); try eassumption|lia].
    unfold appender_step. rewrite Hpc. reflexivity.
  - eapply returns_within_more;
      [eapply publish_returns; try eassumption|lia].
  - eapply returns_within_done. eassumption.
Qed.

(** X10.  From any state that calls of [LogPage::append] and seals
    reach in any interleaving, a thread that runs alone returns from
    its call: the probing loop moves forward by a taken entry in each
    round and ends where the page ends, and the publishing loop ends
    after two rounds.  The number of steps is at most 5 more than the
    number of 16-byte units of a page. *)
Theorem append_alone_returns (sched : list page_event) (tid : nat)
    (a : appender) :
  layout_ok ->
  (page_run sched).2 !! tid = Some a ->
  returns_within (5 + Z.to_nat (MAX_ENTRY_SIZE / 16)) (page_run sched).1 a.
Proof.
  intros HLay Htid.
  destruct (page_run_ok sched HLay) as [Hok Hts].
  apply appender_returns; [assumption|assumption|].
  exact (Forall_lookup_1 _ _ _ _ Hts Htid).
Qed.


(** *** What [freePage] frees *)

Lemma page_seg_unique ps b e l l' :
  page_seg ps b e l -> page_seg ps b e l' -> l = l'.
Proof.
  intros H. revert l'. induction H as [e|p pg e l Hne Hp Hseg IH]; intros l' H'.
  - inversion H'; subst; [reflexivity|congruence].
  - inversion H' as [|p' pg' e' l2 Hne' Hp' Hseg']; subst; [congruence|].
    rewrite Hp in Hp'. injection Hp' as <-. f_equal. apply IH. exact Hseg'.
Qed.

Lemma page_seg_suffix ps b e l1 q l2 :
  page_seg ps b e (l1 ++ q :: l2) -> page_seg ps (Some q) e (q :: l2).
Proof.
  revert b. induction l1 as [|x l1 IH]; intros b H; simpl in H.
  - inversion H; subst. exact H.
  - inversion H; subst. eapply IH. eassumption.
Qed.

Lemma page_seg_NoDup ps b e l : page_seg ps b e l -> NoDup l.
Proof.
  intros H. induction H as [e|p pg e l Hne Hp Hseg IH]; [constructor|].
  constructor; [|exact IH]. intros Hin.
  apply list_elem_of_split in Hin as (l1 & l2 & ->).
  pose proof (page_seg_suffix _ _ _ _ _ _ Hseg) as Hsuf.
  assert (Hall : page_seg ps (Some p) e (p :: l1 ++ p :: l2))
    by (econstructor; eassumption).
  pose proof (page_seg_unique _ _ _ _ _ Hall Hsuf) as Heq.
  apply (f_equal length) in Heq. simpl in Heq. rewrite length_app in Heq.
  simpl in Heq. lia.
Qed.

Lemma page_seg_elem ps b e l p :
  page_seg ps b e l -> p ∈ l -> Some p <> e /\ is_Some (ps !! p).
Proof.
  intros H. induction H as [e|q pg e l Hne Hq Hseg IH]; intros Hin.
  - apply elem_of_nil in Hin. contradiction.
  - apply elem_of_cons in Hin as [->|Hin]; [split; [assumption|eauto]|auto].
Qed.

Lemma page_seg_app ps b m e l1 l2 :
  page_seg ps b m l1 -> page_seg ps m e l2 ->
  (forall p, p ∈ l1 -> Some p <> e) ->
  page_seg ps b e (l1 ++ l2).
Proof.
  intros H1 H2. induction H1 as [m|p pg m l Hne Hp Hseg IH]; intros Hno.
  - exact H2.
  - simpl. econstructor; [apply Hno; apply list_elem_of_here|exact Hp|].
    apply IH; [exact H2|]. intros q Hq. apply Hno. apply list_elem_of_further.
    exact Hq.
Qed.

Lemma freePage_run_length fuel ps b e l :
  freePage_run fuel ps b e = Some l -> (length l <= fuel)%nat.
Proof.
  revert b l. induction fuel as [|fuel IH]; intros b l; simpl;
    destruct (decide (b = e)); intros H; try (injection H as <-; simpl; lia);
    try discriminate.
  destruct b as [p|]; [|discriminate].
  destruct (ps !! p) as [pg|]; [|discriminate].
  destruct (freePage_run fuel ps (mNext pg) e) as [l'|] eqn:Hl; [|discriminate].
  injection H as <-. simpl. apply IH in Hl. lia.
Qed.

(** X11.  When the walk of [freePage] ends, it has freed the pages on
    the chain from [begin] up to and without [end], each of them once
    and none of them [end]; a walk that meets a null link or a page
    that is gone before it meets [end] does not end this way. *)
Theorem freePage_frees (fuel : nat) (ps : gmap page_id LogPage)
    (begin end_ : option page_id) (l : list page_id) :
  freePage_run fuel ps begin end_ = Some l ->
  page_seg ps begin end_ l /\ NoDup l /\
  (forall p, p ∈ l -> Some p <> end_ /\ is_Some (ps !! p)) /\
  (forall fuel', (length l <= fuel')%nat ->
     freePage_run fuel' ps begin end_ = Some l).
Proof.
  intros H. pose proof (freePage_run_sound _ _ _ _ _ H) as Hseg.
  split_and!; auto.
  - eapply page_seg_NoDup. eassumption.
  - intros p Hp. eapply page_seg_elem; eassumption.
  - intros fuel' Hf. eapply freePage_run_seg; eassumption.
Qed.

(** X12.  Two walks of [freePage], from [begin] to [mid] and from [mid]
    to [end], free the pages that one walk from [begin] to [end] frees,
    when [end] is not among the pages of the first walk: truncating the
    log in two steps releases what truncating it in one step
    releases. *)
Theorem freePage_split (fuel1 fuel2 : nat) (ps : gmap page_id LogPage)
    (begin mid end_ : option page_id) (l1 l2 : list page_id) :
  freePage_run fuel1 ps begin mid = Some l1 ->
  freePage_run fuel2 ps mid end_ = Some l2 ->
  (forall p, p ∈ l1 -> Some p <> end_) ->
  freePage_run (fuel1 + fuel2) ps begin end_ = Some (l1 ++ l2).
Proof.
  intros H1 H2 Hno.
  pose proof (freePage_run_length _ _ _ _ _ H1).
  pose proof (freePage_run_length _ _ _ _ _ H2).
  apply freePage_run_seg.
  - eapply page_seg_app; [| |exact Hno]; eapply freePage_run_sound; eassumption.
  - rewrite length_app. lia.
Qed.


(** *** The unordered log, one thread at a time *)

Lemma u64_inc_dec m : 0 <= m < 2 ^ 64 - 1 -> u64 (u64 (m + 1) - 1) = m.
Proof.
  intros H. rewrite (u64_small (m + 1)) by lia.
  replace (m + 1 - 1) with m by lia. apply u64_small. lia.
Qed.

(** A page that is acquired, linked and given back leaves the log as
    it was. *)
Lemma link_new_head_spec st0 alloc st1 n next :
  uacquirePage st0 alloc = Some (st1, n) -> 0 <= mPages st0 < 2 ^ 64 - 1 ->
  uPages st0 !! n = None /\
  link_new_head st1 n next
  = mkUnorderedLog (<[n := set_next fresh_page next]> (uPages st0))
                   (uHead st0) (uTail st0) (mPages st0 + 1) (uReclaim st0) /\
  drop_new_head (link_new_head st1 n next) n = st0.
Proof.
  unfold uacquirePage. destruct alloc as [p|]; [|discriminate].
  destruct (uPages st0 !! p) eqn:Hp; [discriminate|].
  intros [= <- <-] Hm. split; [exact Hp|].
  unfold link_new_head, drop_new_head, ufree_page, uset_count, uset_page.
  simpl. rewrite lookup_insert_eq. simpl. rewrite insert_insert_eq.
  rewrite u64_inc_dec by lia. rewrite (u64_small (mPages st0 + 1)) by lia.
  split; [reflexivity|]. rewrite delete_insert_eq, delete_id by exact Hp.
  destruct st0. reflexivity.
Qed.

(** One round of the loop of [createPage] with the head as it is. *)
Lemma createPage_loop_fresh fuel st0 w allocs st' h allocs' :
  createPage_loop fuel st0 (Some w) (uHead st0) allocs = Some (st', h, allocs') ->
  writeHead (uHead st0) = Some w -> 0 <= mPages st0 < 2 ^ 64 - 1 ->
  (h = mkLogHead None None /\ st' = st0) \/
  (exists a, appendHead (uHead st0) = Some a /\
     h = mkLogHead (Some a) None /\ st' = uset_head st0 h) \/
  (exists n, appendHead (uHead st0) = None /\ uPages st0 !! n = None /\
     h = mkLogHead (Some n) None /\
     st' = mkUnorderedLog (<[n := set_next fresh_page (Some w)]> (uPages st0))
                          h (uTail st0) (mPages st0 + 1) (uReclaim st0)).
Proof.
  destruct fuel as [|fuel]; [simpl; discriminate|].
  cbn [createPage_loop]. intros H Hw Hm.
  destruct (appendHead (uHead st0)) as [a|] eqn:Ha.
  - rewrite decide_True in H by reflexivity. injection H as <- <- <-.
    right. left. exists a. auto.
  - destruct allocs as [|alloc allocs]; [discriminate|].
    destruct (uacquirePage st0 alloc) as [[st1 n]|] eqn:Hacq.
    + destruct (link_new_head_spec _ _ _ _ (writeHead (uHead st0)) Hacq Hm)
        as (Hn & Hlink & _).
      rewrite Hlink in H. simpl in H.
      rewrite decide_True in H by reflexivity.
      injection H as <- <- <-. right. right. exists n.
      split_and!; auto. unfold uset_head. simpl. rewrite Hw. reflexivity.
    + injection H as <- <- <-. left. auto.
Qed.

(** The ways a call of [createPage] ends. *)
Lemma createPage_cases (fuel : nat) (st : UnorderedLog) (oldHead : LogHead)
    (allocs : list (option page_id)) (st' : UnorderedLog) (h : LogHead)
    (allocs' : list (option page_id)) :
  0 <= mPages st < 2 ^ 64 - 1 ->
  createPage fuel st oldHead allocs = Some (st', h, allocs') ->
  exists w pg,
    writeHead oldHead = Some w /\ uPages st !! w = Some pg /\
    ((h = mkLogHead None None /\ st' = uset_page st w (seal_page pg)) \/
     (h = uHead st /\ uHead st <> oldHead /\ writeHead (uHead st) <> Some w /\
      st' = uset_page st w (seal_page pg)) \/
     (exists a, appendHead (uHead st) = Some a /\
        writeHead (uHead st) = Some w /\ h = mkLogHead (Some a) None /\
        st' = uset_head (uset_page st w (seal_page pg)) h) \/
     (exists n, appendHead (uHead st) = None /\
        writeHead (uHead st) = Some w /\ uPages st !! n = None /\ n <> w /\
        h = mkLogHead (Some n) None /\
        st' = mkUnorderedLog
                (<[n := set_next fresh_page (Some w)]>
                   (<[w := seal_page pg]> (uPages st)))
                h (uTail st) (mPages st + 1) (uReclaim st))).
Proof.
  intros Hm. unfold createPage.
  destruct (writeHead oldHead) as [w|] eqn:Hw; [|discriminate].
  destruct (uPages st !! w) as [pg|] eqn:Hpg; [|discriminate].
  set (st0 := uset_page st w (seal_page pg)).
  assert (Hfresh : forall fuel allocs,
            createPage_loop fuel st0 (Some w) (uHead st0) allocs
            = Some (st', h, allocs') ->
            writeHead (uHead st) = Some w ->
            (h = mkLogHead None None /\ st' = st0) \/
            (h = uHead st /\ uHead st <> oldHead /\
             writeHead (uHead st) <> Some w /\ st' = st0) \/
            (exists a, appendHead (uHead st) = Some a /\
               writeHead (uHead st) = Some w /\ h = mkLogHead (Some a) None /\
               st' = uset_head st0 h) \/
            (exists n, appendHead (uHead st) = None /\
               writeHead (uHead st) = Some w /\ uPages st !! n = None /\
               n <> w /\ h = mkLogHead (Some n) None /\
               st' = mkUnorderedLog
                       (<[n := set_next fresh_page (Some w)]>
                          (<[w := seal_page pg]> (uPages st)))
                       h (uTail st) (mPages st + 1) (uReclaim st))).
  { intros fuel0 allocs0 H Hcur.
    destruct (createPage_loop_fresh _ _ _ _ _ _ _ H Hcur Hm)
      as [[-> ->]|[(a & Ha & -> & ->)|(n & Ha & Hn & -> & ->)]]; auto.
    - right. right. left. exists a. auto.
    - right. right. right. exists n. simpl in Hn.
      assert (Hnw : n <> w).
      { intros ->. unfold st0 in Hn. simpl in Hn.
        rewrite lookup_insert_eq in Hn. discriminate. }
      unfold st0 in Hn. simpl in Hn. rewrite lookup_insert_ne in Hn by auto.
      split_and!; auto. }
  intros H. exists w, pg. split; [reflexivity|]. split; [exact Hpg|].
  destruct (decide (uHead st = oldHead)) as [Heq|Hne].
  { subst oldHead. apply (Hfresh fuel allocs); [exact H|exact Hw]. }
  destruct fuel as [|fuel]; [simpl in H; discriminate|].
  cbn [createPage_loop] in H.
  destruct (appendHead oldHead) as [a|] eqn:Ha.
  - rewrite decide_False in H by exact Hne.
    change (uHead st0) with (uHead st) in H.
    destruct (decide (writeHead (uHead st) = Some w)) as [Hsame|Hdiff].
    + apply (Hfresh fuel allocs); [exact H|exact Hsame].
    + injection H as <- <- <-. right. left. auto.
  - destruct allocs as [|alloc allocs]; [discriminate|].
    destruct (uacquirePage st0 alloc) as [[st1 n]|] eqn:Hacq.
    + destruct (link_new_head_spec _ _ _ _ (writeHead oldHead) Hacq Hm)
        as (Hn & Hlink & Hback).
      rewrite Hback in H. rewrite Hlink in H. simpl in H.
      rewrite decide_False in H by exact Hne.
      change (uHead st0) with (uHead st) in H.
      destruct (decide (writeHead (uHead st) = Some w)) as [Hsame|Hdiff].
      * apply (Hfresh fuel allocs); [exact H|exact Hsame].
      * injection H as <- <- <-. right. left. auto.
    + injection H as <- <- <-. left. auto.
Qed.



(** *** The page counter of the unordered log *)

(** A chain stays a chain when its pages keep their links. *)
Lemma page_seg_ext (ps ps' : gmap page_id LogPage) b e l :
  page_seg ps b e l ->
  (forall p pg, p ∈ l -> ps !! p = Some pg ->
     exists pg', ps' !! p = Some pg' /\ mNext pg' = mNext pg) ->
  page_seg ps' b e l.
Proof.
  intros H. induction H as [e|p pg e l Hne Hp Hseg IH]; intros Hext.
  - constructor.
  - destruct (Hext p pg (list_elem_of_here _ _) Hp) as (pg' & Hp' & Hn).
    econstructor; [exact Hne|exact Hp'|]. rewrite Hn. apply IH.
    intros q qg Hq. apply Hext. apply list_elem_of_further. exact Hq.
Qed.

Lemma page_seg_seal (ps : gmap page_id LogPage) w pg b e l :
  ps !! w = Some pg -> page_seg ps b e l ->
  page_seg (<[w := seal_page pg]> ps) b e l.
Proof.
  intros Hw H. eapply page_seg_ext; [exact H|].
  intros p pg0 _ Hp. destruct (decide (w = p)) as [->|Hne].
  - rewrite lookup_insert_eq. rewrite Hw in Hp. injection Hp as <-. eauto.
  - rewrite lookup_insert_ne by assumption. eauto.
Qed.

Lemma page_seg_insert_new (ps : gmap page_id LogPage) n pg b e l :
  ps !! n = None -> page_seg ps b e l -> page_seg (<[n := pg]> ps) b e l.
Proof.
  intros Hn H. eapply page_seg_ext; [exact H|].
  intros p pg0 _ Hp. rewrite lookup_insert_ne by congruence. eauto.
Qed.

(** X17.  [createPage] keeps the page counter right: if [mPages] is the
    number of pages linked from the head before the call, it is so
    after the call, on every path.  The chain stays as it is, or the
    new page is put before it, and the write head the call was given
    is sealed afterwards. *)
Theorem createPage_counted (fuel : nat) (st : UnorderedLog) (oldHead : LogHead)
    (allocs : list (option page_id)) (st' : UnorderedLog) (h : LogHead)
    (allocs' : list (option page_id)) (l : list page_id) :
  counted st l -> mPages st < 2 ^ 64 - 1 ->
  createPage fuel st oldHead allocs = Some (st', h, allocs') ->
  (counted st' l \/ exists n, uPages st !! n = None /\ counted st' (n :: l)) /\
  (exists w pg, writeHead oldHead = Some w /\ uPages st' !! w = Some pg /\
     Z.land (mOffset pg) 1 = 0).
Proof.
  intros [Hseg Hcount] Hm H.
  apply createPage_cases in H; [|lia].
  destruct H as (w & pg & Hw & Hpg & Hcases).
  assert (Hsealed : Z.land (mOffset (seal_page pg)) 1 = 0).
  { unfold seal_page. simpl. rewrite ldiff1, land1. lia. }
  pose proof (page_seg_seal _ _ _ _ _ _ Hpg Hseg) as Hseg0.
  destruct Hcases as [[-> ->]|[(-> & _ & _ & ->)|
    [(a & Ha & Hwh & -> & ->)|(n & Ha & Hwh & Hn & Hnw & -> & ->)]]].
  - split; [left; split; assumption|].
    exists w, (seal_page pg). simpl. rewrite lookup_insert_eq. auto.
  - split; [left; split; assumption|].
    exists w, (seal_page pg). simpl. rewrite lookup_insert_eq. auto.
  - split.
    + left. split; [|exact Hcount]. simpl.
      unfold head_page in Hseg0 |- *. rewrite Ha in Hseg0. exact Hseg0.
    + exists w, (seal_page pg). simpl. rewrite lookup_insert_eq. auto.
  - split.
    + right. exists n. split; [exact Hn|]. split; simpl.
      * unfold head_page. simpl.
        econstructor; [discriminate|apply lookup_insert_eq|]. simpl.
        apply page_seg_insert_new;
          [rewrite lookup_insert_ne by auto; exact Hn|].
        unfold head_page in Hseg0. rewrite Ha, Hwh in Hseg0. exact Hseg0.
      * rewrite Hcount. lia.
    + exists w, (seal_page pg). simpl.
      rewrite lookup_insert_ne by auto. rewrite lookup_insert_eq. auto.
Qed.

(** X18.  [appendPage] puts a chain of pages from [begin] to [end]
    before the pages of the log and keeps the page counter right: the
    pages linked from the head are then the pages of the chain, [end],
    and the pages that were linked from the head before, and [mPages]
    counts them.  The write head stays, [begin] is the append head, and
    the former append head is sealed. *)
Theorem appendPage_counted (fuel : nat) (st : UnorderedLog)
    (begin end_ : page_id) (seg l : list page_id) :
  counted st l ->
  page_seg (uPages st) (Some begin) (Some end_) seg ->
  is_Some (uPages st !! end_) ->
  (forall p, p ∈ seg ++ [end_] -> p ∉ l) ->
  (length seg <= fuel)%nat ->
  mPages st + Z.of_nat (length seg) + 1 < 2 ^ 64 ->
  exists st',
    appendPage fuel st begin end_ = Some st' /\
    counted st' (seg ++ end_ :: l) /\
    uHead st' = mkLogHead (writeHead (uHead st)) (Some begin) /\
    (forall a, appendHead (uHead st) = Some a ->
       exists pg, uPages st' !! a = Some pg /\ Z.land (mOffset pg) 1 = 0).
Proof.
  intros [Hseg Hcount] Hnew [epg Hepg] Hdisj Hfuel Hm.
  unfold appendPage.
  rewrite (count_pages_seg _ _ _ _ Hnew) by exact Hfuel. rewrite Hepg.
  assert (Hend : end_ ∉ l).
  { apply Hdisj. apply elem_of_app. right. apply list_elem_of_here. }
  assert (Hcnt : u64 (mPages st + (1 + Z.of_nat (length seg)))
                 = Z.of_nat (length (seg ++ end_ :: l))).
  { rewrite u64_small by lia. rewrite length_app. simpl. lia. }
  set (next := match appendHead (uHead st) with
               | Some a => Some a
               | None => writeHead (uHead st)
               end).
  set (ps1 := <[end_ := set_next epg next]> (uPages st)).
  (* the chain in the pages with the link of [end] set *)
  assert (Hchain1 : page_seg ps1 (Some begin) None (seg ++ end_ :: l)).
  { apply (page_seg_app _ _ (Some end_)).
    - eapply page_seg_ext; [exact Hnew|]. intros p pg Hp Hpg.
      destruct (page_seg_elem _ _ _ _ _ Hnew Hp) as [Hne _].
      unfold ps1. rewrite lookup_insert_ne by congruence. eauto.
    - econstructor; [discriminate|apply lookup_insert_eq|]. simpl.
      eapply page_seg_ext; [exact Hseg|]. intros p pg Hp Hpg.
      unfold ps1. rewrite lookup_insert_ne by (intros <-; contradiction).
      eauto.
    - intros p _. discriminate. }
  destruct (appendHead (uHead st)) as [a|] eqn:Ha.
  - (* the former append head is the first page of [l] *)
    assert (Hal : a ∈ l /\ is_Some (uPages st !! a)).
    { unfold head_page in Hseg. rewrite Ha in Hseg.
      inversion Hseg; subst. split; [apply list_elem_of_here|eauto]. }
    destruct Hal as [Hal [apg Hapg]].
    assert (Ha1 : ps1 !! a = Some apg).
    { unfold ps1. rewrite lookup_insert_ne by (intros <-; contradiction).
      exact Hapg. }
    rewrite Ha1. eexists. split; [reflexivity|]. split_and!.
    + split; [|exact Hcnt]. simpl. unfold head_page. simpl.
      apply page_seg_seal; assumption.
    + reflexivity.
    + intros a' [= <-]. exists (seal_page apg). simpl.
      rewrite lookup_insert_eq. split; [reflexivity|].
      unfold seal_page. simpl. rewrite ldiff1, land1. lia.
  - eexists. split; [reflexivity|]. split_and!.
    + split; [|exact Hcnt]. exact Hchain1.
    + reflexivity.
    + discriminate.
Qed.


(** Where the rest of a chain starts. *)
Lemma page_seg_split (ps : gmap page_id LogPage) b e l1 l2 :
  page_seg ps b e (l1 ++ l2) ->
  page_seg ps b (match l2 with [] => e | q :: _ => Some q end) l1 /\
  page_seg ps (match l2 with [] => e | q :: _ => Some q end) e l2.
Proof.
  intros H. pose proof (page_seg_NoDup _ _ _ _ H) as Hnd.
  revert b H Hnd. induction l1 as [|x l1 IH]; intros b H Hnd; simpl in *.
  - assert (Hb : b = match l2 with [] => e | q :: _ => Some q end).
    { inversion H; subst; reflexivity. }
    rewrite <- Hb. split; [constructor|exact H].
  - inversion H as [|p pg e' l' Hne Hp Hseg]; subst.
    apply NoDup_cons in Hnd as [Hx Hnd].
    destruct (IH _ Hseg Hnd) as [H1 H2]. split; [|exact H2].
    econstructor; [|exact Hp|exact H1].
    destruct l2 as [|q l2]; [exact Hne|].
    intros [= ->]. apply Hx. apply elem_of_app. right. apply list_elem_of_here.
Qed.

(** X19.  [erase] takes the pages between [begin] and [end] out of the
    chain and keeps the page counter right: if the pages linked from
    the head are [l1], [begin], [mid] and [rest], where [rest] starts
    with [end] (or is empty and [end] is null), then after [erase] they
    are [l1], [begin] and [rest], [mPages] counts them, and the walk of
    [freePage] that [erase] hands to the reclamation frees the pages
    [mid]. *)
Theorem erase_counted (fuel : nat) (st : UnorderedLog) (begin : page_id)
    (end_ : option page_id) (l1 mid rest : list page_id) :
  counted st (l1 ++ begin :: mid ++ rest) -> mPages st < 2 ^ 64 ->
  end_ = match rest with [] => None | q :: _ => Some q end ->
  (length mid <= fuel)%nat ->
  exists st',
    erase fuel st begin end_ = Some st' /\
    counted st' (l1 ++ begin :: rest) /\
    uHead st' = uHead st /\
    uReclaim st' =
      uReclaim st ++
      match mid with [] => [] | m :: _ => [(Some m, end_)] end /\
    freePage_run fuel (uPages st')
      (match mid with [] => end_ | m :: _ => Some m end) end_ = Some mid.
Proof.
  intros [Hseg Hcount] H64 Hend Hfuel.
  pose proof (page_seg_NoDup _ _ _ _ Hseg) as Hnd.
  apply NoDup_app in Hnd as (Hnd1 & Hd1 & Hnd2).
  apply NoDup_cons in Hnd2 as [Hb Hnd2].
  apply NoDup_app in Hnd2 as (Hndm & Hdm & Hndr).
  destruct (page_seg_split _ _ _ _ _ Hseg) as [HA HB].
  inversion HB as [|p pg e' l' Hne Hpg Hrest]; subst p e' l'.
  destruct (page_seg_split _ _ _ _ _ Hrest) as [HM HR].
  rewrite <- Hend in HM, HR.
  assert (Hbe : Some begin <> end_).
  { rewrite Hend. destruct rest as [|q rest]; [discriminate|].
    intros [= <-]. apply Hb. apply elem_of_app. right. apply list_elem_of_here. }
  set (ps' := <[begin := set_next pg end_]> (uPages st)).
  assert (Hother : forall (b e : option page_id) l,
            page_seg (uPages st) b e l -> begin ∉ l -> page_seg ps' b e l).
  { intros b e l H Hn. eapply page_seg_ext; [exact H|].
    intros p pg0 Hp Hpg0. unfold ps'.
    rewrite lookup_insert_ne by (intros <-; contradiction). eauto. }
  assert (HM' : page_seg ps' (mNext pg) end_ mid).
  { apply Hother; [exact HM|]. intros Hin. apply Hb. apply elem_of_app. auto. }
  assert (Hchain : page_seg ps' (head_page (uHead st)) None
                     (l1 ++ begin :: rest)).
  { apply (page_seg_app _ _ (Some begin)).
    - apply Hother; [exact HA|]. intros Hin.
      apply (Hd1 _ Hin). apply list_elem_of_here.
    - econstructor; [discriminate|apply lookup_insert_eq|]. simpl.
      apply Hother; [exact HR|]. intros Hin. apply Hb. apply elem_of_app. auto.
    - intros p _. discriminate. }
  assert (Hstart : mNext pg = match mid with [] => end_ | m :: _ => Some m end).
  { inversion HM; subst; reflexivity. }
  assert (Hlen : mPages st
                 = Z.of_nat (length (l1 ++ begin :: rest))
                   + Z.of_nat (length mid)).
  { rewrite Hcount. rewrite !length_app. simpl. rewrite length_app. lia. }
  unfold erase. rewrite decide_False by exact Hbe. rewrite Hpg. fold ps'.
  destruct (decide (mNext pg = end_)) as [Hnext|Hnext].
  - assert (Hmid : mid = []).
    { rewrite Hnext in HM.
      apply (page_seg_unique _ _ _ _ _ HM). constructor. }
    subst mid. simpl in Hlen. eexists. split; [reflexivity|]. simpl.
    split_and!; auto.
    + split; [exact Hchain|]. simpl. lia.
    + rewrite app_nil_r. reflexivity.
    + apply (freePage_run_seg _ _ _ []); [constructor|simpl; lia].
  - rewrite (count_pages_seg _ _ _ _ HM') by exact Hfuel.
    eexists. split; [reflexivity|]. simpl. split_and!; auto.
    + split; [exact Hchain|]. simpl. rewrite u64_small; lia.
    + destruct mid as [|m mid]; [congruence|]. rewrite Hstart. reflexivity.
    + rewrite <- Hstart. apply freePage_run_seg; assumption.
Qed.


(** *** No page of the ordered log is lost *)

Lemma set_page_is_Some st q pg p :
  is_Some (oPages st !! q) ->
  is_Some (oPages (set_page st q pg) !! p) -> is_Some (oPages st !! p).
Proof.
  intros Hq. unfold set_page. simpl. destruct (decide (q = p)) as [->|Hne].
  - intros _. exact Hq.
  - rewrite lookup_insert_ne by assumption. auto.
Qed.

(** A step of a thread adds a page only as the page the thread holds,
    and a page the thread held is still held, or given back, or linked
    behind a page of the chain. *)
Lemma thread_step_pages alloc l st t :
  is_chain st l -> thread_ok st l t ->
  (forall p, is_Some (oPages (thread_step alloc st t).1.1 !! p) ->
     is_Some (oPages st !! p) \/ npage (thread_step alloc st t).1.2 = Some p) /\
  (forall p, npage t = Some p ->
     npage (thread_step alloc st t).1.2 = Some p \/
     oPages (thread_step alloc st t).1.1 !! p = None \/
     exists q, q ∈ l /\ mNext (opage (thread_step alloc st t).1.1 q) = Some p).
Proof.
  intros Hc Hok.
  destruct (thread_step alloc st t) as [[st' t'] h] eqn:Hstep. cbn [fst snd].
  assert (Hsame : oPages st' = oPages st -> npage t = None ->
            (forall p, is_Some (oPages st' !! p) ->
               is_Some (oPages st !! p) \/ npage t' = Some p) /\
            (forall p, npage t = Some p ->
               npage t' = Some p \/ oPages st' !! p = None \/
               exists q, q ∈ l /\ mNext (opage st' q) = Some p)).
  { intros Hr Hn. rewrite Hr, Hn. split; [auto|discriminate]. }
  assert (Hset : forall q pg,
            st' = set_page st q pg -> is_Some (oPages st !! q) ->
            npage t = None ->
            (forall p, is_Some (oPages st' !! p) ->
               is_Some (oPages st !! p) \/ npage t' = Some p) /\
            (forall p, npage t = Some p ->
               npage t' = Some p \/ oPages st' !! p = None \/
               exists q0, q0 ∈ l /\ mNext (opage st' q0) = Some p)).
  { intros q pg -> Hq Hn. rewrite Hn. split; [|discriminate].
    intros p Hp. left. exact (set_page_is_Some st q pg p Hq Hp). }
  destruct t as [| | | | | | |size type oldHead|size type oldHead n
                 |size type n next| | | | | | | | |];
    try solve
      [simpl in Hok, Hstep; unfold with_page in Hstep;
       repeat match type of Hstep with
              | context [match ?x with _ => _ end] => destruct x eqn:?
              end;
       injection Hstep as <- <- <-;
       first [apply Hsame; reflexivity
             |eapply Hset; [reflexivity|eauto|reflexivity]]].
  - (* a page is acquired *)
    simpl in Hstep. unfold acquirePage in Hstep.
    destruct alloc as [n|]; [|injection Hstep as <- <- <-; apply Hsame; reflexivity].
    destruct (oPages st !! n) eqn:Hn;
      injection Hstep as <- <- <-; [apply Hsame; reflexivity|].
    simpl. split; [|discriminate]. intros p Hp.
    destruct (decide (n = p)) as [->|Hne]; [right; reflexivity|].
    rewrite lookup_insert_ne in Hp by assumption. left. exact Hp.
  - (* the page is linked, or another page was *)
    simpl in Hok, Hstep. unfold with_page in Hstep.
    destruct Hok as (_ & Hin & _ & Hfresh).
    destruct (oPages st !! oldHead) as [pg|] eqn:Hpg.
    + destruct (mNext pg) as [nx|] eqn:Hnext; injection Hstep as <- <- <-;
        simpl.
      * split; [auto|]. intros q [= <-]. left. reflexivity.
      * split.
        -- intros q Hq. left.
           refine (set_page_is_Some st oldHead _ q _ Hq). eauto.
        -- intros q [= <-]. right. right. exists oldHead. split; [exact Hin|].
           rewrite opage_set_page, decide_True by reflexivity. reflexivity.
    + rewrite (is_chain_lookup _ _ _ Hc Hin) in Hpg. discriminate.
  - (* the page is given back *)
    simpl in Hstep. injection Hstep as <- <- <-. simpl. split.
    + intros p Hp. left. destruct (decide (n = p)) as [->|Hne].
      * rewrite lookup_delete_eq in Hp. destruct Hp. discriminate.
      * rewrite lookup_delete_ne in Hp by assumption. exact Hp.
    + intros p [= <-]. right. left. apply lookup_delete_eq.
Qed.


Lemma log_step_held l l' s ev :
  log_inv l s -> pages_held l s ->
  log_inv l' (log_step s ev) -> (forall p, p ∈ l -> p ∈ l') ->
  pages_held l' (log_step s ev).
Proof.
  intros Hinv Hheld Hinv' Hsub.
  assert (Hsame : forall ts' hs',
            (forall (tid : nat) t, sys_threads s !! tid = Some t ->
               npage t <> None -> ts' !! tid = Some t) ->
            pages_held l' (mkLogSys (sys_log s) ts' hs')).
  { intros ts' hs' Hkeep p Hp. simpl in Hp.
    destruct (Hheld p Hp) as [Hin|(tid & t & Ht & Hn)]; [left; auto|].
    right. exists tid, t. split; [|exact Hn]. simpl. apply Hkeep; [exact Ht|].
    congruence. }
  assert (Hself : pages_held l' s).
  { destruct s as [st ts hs]. apply Hsame. auto. }
  assert (Hidle : forall (tid : nat) u hs',
            sys_threads s !! tid = Some TIdle ->
            pages_held l' (mkLogSys (sys_log s) (<[tid := u]> (sys_threads s)) hs')).
  { intros tid u hs' Htid. apply Hsame. intros tid0 t0 Ht0 Hn0.
    destruct (decide (tid = tid0)) as [->|Hne].
    - rewrite Htid in Ht0. injection Ht0 as <-. simpl in Hn0. congruence.
    - rewrite list_lookup_insert_ne by assumption. exact Ht0. }
  destruct ev as [|tid size type|tid entry|tid alloc]; simpl in *.
  - apply Hsame. intros tid t Ht _.
    rewrite lookup_app_l by (eapply lookup_lt_Some; eassumption). exact Ht.
  - destruct (sys_threads s !! tid) as [[]|] eqn:Ht; try exact Hself.
    destruct (_ && _); [|exact Hself]. apply Hidle. exact Ht.
  - destruct (sys_threads s !! tid) as [[]|] eqn:Ht; try exact Hself.
    destruct (decide _); [|exact Hself]. apply Hidle. exact Ht.
  - destruct (sys_threads s !! tid) as [t|] eqn:Ht; [|exact Hself].
    destruct Hinv as (Hc & _ & _ & _ & _ & Hts & _).
    pose proof (Forall_lookup_1 _ _ _ _ Hts Ht) as Hok.
    pose proof (thread_step_pages alloc l (sys_log s) t Hc Hok) as [Hnew Hold].
    destruct (thread_step alloc (sys_log s) t) as [[st' t'] h]. simpl in *.
    destruct Hinv' as (Hc' & _).
    assert (Htid : <[tid := t']> (sys_threads s) !! tid = Some t').
    { apply list_lookup_insert_eq. eapply lookup_lt_Some. eassumption. }
    intros p Hp. simpl in Hp.
    destruct (Hnew p Hp) as [Hp0|Hn]; [|right; exists tid, t'; auto].
    destruct (Hheld p Hp0) as [Hin|(tid0 & t0 & Ht0 & Hn0)]; [left; auto|].
    destruct (decide (tid = tid0)) as [<-|Hne].
    + rewrite Ht in Ht0. injection Ht0 as <-.
      destruct (Hold p Hn0) as [Hn|[Hnone|(q & Hq & Hnext)]].
      * right. exists tid, t'. auto.
      * rewrite Hnone in Hp. destruct Hp. discriminate.
      * left. eapply is_chain_next; [exact Hc'|apply Hsub; exact Hq|exact Hnext].
    + right. exists tid0, t0. split; [|exact Hn0]. simpl.
      rewrite list_lookup_insert_ne by assumption. exact Ht0.
Qed.

Lemma log_run_held sched :
  layout_ok -> exists l, log_inv l (log_run sched) /\ pages_held l (log_run sched).
Proof.
  intros HL. unfold log_run.
  assert (H0 : exists l, log_inv l log_init /\ pages_held l log_init).
  { exists [first_page]. split; [apply log_init_inv; assumption|].
    intros p Hp. left. unfold log_init in Hp. simpl in Hp.
    destruct (decide (first_page = p)) as [<-|Hne];
      [apply list_elem_of_here|].
    rewrite lookup_insert_ne, lookup_empty in Hp by assumption.
    destruct Hp. discriminate. }
  revert H0. generalize log_init.
  induction sched as [|ev sched IH]; intros s Hs; simpl; [assumption|].
  apply IH. destruct Hs as (l & Hl & Hh).
  destruct (log_step_inv l s ev HL Hl) as (l' & Hl' & Hsub & _).
  exists l'. split; [exact Hl'|]. eapply log_step_held; eassumption.
Qed.

(** X20.  No page of the ordered log is lost: in any interleaving,
    every page the log has acquired from the page manager and not given
    back is a page of the chain, or the page that a thread inside
    [createPage] has acquired and will link or give back.  When all
    threads are idle, every page is a page of the chain. *)
Theorem pages_accounted (sched : list log_event) :
  layout_ok ->
  exists l,
    is_chain (sys_log (log_run sched)) l /\
    (forall p, is_Some (oPages (sys_log (log_run sched)) !! p) ->
       p ∈ l \/
       exists (tid : nat) t,
         sys_threads (log_run sched) !! tid = Some t /\ npage t = Some p) /\
    (Forall (fun t => t = TIdle) (sys_threads (log_run sched)) ->
     forall p, is_Some (oPages (sys_log (log_run sched)) !! p) -> p ∈ l).
Proof.
  intros HL. destruct (log_run_held sched HL) as (l & (Hc & _) & Hheld).
  exists l. split_and!; auto.
  intros Hidle p Hp. destruct (Hheld p Hp) as [Hin|(tid & t & Ht & Hn)]; auto.
  rewrite (Forall_lookup_1 _ _ _ _ Hidle Ht) in Hn. discriminate.
Qed.


(** *** Appending to the unordered log *)

Lemma appender_step_eq pg a :
  appender_step pg a
  = ((appendEntry_step (a_size a) (entrySizeFromSize (a_size a)) (a_type a)
        pg (a_pc a)).1,
     mkAppender (a_size a) (a_type a)
       (appendEntry_step (a_size a) (entrySizeFromSize (a_size a)) (a_type a)
          pg (a_pc a)).2).
Proof. unfold appender_step. destruct (appendEntry_step _ _ _ _ _). reflexivity. Qed.

Lemma appender_run_ok fuel :
  layout_ok -> forall pg a,
  page_ok pg -> appender_ok pg a ->
  (forall o, typed (a_pc a) = Some o -> mType (entry_at pg o) = a_type a) ->
  page_ok (appender_run fuel pg a).1 /\
  appender_ok (appender_run fuel pg a).1 (appender_run fuel pg a).2 /\
  a_size (appender_run fuel pg a).2 = a_size a /\
  a_type (appender_run fuel pg a).2 = a_type a /\
  (forall o, typed (a_pc (appender_run fuel pg a).2) = Some o ->
     mType (entry_at (appender_run fuel pg a).1 o) = a_type a) /\
  mNext (appender_run fuel pg a).1 = mNext pg.
Proof.
  intros HL. induction fuel as [|fuel IH]; intros pg a Hok Ha Ht;
    [simpl; split_and!; auto|].
  assert (Hdec : (exists r, a_pc a = AReturn r) \/
                 (forall r, a_pc a <> AReturn r)).
  { destruct (a_pc a); eauto; right; discriminate. }
  destruct Hdec as [[r Hr]|Hn].
  - rewrite (appender_run_done _ _ _ r Hr). simpl. split_and!; auto.
  - rewrite appender_run_step by exact Hn.
    pose proof (appender_step_ok pg a HL Hok Ha) as (Hok' & Ha' & Hsz).
    pose proof Ha as [Hs Hpcok].
    pose proof (appendEntry_step_holds (a_size a) (a_type a) pg (a_pc a)
                  HL Hok Hs Hpcok) as (_ & _ & Ht').
    pose proof (appendEntry_step_next (a_size a)
                  (entrySizeFromSize (a_size a)) (a_type a) pg (a_pc a))
      as Hnext.
    specialize (Ht' Ht).
    assert (Hty : a_type (appender_step pg a).2 = a_type a)
      by (rewrite appender_step_eq; reflexivity).
    destruct (IH (appender_step pg a).1 (appender_step pg a).2 Hok' Ha')
      as (H1 & H2 & H3 & H4 & H5 & H6).
    { rewrite Hty. rewrite appender_step_eq. simpl. exact Ht'. }
    split_and!; auto; try congruence.
    + intros o Ho. rewrite (H5 o Ho). exact Hty.
    + rewrite H6. rewrite appender_step_eq. simpl. exact Hnext.
Qed.

Lemma createPage_fresh_total fuel st w pg :
  writeHead (uHead st) = Some w -> uPages st !! w = Some pg ->
  0 <= mPages st < 2 ^ 64 - 1 ->
  (forall allocs a, appendHead (uHead st) = Some a ->
     createPage (S fuel) st (uHead st) allocs
     = Some (uset_head (uset_page st w (seal_page pg)) (mkLogHead (Some a) None),
             mkLogHead (Some a) None, allocs)) /\
  (forall allocs n, appendHead (uHead st) = None -> uPages st !! n = None ->
     createPage (S fuel) st (uHead st) (Some n :: allocs)
     = Some (mkUnorderedLog
               (<[n := set_next fresh_page (Some w)]>
                  (<[w := seal_page pg]> (uPages st)))
               (mkLogHead (Some n) None) (uTail st) (mPages st + 1)
               (uReclaim st),
             mkLogHead (Some n) None, allocs)).
Proof.
  intros Hw Hpg Hm. unfold createPage. rewrite Hw, Hpg.
  cbn [createPage_loop]. rewrite ?Hw. split.
  - intros allocs a Ha. rewrite Ha.
    rewrite decide_True by reflexivity. reflexivity.
  - intros allocs n Ha Hn. rewrite Ha.
    assert (Hnw : n <> w) by congruence.
    assert (Hacq : uacquirePage (uset_page st w (seal_page pg)) (Some n)
                   = Some (mkUnorderedLog
                             (<[n := fresh_page]> (<[w := seal_page pg]> (uPages st)))
                             (uHead st) (uTail st) (mPages st) (uReclaim st), n)).
    { unfold uacquirePage. simpl. rewrite lookup_insert_ne by auto.
      rewrite Hn. reflexivity. }
    rewrite Hacq.
    destruct (link_new_head_spec _ _ _ _ (Some w) Hacq Hm) as (_ & Hlink & _).
    rewrite Hlink. simpl. rewrite decide_True by reflexivity. reflexivity.
Qed.


(** One round of the loop of [appendEntry]. *)
Lemma uappend_iter fuel st head size type allocs w pg :
  layout_ok -> 0 < size < 2 ^ 31 ->
  writeHead head = Some w -> uPages st !! w = Some pg -> page_ok pg ->
  (5 + Z.to_nat (MAX_ENTRY_SIZE / 16) <= S fuel)%nat ->
  exists pg',
    page_ok pg' /\ mNext pg' = mNext pg /\
    ((exists pos,
        uappend_loop (S fuel) st head size type allocs
        = Some (uset_page st w pg', Some (mkLogPosition w pos), allocs) /\
        acquired pg' pos size /\ mType (entry_at pg' pos) = type /\
        pos + entrySizeFromSize size <= page_offset pg') \/
     uappend_loop (S fuel) st head size type allocs
     = match createPage (S fuel) (uset_page st w pg') head allocs with
       | None => None
       | Some (st', head', allocs') =>
           uappend_loop fuel st' head' size type allocs'
       end).
Proof.
  intros HL Hs Hw Hpg Hok Hfuel.
  assert (Ha : appender_ok pg (mkAppender size type ALoad))
    by (split; simpl; auto).
  destruct (appender_returns pg _ HL Hok Ha) as [r Hr].
  pose proof (appender_run_more _ _ _ _ Hr (S fuel) Hfuel) as Hmore.
  rewrite <- Hmore in Hr.
  destruct (appender_run_ok (S fuel) HL pg _ Hok Ha)
    as (H1 & H2 & H3 & H4 & H5 & H6); [discriminate|].
  cbn [uappend_loop]. rewrite Hw, Hpg.
  destruct (appender_run (S fuel) pg (mkAppender size type ALoad))
    as [pg' a] eqn:Hrun.
  simpl in *. exists pg'. split; [exact H1|]. split; [exact H6|].
  rewrite Hr. destruct r as [pos|]; [left|right; reflexivity].
  exists pos. split; [reflexivity|].
  destruct H2 as [_ Hpc]. rewrite Hr in Hpc. simpl in Hpc.
  rewrite H3 in Hpc. destruct Hpc as [Hacq Hpub].
  split_and!; auto. apply H5. rewrite Hr. reflexivity.
Qed.

Lemma fresh_linked_ok nx : layout_ok ->
  page_ok (set_next fresh_page nx) /\ tidy (set_next fresh_page nx).
Proof.
  intros HL. split.
  - destruct (fresh_page_ok HL) as [H1 H2]. split; [exact H1|].
    intros o. left. reflexivity.
  - intros o _. reflexivity.
Qed.

(** The append on a page that was just linked. *)
Lemma uappend_on_fresh fuel st size type allocs n nx :
  layout_ok -> 0 < size < 2 ^ 31 ->
  entrySizeFromSize size <= MAX_ENTRY_SIZE ->
  uHead st = mkLogHead (Some n) None ->
  uPages st !! n = Some (set_next fresh_page nx) ->
  (4 <= fuel)%nat ->
  exists st' e,
    uappend_loop fuel st (uHead st) size type allocs
    = Some (st', Some e, allocs) /\
    appended st' size type e.
Proof.
  intros HL Hs Hfit Hh Hn Hfuel.
  destruct (fresh_linked_ok nx HL) as [Hok Htidy].
  pose proof (appender_run_tidy size type (set_next fresh_page nx) HL Hok
                Htidy Hs) as Hrun.
  assert (Hp0 : page_offset (set_next fresh_page nx) = 0) by reflexivity.
  rewrite Hp0 in Hrun.
  assert (Hrun4 : appender_run 4 (set_next fresh_page nx)
                    (mkAppender size type ALoad)
                  = (set_offset
                       (set_entry (set_next fresh_page nx) 0
                          (mkLogEntry (2 * size + 1) type))
                       (2 * (0 + entrySizeFromSize size) + 1),
                     mkAppender size type (AReturn (Some 0)))).
  { apply Hrun; [simpl; discriminate|lia]. }
  destruct fuel as [|fuel]; [lia|].
  assert (Hrunf : appender_run (S fuel) (set_next fresh_page nx)
                    (mkAppender size type ALoad)
                  = appender_run 4 (set_next fresh_page nx)
                      (mkAppender size type ALoad)).
  { apply (appender_run_more 4 _ _ (Some 0)); [rewrite Hrun4; reflexivity|lia]. }
  cbn [uappend_loop]. rewrite Hh. cbn [writeHead]. rewrite Hn.
  rewrite Hrunf, Hrun4. cbn [a_pc].
  do 2 eexists. split; [reflexivity|].
  unfold appended. cbn [lp_page lp_offset uset_page uHead uPages].
  split; [rewrite Hh; reflexivity|].
  eexists. split; [apply lookup_insert_eq|].
  destruct HL as (HLe & _).
  split_and!.
  - unfold acquired. change (entry_at (set_offset ?q _) 0) with (entry_at q 0);
    rewrite entry_at_set_entry, decide_True by reflexivity.
    unfold is_acquired. simpl. lia.
  - change (entry_at (set_offset ?q _) 0) with (entry_at q 0);
    rewrite entry_at_set_entry, decide_True by reflexivity. reflexivity.
  - unfold page_offset. simpl. rewrite shiftr1. lia.
Qed.


(** The append when no page waits in the append head: the entry goes
    into the write head, or into a page that is acquired and linked. *)
Lemma uappend_one_head fuel st size type rest w pg n :
  layout_ok -> 0 < size < 2 ^ 31 ->
  entrySizeFromSize size <= MAX_ENTRY_SIZE ->
  uHead st = mkLogHead (Some w) None ->
  uPages st !! w = Some pg -> page_ok pg ->
  uPages st !! n = None ->
  0 <= mPages st < 2 ^ 64 - 1 ->
  (6 + Z.to_nat (MAX_ENTRY_SIZE / 16) <= fuel)%nat ->
  exists st' e allocs',
    uappend_loop fuel st (uHead st) size type (Some n :: rest)
    = Some (st', Some e, allocs') /\
    appended st' size type e.
Proof.
  intros HL Hs Hfit Hh Hw Hok Hn Hm Hfuel.
  destruct fuel as [|fuel]; [lia|].
  assert (Hwh : writeHead (uHead st) = Some w) by (rewrite Hh; reflexivity).
  destruct (uappend_iter fuel st (uHead st) size type (Some n :: rest) w pg
              HL Hs Hwh Hw Hok) as (pg' & Hok' & Hnext & [Hdone|Hmore]);
    [lia| |].
  - destruct Hdone as (pos & Heq & Hacq & Hty & Hle).
    do 3 eexists. split; [exact Heq|].
    unfold appended. cbn [lp_page lp_offset uset_page uHead uPages].
    split; [exact Hwh|].
    exists pg'. split; [apply lookup_insert_eq|]. auto.
  - rewrite Hmore.
    assert (Hnw : n <> w) by congruence.
    destruct (createPage_fresh_total fuel (uset_page st w pg') w pg')
      as [_ Hfresh]; [exact Hwh|apply lookup_insert_eq|exact Hm|].
    change (uHead (uset_page st w pg')) with (uHead st) in Hfresh.
    rewrite (Hfresh rest n).
    2: rewrite Hh; reflexivity.
    2: cbn [uset_page uPages]; rewrite lookup_insert_ne by auto; exact Hn.
    match goal with
    | |- context [uappend_loop fuel ?s ?h _ _ _] =>
        destruct (uappend_on_fresh fuel s size type rest n (Some w) HL Hs Hfit)
          as (st' & e & Heq & Happ)
    end; [reflexivity|apply lookup_insert_eq|lia|].
    exists st', e, rest. split; [exact Heq|exact Happ].
Qed.

(** The append on a log whose heads are in place. *)
Lemma uappend_returns fuel st size type rest w pg n :
  layout_ok -> 0 < size < 2 ^ 31 ->
  entrySizeFromSize size <= MAX_ENTRY_SIZE ->
  writeHead (uHead st) = Some w ->
  uPages st !! w = Some pg -> page_ok pg ->
  (forall a, appendHead (uHead st) = Some a ->
     exists pa, uPages st !! a = Some pa /\ page_ok pa) ->
  uPages st !! n = None ->
  0 <= mPages st < 2 ^ 64 - 1 ->
  (7 + Z.to_nat (MAX_ENTRY_SIZE / 16) <= fuel)%nat ->
  exists st' e allocs',
    uappend_loop fuel st (uHead st) size type (Some n :: rest)
    = Some (st', Some e, allocs') /\
    appended st' size type e.
Proof.
  intros HL Hs Hfit Hwh Hw Hok Happ Hn Hm Hfuel.
  destruct (appendHead (uHead st)) as [a|] eqn:Hah.
  2: { apply (uappend_one_head fuel st size type rest w pg n); auto; [|lia].
       destruct (uHead st); simpl in *; congruence. }
  destruct (Happ a eq_refl) as (pa & Hpa & Hoka).
  destruct fuel as [|fuel]; [lia|].
  destruct (uappend_iter fuel st (uHead st) size type (Some n :: rest) w pg
              HL Hs Hwh Hw Hok) as (pg' & Hok' & Hnext & [Hdone|Hmore]);
    [lia| |].
  - destruct Hdone as (pos & Heq & Hacq & Hty & Hle).
    do 3 eexists. split; [exact Heq|].
    unfold appended. cbn [lp_page lp_offset uset_page uHead uPages].
    split; [exact Hwh|].
    exists pg'. split; [apply lookup_insert_eq|]. auto.
  - rewrite Hmore.
    assert (Hnw : n <> w) by congruence.
    assert (Hna : n <> a) by congruence.
    destruct (createPage_fresh_total fuel (uset_page st w pg') w pg')
      as [Hprom _]; [exact Hwh|apply lookup_insert_eq|exact Hm|].
    change (uHead (uset_page st w pg')) with (uHead st) in Hprom.
    rewrite (Hprom (Some n :: rest) a Hah).
    set (st2 := uset_head (uset_page (uset_page st w pg') w (seal_page pg'))
                  (mkLogHead (Some a) None)).
    assert (Hpa2 : exists pa', uPages st2 !! a = Some pa' /\ page_ok pa').
    { subst st2. cbn [uset_head uset_page uPages].
      destruct (decide (a = w)) as [->|Haw].
      - rewrite lookup_insert_eq. eexists. split; [reflexivity|].
        apply seal_page_ok. exact Hok'.
      - rewrite !lookup_insert_ne by auto. eauto. }
    destruct Hpa2 as (pa' & Hpa' & Hoka').
    apply (uappend_one_head fuel st2 size type rest a pa' n); auto.
    + subst st2. cbn [uset_head uset_page uPages].
      rewrite !lookup_insert_ne by auto. exact Hn.
    + lia.
Qed.

(** X21. A lone call of [Log::append] on an unordered log, with a size
    that fits a page, a write head in the log and a page manager that
    hands out a page the log does not hold yet, returns an entry: the
    entry lies in the write head the call leaves behind, inside the
    used bytes of that page, it is acquired with the size asked for and
    carries the type asked for. *)
Theorem unordered_append_returns fuel st size type rest w pg n :
  layout_ok -> 0 < size < 2 ^ 31 ->
  entrySizeFromSize size <= MAX_ENTRY_SIZE ->
  writeHead (uHead st) = Some w ->
  uPages st !! w = Some pg -> page_ok pg ->
  (forall a, appendHead (uHead st) = Some a ->
     exists pa, uPages st !! a = Some pa /\ page_ok pa) ->
  uPages st !! n = None ->
  0 <= mPages st < 2 ^ 64 - 1 ->
  (7 + Z.to_nat (MAX_ENTRY_SIZE / 16) <= fuel)%nat ->
  exists st' e allocs',
    UnorderedLog_append fuel st size type (Some n :: rest)
    = Some (st', Some e, allocs') /\
    appended st' size type e.
Proof.
  intros HL Hs Hfit Hwh Hw Hok Happ Hn Hm Hfuel.
  unfold UnorderedLog_append, UnorderedLog_appendEntry.
  destruct (entrySizeFromSize size >? MAX_ENTRY_SIZE) eqn:Hgt; [lia|].
  apply (uappend_returns fuel st size type rest w pg n); assumption.
Qed.


(** A call alone on a page that is sealed or has no room left. *)
Lemma appender_run_null size type pg fuel :
  layout_ok -> page_ok pg -> 0 < size < 2 ^ 31 ->
  Z.land (mOffset pg) 1 = 0 \/
  MAX_ENTRY_SIZE < page_offset pg + entrySizeFromSize size ->
  (2 <= fuel)%nat ->
  appender_run fuel pg (mkAppender size type ALoad)
  = (pg, mkAppender size type (AReturn None)).
Proof.
  intros HLay Hok Hs Hcase Hfuel.
  pose proof HLay as (HL & HH & HH8 & HP & HP30).
  pose proof (entrySizeFromSize_bounds size HL ltac:(lia)) as Hesz.
  assert (HM : MAX_ENTRY_SIZE < 2 ^ 30) by (unfold MAX_ENTRY_SIZE; lia).
  pose proof Hok as [(P' & HP1 & HP2 & HP3) He].
  assert (HPP : page_offset pg = P') by (rewrite page_offset_div; lia).
  destruct fuel as [|[|fuel]]; [lia|lia|].
  rewrite appender_run_step by (simpl; discriminate).
  unfold appender_step. cbn [a_pc a_size a_type appendEntry_step].
  destruct (Z.eqb_spec (Z.land (mOffset pg) 1) 0) as [Heven|Hodd];
    [cbn [fst snd]; apply (appender_run_done _ _ _ None); reflexivity|].
  cbn [fst snd]. rewrite appender_run_step by (simpl; discriminate).
  unfold appender_step. cbn [a_pc a_size a_type appendEntry_step].
  rewrite shiftr1. replace (mOffset pg / 2) with (page_offset pg)
    by (rewrite page_offset_div; reflexivity).
  rewrite (u32_small (page_offset pg + entrySizeFromSize size)) by lia.
  destruct (Z.gtb_spec (page_offset pg + entrySizeFromSize size)
              MAX_ENTRY_SIZE) as [Hfull|Hroom]; [|lia].
  cbn [fst snd]. apply (appender_run_done _ _ _ None). reflexivity.
Qed.

(** X22. When the write head of an unordered log is sealed or has no
    room for the entry, no page waits in the append head and the page
    manager has no page to hand out, a lone call of [Log::append]
    returns null.  All it changes is the seal of the write head: the
    head of the log, the page counter and all other pages stay. *)
Theorem unordered_append_no_space fuel st size type rest w pg :
  layout_ok -> 0 < size < 2 ^ 31 ->
  entrySizeFromSize size <= MAX_ENTRY_SIZE ->
  uHead st = mkLogHead (Some w) None ->
  uPages st !! w = Some pg -> page_ok pg ->
  Z.land (mOffset pg) 1 = 0 \/
  MAX_ENTRY_SIZE < page_offset pg + entrySizeFromSize size ->
  (3 <= fuel)%nat ->
  UnorderedLog_append fuel st size type (None :: rest)
  = Some (uset_page st w (seal_page pg), None, rest).
Proof.
  intros HL Hs Hfit Hh Hw Hok Hcase Hfuel.
  unfold UnorderedLog_append, UnorderedLog_appendEntry.
  destruct (entrySizeFromSize size >? MAX_ENTRY_SIZE) eqn:Hgt; [lia|].
  destruct fuel as [|fuel]; [lia|].
  cbn [uappend_loop]. rewrite Hh. cbn [writeHead]. rewrite Hw.
  rewrite (appender_run_null size type pg (S fuel) HL Hok Hs Hcase)
    by lia.
  cbn [a_pc]. unfold createPage. cbn [writeHead uset_page uPages].
  rewrite lookup_insert_eq.
  cbn [createPage_loop appendHead uacquirePage].
  destruct fuel as [|fuel]; [lia|].
  cbn [uappend_loop writeHead]. unfold uset_page. cbn [uPages uHead uTail mPages uReclaim].
  rewrite insert_insert_eq. reflexivity.
Qed.


(** *** A call of [LogPage::append] among other threads *)

Lemma appender_seen_stable pg pg' a :
  appender_seen pg a -> page_le pg pg' -> appender_seen pg' a.
Proof.
  intros [H1 H2] Hle. split; [exact H1|].
  intros off pos Hpc. eapply echain_mono; [|exact Hle]. eapply H2, Hpc.
Qed.

Lemma appender_step_returned pg a r :
  a_pc a = AReturn r -> appender_step pg a = (pg, a).
Proof.
  intros Hr. unfold appender_step. rewrite Hr. simpl.
  destruct a. simpl in *. congruence.
Qed.

Lemma appender_step_seen pg a :
  layout_ok -> page_ok pg -> appender_ok pg a -> appender_seen pg a ->
  appender_seen (appender_step pg a).1 (appender_step pg a).2.
Proof.
  intros HL Hok [Hs Hpc] [Hfit Hch].
  pose proof (appendEntry_step_ok (a_size a) (a_type a) pg (a_pc a)
                HL Hok Hs Hpc) as (_ & _ & Hle).
  rewrite appender_step_eq. cbn [fst snd a_size a_pc].
  destruct HL as (HL & HH & HH8 & HP & HP30).
  assert (HM : MAX_ENTRY_SIZE < 2 ^ 30) by (unfold MAX_ENTRY_SIZE; lia).
  split.
  - destruct Hfit as [Hfit|Hnull]; [left; exact Hfit|right].
    rewrite Hnull. reflexivity.
  - intros off' pos' Hpc'.
    destruct (a_pc a) as [|off pos|off pos|off pos|r] eqn:Epc; simpl in *.
    + destruct (Z.land (mOffset pg) 1 =? 0); [discriminate|].
      injection Hpc' as <- <-. constructor.
    + destruct Hpc as (Hp1 & Hp2 & Ho1 & Ho2 & Ho3).
      destruct (_ >? MAX_ENTRY_SIZE); [discriminate|].
      unfold tryAcquire_cas, compare_exchange_strong in *.
      destruct (Z.eqb_spec (mSize (entry_at pg pos)) 0) as [H0|Hn];
        simpl in *; [discriminate|].
      destruct (page_ok_entry pg pos Hok Hn) as (s' & Ha & Hb1 & Hb2 & Hb3).
      rewrite (acquired_shiftr _ _ _ Ha) in *.
      assert (Hs' : 0 <= s' < 2 ^ 31) by (destruct Ha; lia).
      pose proof (entrySizeFromSize_pos s' HL Hs') as Hpos'.
      destruct (Z.eqb_spec (entrySizeFromSize s') 0); [lia|]. simpl in *.
      rewrite u32_small in Hpc' by lia. injection Hpc' as <- <-.
      econstructor; [|exact Ha]. apply (Hch off pos). reflexivity.
    + discriminate.
    + destruct (off <? _); [|discriminate].
      destruct (compare_exchange_strong _ _ _) as [[cur [|]] o'];
        [discriminate|].
      destruct (Z.land o' 1 =? 0); [|discriminate].
      destruct (_ >=? _); discriminate.
    + discriminate.
Qed.

Lemma page_step_seen s ev :
  layout_ok -> page_sys_ok s -> Forall (appender_seen s.1) s.2 ->
  Forall (appender_seen (page_step s ev).1) (page_step s ev).2.
Proof.
  intros HL Hsys Hseen. pose proof (page_step_le s ev HL Hsys) as Hle.
  destruct s as [pg ts]. destruct Hsys as [Hok Hts]. simpl in *.
  assert (Hold : forall pg', page_le pg pg' -> Forall (appender_seen pg') ts).
  { intros pg' Hle'. eapply Forall_impl; [exact Hseen|].
    intros b Hb. eapply appender_seen_stable; eassumption. }
  destruct ev as [size type|tid| |pos]; simpl in *.
  - destruct (_ && _); simpl; [|exact Hseen].
    apply Forall_app. split; [exact Hseen|].
    apply Forall_cons. split; [|apply Forall_nil; exact I].
    split; simpl; unfold append_entry_pc.
    + destruct (Z.gtb_spec (entrySizeFromSize size) MAX_ENTRY_SIZE);
        [right; reflexivity|left; lia].
    + intros off pos. destruct (_ >? _); discriminate.
  - destruct (ts !! tid) as [a|] eqn:Ha; [|exact Hseen].
    pose proof (Forall_lookup_1 _ _ _ _ Hts Ha) as Haok.
    pose proof (Forall_lookup_1 _ _ _ _ Hseen Ha) as Hasn.
    pose proof (appender_step_seen pg a HL Hok Haok Hasn) as Hnew.
    destruct (appender_step pg a) as [pg' a']. simpl in *.
    apply Forall_insert; [apply Hold; exact Hle|exact Hnew].
  - apply Hold. exact Hle.
  - apply Hold. exact Hle.
Qed.

Lemma page_run_seen sched :
  layout_ok ->
  Forall (appender_seen (page_run sched).1) (page_run sched).2.
Proof.
  intros HL. unfold page_run.
  assert (H0 : page_sys_ok (fresh_page, []) /\
               Forall (appender_seen (fresh_page, @nil appender).1)
                      (fresh_page, @nil appender).2).
  { split; [split; [apply fresh_page_ok; assumption|apply Forall_nil; exact I]|].
    apply Forall_nil. exact I. }
  revert H0. generalize (fresh_page, @nil appender).
  induction sched as [|ev sched IH]; intros s [Hs Hseen]; simpl; [assumption|].
  apply IH. split; [apply page_step_ok|apply page_step_seen]; assumption.
Qed.

(** The step of a thread that makes its call return null. *)
Lemma appender_step_null pg a :
  layout_ok -> page_ok pg -> appender_ok pg a -> appender_seen pg a ->
  (forall r, a_pc a <> AReturn r) ->
  a_pc (appender_step pg a).2 = AReturn None <->
  null_cause (a_size a) pg (a_pc a).
Proof.
  intros HL Hok [Hs Hpc] [_ Hch] Hrun.
  rewrite appender_step_eq. cbn [snd a_pc].
  destruct HL as (HL & HH & HH8 & HP & HP30).
  pose proof (entrySizeFromSize_bounds (a_size a) HL ltac:(lia)) as Hesz.
  assert (HM : MAX_ENTRY_SIZE < 2 ^ 30) by (unfold MAX_ENTRY_SIZE; lia).
  destruct (a_pc a) as [|off pos|off pos|off pos|r] eqn:Epc; simpl.
  - destruct (Z.eqb_spec (Z.land (mOffset pg) 1) 0); simpl.
    + tauto.
    + split; [discriminate|contradiction].
  - simpl in Hpc. destruct Hpc as (Hp1 & Hp2 & Ho1 & Ho2 & Ho3).
    rewrite (u32_small (pos + entrySizeFromSize (a_size a))) by lia.
    destruct (Z.gtb_spec (pos + entrySizeFromSize (a_size a)) MAX_ENTRY_SIZE);
      simpl.
    + split; [|reflexivity]. intros _. split; [|lia].
      apply (Hch off pos). reflexivity.
    + split; [|lia].
      destruct (tryAcquire_cas (a_size a) (entry_at pg pos)) as [[e res] [|]];
        simpl; [discriminate|]. destruct (res =? 0); discriminate.
  - split; [discriminate|contradiction].
  - simpl in Hpc. destruct Hpc as (Hacq & Ho1 & Ho2).
    destruct (page_ok_acquired pg pos _ Hok Hacq) as (Hb1 & Hb2 & Hb3).
    rewrite (u32_small (pos + entrySizeFromSize (a_size a))) by lia.
    rewrite pack1 by lia. rewrite page_offset_div in *. rewrite land1.
    destruct (Z.ltb_spec off (2 * (pos + entrySizeFromSize (a_size a)) + 1));
      simpl.
    + unfold compare_exchange_strong.
      destruct (Z.eqb_spec (mOffset pg) off) as [He|Hne]; simpl.
      { split; [discriminate|]. intros (_ & Hsealed & _). lia. }
      rewrite land1, shiftr1.
      destruct (Z.eqb_spec (mOffset pg mod 2) 0); simpl.
      * destruct (Z.geb_spec (mOffset pg / 2)
                    (pos + entrySizeFromSize (a_size a))); simpl.
        -- split; [discriminate|]. intros (_ & _ & Hlt). lia.
        -- split; [|reflexivity]. intros _. split_and!; auto.
      * split; [discriminate|]. intros (_ & Hsealed & _). contradiction.
    + split; [discriminate|]. intros (_ & _ & Hlt). lia.
  - exfalso. eapply Hrun. reflexivity.
Qed.


Lemma page_run_app s1 s2 :
  page_run (s1 ++ s2) = fold_left page_step s2 (page_run s1).
Proof. unfold page_run. apply fold_left_app. Qed.

(** Where the state of a thread after an event comes from: it is as
    before, or the thread was just made by a call, or it made a step. *)
Lemma page_step_thread s ev (tid : nat) a :
  (page_step s ev).2 !! tid = Some a ->
  s.2 !! tid = Some a \/
  (exists size type, a = LogPage_append size type) \/
  (ev = PStep tid /\
   exists a0, s.2 !! tid = Some a0 /\ (forall r, a_pc a0 <> AReturn r) /\
     a = (appender_step s.1 a0).2).
Proof.
  destruct s as [pg ts]. simpl.
  destruct ev as [size type|tid0| |pos]; simpl; auto.
  - destruct (_ && _); simpl; [|auto].
    intros H. apply lookup_app_Some in H as [H|[_ H]]; [auto|].
    right. left. exists size, type.
    destruct (tid - length ts)%nat; simpl in H; [congruence|].
    rewrite lookup_nil in H. discriminate.
  - destruct (ts !! tid0) as [a0|] eqn:Ha0; [|auto].
    destruct (decide (tid0 = tid)) as [->|Hne].
    + assert (Hdec : (exists r, a_pc a0 = AReturn r) \/
                     (forall r, a_pc a0 <> AReturn r)).
      { destruct (a_pc a0); eauto; right; discriminate. }
      destruct Hdec as [[r Hr]|Hn].
      * rewrite (appender_step_returned _ _ _ Hr). simpl.
        rewrite list_lookup_insert_eq by (eapply lookup_lt_Some; eassumption).
        intros [= <-]. auto.
      * destruct (appender_step pg a0) as [pg' a'] eqn:Est. simpl.
        rewrite list_lookup_insert_eq by (eapply lookup_lt_Some; eassumption).
        intros [= <-]. right. right. split; [reflexivity|].
        exists a0. rewrite Est. auto.
    + destruct (appender_step pg a0) as [pg' a']. simpl.
      rewrite list_lookup_insert_ne by assumption. auto.
Qed.

(** A call that has returned null made a step that found a cause, or
    was for an entry too large for a page. *)
Lemma null_history sched :
  layout_ok -> forall (tid : nat) a,
  (page_run sched).2 !! tid = Some a -> a_pc a = AReturn None ->
  MAX_ENTRY_SIZE < entrySizeFromSize (a_size a) \/
  exists s1 s2 pc,
    sched = s1 ++ PStep tid :: s2 /\
    (page_run s1).2 !! tid = Some (mkAppender (a_size a) (a_type a) pc) /\
    null_cause (a_size a) (page_run s1).1 pc.
Proof.
  intros HL. induction sched as [|ev sched IH] using rev_ind;
    intros tid a Ha Hr; [discriminate|].
  rewrite page_run_app in Ha. cbn [fold_left] in Ha.
  apply page_step_thread in Ha as [Ha|[(size & type & ->)|(-> & a0 & Ha0 & Hn & ->)]].
  - destruct (IH tid a Ha Hr) as [Hbig|(s1 & s2 & pc & -> & H1 & H2)];
      [left; exact Hbig|right].
    exists s1, (s2 ++ [ev]), pc. rewrite <- app_assoc. auto.
  - left. unfold LogPage_append, append_entry_pc in *. simpl in *.
    destruct (Z.gtb_spec (entrySizeFromSize size) MAX_ENTRY_SIZE);
      [assumption|discriminate].
  - right. exists sched, [], (a_pc a0).
    pose proof (page_run_ok sched HL) as [Hok Hts].
    pose proof (Forall_lookup_1 _ _ _ _ Hts Ha0) as Haok.
    pose proof (Forall_lookup_1 _ _ _ _ (page_run_seen sched HL) Ha0) as Hasn.
    rewrite appender_step_eq in *. cbn [snd a_size a_type a_pc] in *.
    split; [reflexivity|]. split; [destruct a0; exact Ha0|].
    apply (appender_step_null _ a0 HL Hok Haok Hasn Hn).
    rewrite appender_step_eq. exact Hr.
Qed.

(** A step that finds a cause makes the call return null for good. *)
Lemma null_future s1 s2 (tid : nat) a0 :
  layout_ok ->
  (page_run s1).2 !! tid = Some a0 ->
  null_cause (a_size a0) (page_run s1).1 (a_pc a0) ->
  (page_run (s1 ++ PStep tid :: s2)).2 !! tid
  = Some (mkAppender (a_size a0) (a_type a0) (AReturn None)).
Proof.
  intros HL Ha0 Hcause.
  pose proof (page_run_ok s1 HL) as [Hok Hts].
  pose proof (Forall_lookup_1 _ _ _ _ Hts Ha0) as Haok.
  pose proof (Forall_lookup_1 _ _ _ _ (page_run_seen s1 HL) Ha0) as Hasn.
  assert (Hn : forall r, a_pc a0 <> AReturn r).
  { intros r Hr. rewrite Hr in Hcause. exact Hcause. }
  apply (appender_step_null _ a0 HL Hok Haok Hasn Hn) in Hcause.
  change (s1 ++ PStep tid :: s2) with (s1 ++ [PStep tid] ++ s2).
  rewrite app_assoc, page_run_app.
  destruct (page_run_owned (s1 ++ [PStep tid]) HL) as [Hok1 Hown1].
  destruct (page_steps s2 HL _ Hok1 Hown1) as (_ & _ & _ & Hstay).
  apply (Hstay tid _ None); [|reflexivity].
  rewrite page_run_app. cbn [fold_left].
  destruct (page_run s1) as [pg ts]. simpl in *. rewrite Ha0.
  rewrite appender_step_eq in *. cbn [snd fst a_pc] in *.
  simpl. rewrite list_lookup_insert_eq by (eapply lookup_lt_Some; eassumption).
  rewrite Hcause. reflexivity.
Qed.

(** A thread that is left to run alone. *)
Lemma page_run_solo n :
  forall pg ts (tid : nat) a, ts !! tid = Some a ->
  fold_left page_step (repeat (PStep tid) n) (pg, ts)
  = ((appender_run n pg a).1, <[tid := (appender_run n pg a).2]> ts).
Proof.
  induction n as [|n IH]; intros pg ts tid a Ha.
  - simpl. rewrite list_insert_id by exact Ha. reflexivity.
  - cbn [repeat fold_left page_step]. rewrite Ha.
    assert (Hdec : (exists r, a_pc a = AReturn r) \/
                   (forall r, a_pc a <> AReturn r)).
    { destruct (a_pc a); eauto; right; discriminate. }
    destruct Hdec as [[r Hr]|Hn].
    + rewrite (appender_step_returned _ _ _ Hr).
      rewrite (appender_run_done _ _ _ r Hr).
      rewrite list_insert_id by exact Ha.
      rewrite (IH pg ts tid a Ha).
      rewrite (appender_run_done _ _ _ r Hr). simpl.
      rewrite list_insert_id by exact Ha. reflexivity.
    + rewrite appender_run_step by exact Hn.
      destruct (appender_step pg a) as [pg' a']. cbn [fst snd].
      rewrite (IH pg' (<[tid := a']> ts) tid a').
      * rewrite list_insert_insert_eq. reflexivity.
      * apply list_lookup_insert_eq. eapply lookup_lt_Some. exact Ha.
Qed.

(** An acquired entry that no thread holds stays that way. *)
Lemma abandoned_stays more pos size :
  layout_ok -> forall s, page_sys_ok s ->
  acquired s.1 pos size ->
  (forall (j : nat) aj, s.2 !! j = Some aj -> holds (a_pc aj) <> Some pos) ->
  forall (j : nat) aj, (fold_left page_step more s).2 !! j = Some aj ->
    holds (a_pc aj) <> Some pos.
Proof.
  intros HL. induction more as [|ev more IH]; intros s Hsys Hacq Hfree;
    [exact Hfree|].
  cbn [fold_left]. apply IH.
  - apply page_step_ok; assumption.
  - destruct (page_step_le s ev HL Hsys) as (_ & _ & _ & Hkeep & _).
    apply Hkeep. exact Hacq.
  - intros j aj Hj.
    apply page_step_thread in Hj as [Hj|[(sz & ty & ->)|(-> & a0 & Ha0 & Hn & ->)]].
    + eapply Hfree. exact Hj.
    + unfold LogPage_append, append_entry_pc. simpl.
      destruct (_ >? _); discriminate.
    + destruct Hsys as [Hok Hts].
      pose proof (Forall_lookup_1 _ _ _ _ Hts Ha0) as [Hs Hpc].
      pose proof (appendEntry_step_holds (a_size a0) (a_type a0) s.1 (a_pc a0)
                    HL Hok Hs Hpc) as (Hh & _).
      rewrite appender_step_eq. cbn [snd a_pc]. intros Hhold.
      destruct (Hh pos Hhold) as [Hold|Hzero].
      * exact (Hfree j a0 Ha0 Hold).
      * apply (acquired_nonzero _ _ _ Hacq). exact Hzero.
Qed.


(** C2.  A call of [LogPage::append] among other threads that append
    to the page and seal it.  Left to run, the thread returns.  In any
    interleaving, its call has returned null exactly when the entry is
    too large for a page or one of its steps found: (a) the page offset
    sealed when it loaded it; (b) the positions from the loaded offset
    on taken by entries, up to a position that leaves no room for the
    entry; or (c) after it acquired its entry, the page offset sealed at
    a position below the end of the entry.  A call that has returned an
    entry has acquired it with its payload size and stored its type, no
    other thread holds it, and the page offset is past its end.  In
    case (c) the header stays acquired with the payload size of the
    call, beyond the used bytes of the sealed page, and no thread holds
    it from then on. *)
Theorem append_null_iff (sched : list page_event) (tid : nat) (a : appender) :
  layout_ok ->
  (page_run sched).2 !! tid = Some a ->
  let pg := (page_run sched).1 in
  let entrySize := entrySizeFromSize (a_size a) in
  (exists a' r,
     (page_run (sched ++ repeat (PStep tid)
                           (5 + Z.to_nat (MAX_ENTRY_SIZE / 16)))).2 !! tid
     = Some a' /\
     a_pc a' = AReturn r /\ a_size a' = a_size a /\ a_type a' = a_type a) /\
  (a_pc a = AReturn None <->
     MAX_ENTRY_SIZE < entrySize \/
     exists s1 s2 pc,
       sched = s1 ++ PStep tid :: s2 /\
       (page_run s1).2 !! tid = Some (mkAppender (a_size a) (a_type a) pc) /\
       null_cause (a_size a) (page_run s1).1 pc) /\
  (forall pos, a_pc a = AReturn (Some pos) ->
     acquired pg pos (a_size a) /\ mType (entry_at pg pos) = a_type a /\
     0 <= pos /\ pos mod 16 = 0 /\ pos + entrySize <= page_offset pg /\
     forall (j : nat) aj, j <> tid -> (page_run sched).2 !! j = Some aj ->
       holds (a_pc aj) <> Some pos) /\
  (forall s1 s2 off pos,
     sched = s1 ++ PStep tid :: s2 ->
     (page_run s1).2 !! tid
     = Some (mkAppender (a_size a) (a_type a) (APublish off pos)) ->
     null_cause (a_size a) (page_run s1).1 (APublish off pos) ->
     acquired pg pos (a_size a) /\
     Z.land (mOffset pg) 1 = 0 /\ page_offset pg < pos + entrySize /\
     forall (j : nat) aj, (page_run sched).2 !! j = Some aj ->
       holds (a_pc aj) <> Some pos).
Proof.
  intros HL Ha pg entrySize.
  destruct (page_run_owned sched HL) as [[Hok Hts] [Hexcl Htyped]].
  pose proof (Forall_lookup_1 _ _ _ _ Hts Ha) as Haok.
  pose proof (Forall_lookup_1 _ _ _ _ (page_run_seen sched HL) Ha) as [Hfit _].
  fold pg in Hok, Haok, Htyped.
  split_and!.
  - rewrite page_run_app.
    destruct (appender_returns pg a HL Hok Haok) as [r Hr].
    revert Hr. generalize (5 + Z.to_nat (MAX_ENTRY_SIZE / 16))%nat.
    intros n Hr.
    destruct (appender_run_ok n HL pg a Hok Haok) as (_ & _ & Hsz & Hty & _).
    { intros o Ho. apply (Htyped tid a o Ha Ho). }
    exists (appender_run n pg a).2, r.
    split; [|auto]. unfold pg in *.
    destruct (page_run sched) as [pg0 ts]. cbn [fst snd] in *.
    rewrite (page_run_solo n pg0 ts tid a Ha). cbn [snd].
    apply list_lookup_insert_eq. eapply lookup_lt_Some. exact Ha.
  - split.
    + apply null_history; assumption.
    + intros [Hbig|(s1 & s2 & pc & -> & Ha0 & Hcause)].
      * destruct Hfit as [Hfit|Hnull]; [unfold entrySize in Hbig; lia|exact Hnull].
      * pose proof (null_future s1 s2 tid _ HL Ha0 Hcause) as Hend.
        rewrite Ha in Hend. injection Hend as ->. reflexivity.
  - intros pos Hr. destruct Haok as [Hs Hpc]. rewrite Hr in Hpc.
    simpl in Hpc. destruct Hpc as [Hacq Hend].
    destruct (page_ok_acquired pg pos _ Hok Hacq) as (Hb1 & Hb2 & _).
    split_and!; auto.
    + apply (Htyped tid a pos Ha). rewrite Hr. reflexivity.
    + intros j aj Hne Hj. apply (Hexcl tid j a aj pos); auto.
      rewrite Hr. reflexivity.
  - intros s1 s2 off pos -> Ha0 Hcause.
    pose proof Hcause as (Hacq & Hsealed & Hlt).
    destruct (page_run_owned s1 HL) as [Hok1 [Hexcl1 _]].
    destruct (page_run_owned (s1 ++ [PStep tid]) HL) as [Hok2 Hown2].
    assert (Hle1 : page_le (page_run s1).1 (page_run (s1 ++ [PStep tid])).1).
    { rewrite page_run_app. apply page_step_le; assumption. }
    assert (Hpg : pg = (fold_left page_step s2 (page_run (s1 ++ [PStep tid]))).1).
    { unfold pg. rewrite <- page_run_app, <- app_assoc. reflexivity. }
    destruct (page_steps s2 HL _ Hok2 Hown2) as (_ & _ & Hle2 & _).
    rewrite <- Hpg in Hle2.
    pose proof (page_le_trans _ _ _ Hle1 Hle2) as (_ & Hfinal & _ & Hkeep & _).
    specialize (Hfinal Hsealed).
    split; [apply Hkeep; exact Hacq|].
    split; [rewrite Hfinal; exact Hsealed|].
    split; [unfold page_offset in *; rewrite Hfinal; exact Hlt|].
    change (s1 ++ PStep tid :: s2) with (s1 ++ [PStep tid] ++ s2).
    rewrite app_assoc, page_run_app.
    apply (abandoned_stays s2 pos (a_size a) HL _ Hok2).
    + destruct Hle1 as (_ & _ & _ & Hk & _). apply Hk. exact Hacq.
    + intros j aj Hj. rewrite page_run_app in Hj. cbn [fold_left] in Hj.
      destruct (decide (j = tid)) as [->|Hne].
      * pose proof (null_future s1 [] tid _ HL Ha0 Hcause) as Hend.
        rewrite page_run_app in Hend. cbn [fold_left] in Hend.
        cbn [a_pc a_size a_type] in Hend. rewrite Hj in Hend.
        injection Hend as ->. discriminate.
      * apply page_step_thread in Hj
          as [Hj|[(sz & ty & ->)|(Hev & _)]].
        -- apply not_eq_sym in Hne.
           apply (Hexcl1 tid j _ aj pos Hne Ha0 Hj). reflexivity.
        -- unfold LogPage_append, append_entry_pc. simpl.
           destruct (_ >? _); discriminate.
        -- congruence.
Qed.


End Layout.

(** *** Instances at the layout of the spec *)

(** A free and an occupied header. *)
Lemma tryAcquire_spec_witness :
  @tryAcquire spec_layout 100 7 (mkLogEntry 0 0) = (mkLogEntry 201 7, 0) /\
  @tryAcquire spec_layout 100 7 (mkLogEntry 81 3) = (mkLogEntry 81 3, 64).
Proof.
  split.
  - apply (@tryAcquire_spec spec_layout 100 7 (mkLogEntry 0 0));
      simpl; try lia; reflexivity.
  - apply (@tryAcquire_spec spec_layout 100 7 (mkLogEntry 81 3));
      simpl; lia.
Defined.

Lemma spec_layout_ok : @layout_ok spec_layout.
Proof. unfold layout_ok. simpl. lia. Qed.

(** A thread that probes the fresh page at address [2^21]. *)
Lemma probe_alignment_witness :
  @entry_address spec_layout 2097152 0 mod 16 = 8.
Proof.
  apply (@probe_alignment spec_layout 2097152
           [PCall 100 7; PStep 0%nat] spec_layout_ok eq_refl)
    with (tid := 0%nat) (a := mkAppender 100 7 (AProbe 1 0)) (off := 1);
    reflexivity.
Defined.

(** Erasing between page 3 and page 0 detaches pages 2 and 1. *)
Lemma erase_spec_witness :
  exists st', erase 5 four_pages 3%nat (Some 0%nat) = Some st' /\
    mPages st' = 2 /\ uReclaim st' = [(Some 2%nat, Some 0%nat)] /\
    freePage_run 5 (uPages st') (Some 2%nat) (Some 0%nat) = Some [2%nat; 1%nat].
Proof.
  destruct (erase_spec 5 four_pages 3%nat (Some 0%nat)) as [_ H].
  destruct (H ltac:(discriminate) (mkLogPage 0 (Some 2%nat) ∅)
              [2%nat; 1%nat])
    as (st' & He & Ht & Hp & Hh & Hm & Hr & Hf).
  - reflexivity.
  - eapply page_seg_cons; [discriminate|reflexivity|]. simpl.
    eapply page_seg_cons; [discriminate|reflexivity|]. simpl.
    apply page_seg_nil.
  - simpl. lia.
  - simpl. lia.
  - exists st'. split_and!; assumption.
Defined.

(** C8 as stated fails when [begin] and [end] are the same page: the
    link of [begin] is not exchanged with [end], the log is returned as
    it was. *)
Lemma erase_same_page_unchanged :
  erase 5 four_pages 3%nat (Some 3%nat) = Some four_pages /\
  mNext <$> (uPages four_pages !! 3%nat) <> Some (Some 3%nat).
Proof. split; [reflexivity|]. vm_compute. discriminate. Qed.

(** After one entry was appended and sealed and the sealed head was set
    behind it, the entry before the sealed head is the sealed one. *)
Lemma sealed_head_invariant_witness :
  mSealedHead (sys_log (@log_run spec_layout one_entry_sealed))
  = mkLogPosition first_page 128 /\
  sealed_entry
    (opage (sys_log (@log_run spec_layout one_entry_sealed)) first_page) 0 100.
Proof.
  split; [vm_compute; reflexivity|].
  destruct (@sealed_head_invariant spec_layout one_entry_sealed LSpawn
              spec_layout_ok) as (l & l' & Hc & _ & _ & Hs & _).
  apply Hs.
  - vm_compute. split; [split; reflexivity|right; reflexivity].
  - vm_compute. reflexivity.
  - destruct Hc as (_ & H0 & _). exists 0%nat, 0%nat.
    split_and!; [exact H0|exact H0|].
    right. split; [reflexivity|vm_compute; reflexivity].
Defined.


(** While the second thread reads the offset of the first page inside
    [createPage]. *)
Lemma no_thread_faults_witness :
  sys_threads (@log_run spec_layout two_pages_run) !! 1%nat = Some TIdle /\
  TIdle <> TFault.
Proof.
  split; [vm_compute; reflexivity|].
  apply (@no_thread_faults spec_layout two_pages_run 1%nat TIdle
           spec_layout_ok).
  vm_compute. reflexivity.
Defined.

(** The entry of the second thread, on the second page. *)
Lemma appended_entries_valid_witness :
  exists l s,
    is_chain (sys_log (@log_run spec_layout two_pages_run)) l /\
    1%nat ∈ l /\
    acquired (opage (sys_log (@log_run spec_layout two_pages_run)) 1%nat) 0 s /\
    0 <= 0 /\ 0 mod 16 = 0 /\
    0 + @entrySizeFromSize spec_layout s
    <= page_offset (opage (sys_log (@log_run spec_layout two_pages_run)) 1%nat) /\
    page_offset (opage (sys_log (@log_run spec_layout two_pages_run)) 1%nat)
    <= @MAX_ENTRY_SIZE spec_layout.
Proof.
  apply (@appended_entries_valid spec_layout two_pages_run
           (mkLogPosition 1%nat 0) spec_layout_ok).
  vm_compute. apply list_elem_of_here.
Defined.

Lemma sealed_head_valid_witness :
  mSealedHead (sys_log (@log_run spec_layout
                          (two_pages_run ++ seal_first_entry)))
  = mkLogPosition 1%nat 0 /\
  exists l,
    is_chain (sys_log (@log_run spec_layout
                         (two_pages_run ++ seal_first_entry))) l /\
    1%nat ∈ l.
Proof.
  split; [vm_compute; reflexivity|].
  destruct (@sealed_head_valid spec_layout (two_pages_run ++ seal_first_entry)
              spec_layout_ok) as (l & Hc & Hh & _).
  exists l. split; [exact Hc|exact Hh].
Defined.

Lemma entries_disjoint_witness :
  exists l,
    is_chain (sys_log (@log_run spec_layout two_pages_run)) l /\
    forall p o1 s1 o2 s2,
      p ∈ l ->
      acquired (opage (sys_log (@log_run spec_layout two_pages_run)) p) o1 s1 ->
      acquired (opage (sys_log (@log_run spec_layout two_pages_run)) p) o2 s2 ->
      o1 < o2 ->
      o1 + @entrySizeFromSize spec_layout s1 <= o2.
Proof.
  exact (@entries_disjoint spec_layout two_pages_run spec_layout_ok).
Defined.

Lemma log_grows_witness :
  exists l l' : list page_id,
    is_chain (sys_log (@log_run spec_layout two_pages_run)) l /\
    is_chain (sys_log (@log_run spec_layout
                         (two_pages_run ++ seal_first_entry))) l' /\
    (forall (i : nat) p, l !! i = Some p -> l' !! i = Some p) /\
    (forall p, p ∈ l ->
       page_le (opage (sys_log (@log_run spec_layout two_pages_run)) p)
               (opage (sys_log (@log_run spec_layout
                                  (two_pages_run ++ seal_first_entry))) p)) /\
    (forall e, e ∈ sys_handed (@log_run spec_layout two_pages_run) ->
       e ∈ sys_handed (@log_run spec_layout
                         (two_pages_run ++ seal_first_entry))) /\
    pos_le l' (mSealedHead (sys_log (@log_run spec_layout two_pages_run)))
      (mSealedHead (sys_log (@log_run spec_layout
                               (two_pages_run ++ seal_first_entry)))).
Proof.
  exact (@log_grows spec_layout two_pages_run seal_first_entry spec_layout_ok).
Defined.


(** The two threads after both returned: the entries at 0 and at 128. *)
Lemma append_exclusive_witness :
  (@page_run spec_layout (two_appenders ++ [PStep 0; PStep 0])).2 !! 0%nat
  = Some (mkAppender 100 7 (AReturn (Some 0))) /\
  holds (AReturn (Some 128)) <> Some 0.
Proof.
  split; [vm_compute; reflexivity|].
  apply (@append_exclusive spec_layout (two_appenders ++ [PStep 0; PStep 0])
           0%nat 1%nat (mkAppender 100 7 (AReturn (Some 0)))
           (mkAppender 200 9 (AReturn (Some 128))) 0 spec_layout_ok);
    [discriminate|vm_compute; reflexivity|vm_compute; reflexivity|reflexivity].
Defined.

(** The entry of the second thread while the first thread publishes,
    the entry is sealed and the page is sealed. *)
Lemma append_round_trip_witness :
  (sizeAndSealed
     (entry_at (@page_run spec_layout
                  (two_appenders ++ [PStep 0; PStep 0; PSealEntry 128; PSealPage])).1
               128)).1 = 200 /\
  mType (entry_at (@page_run spec_layout
                     (two_appenders ++ [PStep 0; PStep 0; PSealEntry 128; PSealPage])).1
                  128) = 9 /\
  0 <= 128 /\ 128 mod 16 = 0 /\
  128 + @entrySizeFromSize spec_layout 200
  <= page_offset (@page_run spec_layout
                    (two_appenders ++ [PStep 0; PStep 0; PSealEntry 128; PSealPage])).1.
Proof.
  apply (@append_round_trip spec_layout two_appenders
           [PStep 0; PStep 0; PSealEntry 128; PSealPage] 1%nat
           (mkAppender 200 9 (AReturn (Some 128))) 128 spec_layout_ok);
    vm_compute; reflexivity.
Defined.

Lemma page_grows_witness :
  page_le (@page_run spec_layout two_appenders).1
          (@page_run spec_layout
             (two_appenders ++ [PStep 0; PStep 0; PSealPage])).1.
Proof.
  exact (@page_grows spec_layout two_appenders [PStep 0; PStep 0; PSealPage]
           spec_layout_ok).
Defined.

Lemma tidy_fresh_page : tidy fresh_page.
Proof. intros o _. reflexivity. Qed.

(** A call for 100 bytes on a fresh page. *)
Lemma append_alone_witness :
  @appender_run spec_layout 4 fresh_page (@LogPage_append spec_layout 100 7)
  = (set_offset (set_entry fresh_page 0 (mkLogEntry 201 7)) 257,
     mkAppender 100 7 (AReturn (Some 0))).
Proof.
  apply (@append_alone spec_layout 100 7 fresh_page spec_layout_ok
           (@fresh_page_ok spec_layout spec_layout_ok) tidy_fresh_page).
  - lia.
  - vm_compute. discriminate.
  - vm_compute. discriminate.
Defined.

(** The first thread, which has still to publish its entry. *)
Lemma append_alone_returns_witness :
  @returns_within spec_layout
    (5 + Z.to_nat (@MAX_ENTRY_SIZE spec_layout / 16))
    (@page_run spec_layout two_appenders).1
    (mkAppender 100 7 (APublish 1 0)).
Proof.
  apply (@append_alone_returns spec_layout two_appenders 0%nat
           (mkAppender 100 7 (APublish 1 0)) spec_layout_ok).
  vm_compute. reflexivity.
Defined.


(** The walk from page 3 to page 0 of the four pages. *)
Lemma freePage_frees_witness :
  page_seg (uPages four_pages) (Some 3%nat) (Some 0%nat) [3%nat; 2%nat; 1%nat] /\
  NoDup [3%nat; 2%nat; 1%nat] /\
  (forall p, p ∈ [3%nat; 2%nat; 1%nat] ->
     Some p <> Some 0%nat /\ is_Some (uPages four_pages !! p)) /\
  (forall fuel', (length [3%nat; 2%nat; 1%nat] <= fuel')%nat ->
     freePage_run fuel' (uPages four_pages) (Some 3%nat) (Some 0%nat)
     = Some [3%nat; 2%nat; 1%nat]).
Proof.
  apply (freePage_frees 5 (uPages four_pages) (Some 3%nat) (Some 0%nat)).
  vm_compute. reflexivity.
Defined.

(** From page 3 to page 1, then from page 1 to page 0. *)
Lemma freePage_split_witness :
  freePage_run (2 + 1) (uPages four_pages) (Some 3%nat) (Some 0%nat)
  = Some ([3%nat; 2%nat] ++ [1%nat]).
Proof.
  apply (freePage_split 2 1 (uPages four_pages) (Some 3%nat) (Some 1%nat)
           (Some 0%nat)).
  - vm_compute. reflexivity.
  - vm_compute. reflexivity.
  - intros p Hp [= ->]. vm_compute in Hp.
    repeat (apply elem_of_cons in Hp as [Hp|Hp]; [discriminate|]).
    apply elem_of_nil in Hp. exact Hp.
Defined.


Lemma four_pages_counted : counted four_pages [3%nat; 2%nat; 1%nat; 0%nat].
Proof.
  split; [|reflexivity].
  apply (freePage_run_sound 5). vm_compute. reflexivity.
Qed.

Lemma six_pages_counted : counted six_pages [3%nat; 2%nat; 1%nat; 0%nat].
Proof.
  split; [|reflexivity].
  apply (freePage_run_sound 5). vm_compute. reflexivity.
Qed.


Lemma createPage_counted_witness :
  exists st' h allocs',
    createPage 2 four_pages (uHead four_pages) [Some 4%nat]
    = Some (st', h, allocs') /\
    (counted st' [3%nat; 2%nat; 1%nat; 0%nat] \/
     exists n, uPages four_pages !! n = None /\
       counted st' [n; 3%nat; 2%nat; 1%nat; 0%nat]).
Proof.
  destruct (createPage 2 four_pages (uHead four_pages) [Some 4%nat])
    as [[[st' h] allocs']|] eqn:H; [|vm_compute in H; discriminate].
  exists st', h, allocs'. split; [reflexivity|].
  apply (createPage_counted 2 four_pages (uHead four_pages) [Some 4%nat]
           st' h allocs' _ four_pages_counted); [simpl; lia|exact H].
Defined.

(** The chain of pages 5 and 4 is put before the four pages. *)
Lemma appendPage_counted_witness :
  exists st',
    appendPage 3 six_pages 5%nat 4%nat = Some st' /\
    counted st' ([5%nat] ++ 4%nat :: [3%nat; 2%nat; 1%nat; 0%nat]) /\
    uHead st' = mkLogHead (writeHead (uHead six_pages)) (Some 5%nat) /\
    (forall a, appendHead (uHead six_pages) = Some a ->
       exists pg, uPages st' !! a = Some pg /\ Z.land (mOffset pg) 1 = 0).
Proof.
  apply (appendPage_counted 3 six_pages 5%nat 4%nat [5%nat]
           [3%nat; 2%nat; 1%nat; 0%nat] six_pages_counted).
  - apply (freePage_run_sound 2). vm_compute. reflexivity.
  - vm_compute. eauto.
  - intros p Hp Hin. vm_compute in Hp.
    repeat (apply elem_of_cons in Hp as [->|Hp];
            [repeat (apply elem_of_cons in Hin as [Hin|Hin]; [discriminate|]);
             apply elem_of_nil in Hin; exact Hin|]).
    apply elem_of_nil in Hp. exact Hp.
  - simpl. lia.
  - simpl. lia.
Defined.

(** Erasing between page 3 and page 0 of the four pages. *)
Lemma erase_counted_witness :
  exists st',
    erase 4 four_pages 3%nat (Some 0%nat) = Some st' /\
    counted st' ([] ++ 3%nat :: [0%nat]) /\
    uHead st' = uHead four_pages /\
    uReclaim st' = uReclaim four_pages ++ [(Some 2%nat, Some 0%nat)] /\
    freePage_run 4 (uPages st') (Some 2%nat) (Some 0%nat)
    = Some [2%nat; 1%nat].
Proof.
  apply (erase_counted 4 four_pages 3%nat (Some 0%nat) [] [2%nat; 1%nat]
           [0%nat] four_pages_counted).
  - simpl. lia.
  - reflexivity.
  - simpl. lia.
Defined.


(** The log after the two appends: pages 0 and 1 are the chain. *)
Lemma pages_accounted_witness :
  exists l,
    is_chain (sys_log (@log_run spec_layout two_pages_run)) l /\
    (forall p,
       is_Some (oPages (sys_log (@log_run spec_layout two_pages_run)) !! p) ->
       p ∈ l \/
       exists (tid : nat) t,
         sys_threads (@log_run spec_layout two_pages_run) !! tid = Some t /\
         npage t = Some p) /\
    (Forall (fun t => t = TIdle)
            (sys_threads (@log_run spec_layout two_pages_run)) ->
     forall p,
       is_Some (oPages (sys_log (@log_run spec_layout two_pages_run)) !! p) ->
       p ∈ l).
Proof.
  exact (@pages_accounted spec_layout two_pages_run spec_layout_ok).
Defined.


(** An append to the four pages, whose write head is sealed: the page
    manager hands out page 4. *)
Lemma unordered_append_returns_witness :
  exists st' e allocs',
    @UnorderedLog_append spec_layout (Z.to_nat 200000) four_pages 100 7
      [Some 4%nat]
    = Some (st', Some e, allocs') /\
    @appended spec_layout st' 100 7 e.
Proof.
  apply (@unordered_append_returns spec_layout (Z.to_nat 200000) four_pages
           100 7 [] 3%nat (mkLogPage 0 (Some 2%nat) ∅) 4%nat spec_layout_ok).
  - lia.
  - vm_compute. discriminate.
  - reflexivity.
  - reflexivity.
  - split; [exists 0; vm_compute; split_and!; auto; discriminate
           |intros o; left; reflexivity].
  - intros a H. discriminate.
  - reflexivity.
  - simpl. lia.
  - cbv [MAX_ENTRY_SIZE TELL_PAGE_SIZE LOG_HEADER_SIZE spec_layout]. lia.
Defined.


(** An append to the four pages when the page manager has no page. *)
Lemma unordered_append_no_space_witness :
  @UnorderedLog_append spec_layout 3 four_pages 100 7 [None]
  = Some (uset_page four_pages 3%nat
            (seal_page (mkLogPage 0 (Some 2%nat) ∅)), None, []).
Proof.
  apply (@unordered_append_no_space spec_layout 3 four_pages 100 7 [] 3%nat
           (mkLogPage 0 (Some 2%nat) ∅) spec_layout_ok).
  - lia.
  - vm_compute. discriminate.
  - reflexivity.
  - reflexivity.
  - split; [exists 0; vm_compute; split_and!; auto; discriminate
           |intros o; left; reflexivity].
  - left. reflexivity.
  - lia.
Defined.


(** A thread that acquired the entry at 0 and finds the page sealed at
    0 when it publishes: its call returns null, the header at 0 stays
    acquired with size 100, beyond the used bytes of the page. *)
Lemma append_null_iff_witness :
  (@page_run spec_layout
     [PCall 100 7; PStep 0%nat; PStep 0%nat; PStep 0%nat; PSealPage;
      PStep 0%nat]).2 !! 0%nat
  = Some (mkAppender 100 7 (AReturn None)) /\
  acquired
    (@page_run spec_layout
       [PCall 100 7; PStep 0%nat; PStep 0%nat; PStep 0%nat; PSealPage;
        PStep 0%nat]).1 0 100 /\
  page_offset
    (@page_run spec_layout
       [PCall 100 7; PStep 0%nat; PStep 0%nat; PStep 0%nat; PSealPage;
        PStep 0%nat]).1 < 0 + @entrySizeFromSize spec_layout 100.
Proof.
  assert (Ha : (@page_run spec_layout
                  [PCall 100 7; PStep 0%nat; PStep 0%nat; PStep 0%nat;
                   PSealPage; PStep 0%nat]).2 !! 0%nat
               = Some (mkAppender 100 7 (AReturn None)))
    by (vm_compute; reflexivity).
  split; [exact Ha|].
  destruct (@append_null_iff spec_layout _ 0%nat _ spec_layout_ok Ha)
    as (_ & _ & _ & H4).
  destruct (H4 [PCall 100 7; PStep 0%nat; PStep 0%nat; PStep 0%nat; PSealPage]
              [] 1 0) as (Hacq & _ & Hlt & _).
  - reflexivity.
  - vm_compute. reflexivity.
  - split_and!.
    + split; [simpl; lia|]. left. vm_compute. reflexivity.
    + vm_compute. reflexivity.
    + vm_compute. reflexivity.
  - split; [exact Hacq|exact Hlt].
Defined.


End LogTheory.

Module RowStoreTheory.
Import RowStore.

Section Collector.

Context {L : Layout} {Body Entries : Type} {ops : RecordOps Body Entries}.

(** *** The scan of [gc] *)

Lemma gc_scan_clean data size lav (im : InsertMap Entries) o offs :
  packed data size o offs -> 0 <= o ->
  (forall o', In o' offs -> needsCleaning (rec_at data o') lav im = false) ->
  forall fuel, (length offs < fuel)%nat ->
  gc_scan fuel data size lav im o = Some false.
Proof.
  induction 1 as [o Ho|o l Ho Hsz Hwrap Hp IH]; intros Hpos Hclean fuel Hfuel.
  - destruct fuel; [lia|]. simpl.
    destruct (Z.ltb_spec o size); [lia|reflexivity].
  - destruct fuel as [|fuel]; [lia|]. simpl in Hfuel. simpl.
    destruct (Z.ltb_spec o size); [|lia].
    rewrite Hclean by (left; reflexivity).
    rewrite u64_small by lia.
    apply IH; [lia| |lia]. intros o' Ho'. apply Hclean. right. exact Ho'.
Qed.

(** C4.  On the first visit of a page ([mStartOffset] is 8) none of
    whose records needs cleaning, [gc] sets [done] and returns the
    input page; the object, the pages, the free pages, the pages
    marked for deletion, the insert map and the hash table are as
    before: nothing is marked and no fill page is allocated. *)
Theorem gc_nothing_to_clean (fuel : nat) (p : RowStorePage) (e : Env)
    (lav : Z) (im : InsertMap Entries) (ht : Modifier)
    (dp : Page) (offs : list Z) :
  heap e !! mData p = Some dp ->
  mStartOffset p = 8 ->
  packed (body dp) (mSize p) 8 offs ->
  (forall o, In o offs -> needsCleaning (rec_at (body dp) o) lav im = false) ->
  (length offs < fuel)%nat ->
  gc fuel p e lav im ht = Some (mkGcResult (Some (mData p)) true p e im ht).
Proof.
  intros Hdp Hstart Hpacked Hclean Hfuel. unfold gc.
  rewrite Hdp, Hstart. simpl.
  rewrite (gc_scan_clean _ _ _ _ _ _ Hpacked) by (lia || assumption).
  reflexivity.
Qed.

(** *** A fill page that fills up *)

Lemma gc_compact_start_offset fuel :
  forall p e lav (im : InsertMap Entries) ht offset r,
  gc_compact fuel p e lav im ht offset = Some r ->
  mStartOffset (gc_page r) = mStartOffset p /\
  (gc_done r = false ->
   exists f, gc_ret r = Some f /\ mFillPage p = Some f /\
     mFillPage (gc_page r) = None /\
     used <$> (heap (gc_env r) !! f) = Some (mFillOffset (gc_page r))).
Proof.
  induction fuel as [|fuel IH]; intros p e lav im ht offset r; simpl;
    [discriminate|].
  destruct (offset <? mSize p).
  - destruct (heap e !! mData p) as [dp|]; [|discriminate].
    destruct (mFillPage p) as [f|] eqn:Hf; [|discriminate].
    destruct (heap e !! f) as [fp|]; [|discriminate].
    destruct (copyAndCompact _ _ _ _ _ _) as [[[n cr] im'] body'].
    destruct cr; simpl.
    + intros H. apply IH in H. simpl in H. exact H.
    + intros [= <-]. simpl. split; [reflexivity|]. intros _.
      exists f. split_and!; auto. rewrite lookup_insert_eq. reflexivity.
  - intros [= <-]. simpl. split; [reflexivity|discriminate].
Qed.

Lemma constructFillPage_fields p e :
  mData (constructFillPage p e).1 = mData p /\
  mSize (constructFillPage p e).1 = mSize p /\
  mStartOffset (constructFillPage p e).1 = mStartOffset p.
Proof.
  unfold constructFillPage. destruct (mFillPage p); [auto|].
  destruct (pm_free e); simpl; auto.
Qed.

(** [gc] never writes [mStartOffset]; when it stops on a full fill
    page it stores the fill offset in the page's first 8 bytes, returns
    the page and closes it. *)
Lemma gc_start_offset fuel p e lav (im : InsertMap Entries) ht r :
  gc fuel p e lav im ht = Some r ->
  mStartOffset (gc_page r) = mStartOffset p /\
  (gc_done r = false ->
   exists f, gc_ret r = Some f /\ mFillPage (gc_page r) = None /\
     used <$> (heap (gc_env r) !! f) = Some (mFillOffset (gc_page r))).
Proof.
  unfold gc. destruct (heap e !! mData p) as [dp|]; [|discriminate].
  destruct (if negb (mStartOffset p =? 8) then Some true else _) as [[|]|];
    [| |discriminate].
  - pose proof (constructFillPage_fields p
      (if mStartOffset p =? 8 then markCurrentForDeletion p e else e))
      as (_ & _ & Hs).
    destruct (constructFillPage p _) as [p2 e2]. simpl in Hs.
    intros H. apply gc_compact_start_offset in H. rewrite Hs in H.
    destruct H as [H1 H2]. split; [exact H1|].
    intros Hd. destruct (H2 Hd) as (f & ? & ? & ? & ?). eauto.
  - intros [= <-]. simpl. split; [reflexivity|discriminate].
Qed.

(** *** [fillWithInserts] *)

Lemma im_erase_length (k : Z) (im : InsertMap Entries) :
  (length (im_erase k im) <= length im)%nat.
Proof.
  induction im as [|[k' v] im IH]; simpl; [lia|].
  destruct (k' =? k); simpl; lia.
Qed.

Lemma im_erase_head (k : Z) (v : Entries) (im : InsertMap Entries) :
  im_erase k ((k, v) :: im) = im.
Proof. simpl. rewrite Z.eqb_refl. reflexivity. Qed.

Lemma im_erase_sublist (k : Z) (v : Entries) (im im' : InsertMap Entries) :
  sublist im' ((k, v) :: im) ->
  (length (im_erase k im') <= length im)%nat.
Proof.
  intros H. apply sublist_cons_r in H. destruct H as [H|(l & -> & H)].
  - pose proof (im_erase_length k im'). apply sublist_length in H. lia.
  - rewrite im_erase_head. apply sublist_length. exact H.
Qed.

Lemma fill_loop_total (Hcc : consumes_only) lav f fuel :
  forall p e (im : InsertMap Entries) ht,
  mFillPage p = Some f -> is_Some (heap e !! f) ->
  (length im < fuel)%nat ->
  exists p' e' im' ht',
    fill_loop fuel p e lav im ht = Some (p', e', im', ht') /\
    mFillPage p' = Some f /\ is_Some (heap e' !! f).
Proof.
  induction fuel as [|fuel IH]; intros p e im ht Hf Hh Hfuel; [lia|].
  destruct im as [|[k v] im]; simpl; [eauto 10|].
  simpl in Hfuel. rewrite ?Z.eqb_refl.
  destruct (ht_get ht k).
  { apply IH; [assumption|assumption|lia]. }
  rewrite Hf. destruct Hh as [fp Hfp]. rewrite Hfp.
  pose proof (Hcc (dummy_rec k) lav ((k, v) :: im) (body fp) (mFillOffset p)
                  (u64 (TELL_PAGE_SIZE - mFillOffset p))) as Hsub.
  destruct (copyAndCompact _ _ _ _ _ _) as [[[n cr] im'] body'].
  simpl in Hsub. destruct cr.
  - apply IH; simpl; [reflexivity| |].
    + rewrite lookup_insert_eq. eauto.
    + pose proof (im_erase_sublist k v im im' Hsub). lia.
  - do 4 eexists. split; [reflexivity|]. simpl. split; [reflexivity|].
    rewrite lookup_insert_eq. eauto.
Qed.

(** *** What [gc] and [fillWithInserts] leave as it is *)

Lemma gc_compact_frame fuel :
  forall p e lav (im : InsertMap Entries) ht offset r,
  gc_compact fuel p e lav im ht offset = Some r ->
  (mData (gc_page r) = mData p /\ mSize (gc_page r) = mSize p /\
   mStartOffset (gc_page r) = mStartOffset p) /\
  (pm_free (gc_env r) = pm_free e /\ marked (gc_env r) = marked e) /\
  (forall q, mFillPage p <> Some q -> heap (gc_env r) !! q = heap e !! q) /\
  (exists news, inserts (gc_ht r) = inserts ht ++ news /\
     Forall (fun x => x.2 = true /\ mFillPage p = Some x.1.2.1) news) /\
  ((gc_done r = true /\ gc_ret r = None /\
    mFillPage (gc_page r) = mFillPage p) \/
   (gc_done r = false /\
    exists f, mFillPage p = Some f /\ gc_ret r = Some f /\
      mFillPage (gc_page r) = None /\
      used <$> (heap (gc_env r) !! f) = Some (mFillOffset (gc_page r)))).
Proof.
  induction fuel as [|fuel IH]; intros p e lav im ht offset r; simpl;
    [discriminate|].
  destruct (offset <? mSize p).
  - destruct (heap e !! mData p) as [dp|]; [|discriminate].
    destruct (mFillPage p) as [f|] eqn:Hf; [|discriminate].
    destruct (heap e !! f) as [fp|]; [|discriminate].
    destruct (copyAndCompact _ _ _ _ _ _) as [[[n cr] im'] body'].
    destruct cr; simpl.
    + intros H. apply IH in H. simpl in H.
      destruct H as (H1 & H2 & H3 & (news & H4 & H5) & H6).
      split; [exact H1|]. split; [exact H2|]. split; [|split; [|exact H6]].
      * intros q Hq. rewrite (H3 q Hq). apply lookup_insert_ne. congruence.
      * exists ((rec_key (rec_at (body dp) offset), (f, mFillOffset p), true)
                :: news).
        split; [rewrite H4; rewrite <- app_assoc; reflexivity|].
        apply Forall_cons. split; [split; reflexivity|exact H5].
    + intros [= <-]. simpl.
      split; [auto|]. split; [auto|]. split; [|split].
      * intros q Hq. apply lookup_insert_ne. congruence.
      * exists []. rewrite app_nil_r. split; [reflexivity|apply Forall_nil; exact I].
      * right. split; [reflexivity|]. exists f. split_and!; auto.
        rewrite lookup_insert_eq. reflexivity.
  - intros [= <-]. simpl.
    split; [auto|]. split; [auto|]. split; [auto|]. split; [|auto].
    exists []. rewrite app_nil_r. split; [reflexivity|apply Forall_nil; exact I].
Qed.

Lemma constructFillPage_frame p e :
  pm_free (constructFillPage p e).2
  = match mFillPage p with Some _ => pm_free e | None => tail (pm_free e) end /\
  marked (constructFillPage p e).2 = marked e /\
  (forall q, mFillPage (constructFillPage p e).1 <> Some q ->
     heap (constructFillPage p e).2 !! q = heap e !! q).
Proof.
  unfold constructFillPage. destruct (mFillPage p); [auto|].
  destruct (pm_free e) as [|q0 free] eqn:Hfree; simpl; split_and!; auto.
  intros q Hq. apply lookup_insert_ne. congruence.
Qed.

Lemma constructFillPage_marked p e :
  mFillPage (constructFillPage p (markCurrentForDeletion p e)).1
  = mFillPage (constructFillPage p e).1.
Proof.
  unfold constructFillPage, markCurrentForDeletion. simpl.
  destruct (mFillPage p); [reflexivity|]. destruct (pm_free e); reflexivity.
Qed.




(** X14.  What a call of [gc] touches.  It marks the page for deletion
    at most once, and only on a first visit; it writes to no page but
    the fill page, so the records of the collected page stay as they
    are; it takes at most the fill page from the page manager; and
    every entry it makes in the hash table is a relocation to the fill
    page. *)
Theorem gc_frame (fuel : nat) (p : RowStorePage) (e : Env) (lav : Z)
    (im : InsertMap Entries) (ht : Modifier) (r : GcResult) :
  gc fuel p e lav im ht = Some r ->
  (marked (gc_env r) = marked e \/
   (mStartOffset p = 8 /\ marked (gc_env r) = marked e ++ [mData p])) /\
  (forall q, mFillPage (constructFillPage p e).1 <> Some q ->
     heap (gc_env r) !! q = heap e !! q) /\
  (pm_free (gc_env r) = pm_free e \/
   (mFillPage p = None /\ pm_free (gc_env r) = tail (pm_free e))) /\
  (exists news, inserts (gc_ht r) = inserts ht ++ news /\
     Forall (fun x => x.2 = true /\
               mFillPage (constructFillPage p e).1 = Some x.1.2.1) news).
Proof.
  unfold gc. destruct (heap e !! mData p) as [dp|]; [|discriminate].
  assert (Hnone : forall r0 : GcResult,
            r0 = mkGcResult (Some (mData p)) true p e im ht ->
            (marked (gc_env r0) = marked e \/
             (mStartOffset p = 8 /\ marked (gc_env r0) = marked e ++ [mData p])) /\
            (forall q, mFillPage (constructFillPage p e).1 <> Some q ->
               heap (gc_env r0) !! q = heap e !! q) /\
            (pm_free (gc_env r0) = pm_free e \/
             (mFillPage p = None /\ pm_free (gc_env r0) = tail (pm_free e))) /\
            (exists news, inserts (gc_ht r0) = inserts ht ++ news /\
               Forall (fun x => x.2 = true /\
                         mFillPage (constructFillPage p e).1 = Some x.1.2.1)
                      news)).
  { intros r0 ->. simpl. split_and!; auto.
    exists []. rewrite app_nil_r. split; [reflexivity|apply Forall_nil; exact I]. }
  assert (Hrun : forall e1,
            heap e1 = heap e -> pm_free e1 = pm_free e ->
            (marked e1 = marked e \/
             (mStartOffset p = 8 /\ marked e1 = marked e ++ [mData p])) ->
            mFillPage (constructFillPage p e1).1
            = mFillPage (constructFillPage p e).1 ->
            gc_compact fuel (constructFillPage p e1).1 (constructFillPage p e1).2
              lav im ht (mStartOffset (constructFillPage p e1).1) = Some r ->
            (marked (gc_env r) = marked e \/
             (mStartOffset p = 8 /\ marked (gc_env r) = marked e ++ [mData p])) /\
            (forall q, mFillPage (constructFillPage p e).1 <> Some q ->
               heap (gc_env r) !! q = heap e !! q) /\
            (pm_free (gc_env r) = pm_free e \/
             (mFillPage p = None /\ pm_free (gc_env r) = tail (pm_free e))) /\
            (exists news, inserts (gc_ht r) = inserts ht ++ news /\
               Forall (fun x => x.2 = true /\
                         mFillPage (constructFillPage p e).1 = Some x.1.2.1)
                      news)).
  { intros e1 Hh Hp Hm Hfp H.
    pose proof (constructFillPage_frame p e1) as (Hc1 & Hc2 & Hc3).
    apply gc_compact_frame in H.
    destruct H as (_ & (H2 & H3) & H4 & H5 & _).
    rewrite Hfp in *. split_and!.
    - rewrite H3, Hc2. exact Hm.
    - intros q Hq. rewrite (H4 q Hq), (Hc3 q Hq), Hh. reflexivity.
    - rewrite H2, Hc1, Hp. destruct (mFillPage p); auto.
    - exact H5. }
  destruct (Z.eqb_spec (mStartOffset p) 8) as [H8|H8]; simpl.
  - destruct (gc_scan _ _ _ _ _ _) as [[|]|]; [| |discriminate].
    + intros H. apply (Hrun (markCurrentForDeletion p e)); auto.
      * apply constructFillPage_marked.
      * destruct (constructFillPage p (markCurrentForDeletion p e)). exact H.
    + intros [= <-]. apply Hnone. reflexivity.
  - intros H. apply (Hrun e); auto.
    destruct (constructFillPage p e). exact H.
Qed.


Lemma fill_loop_keeps fuel :
  forall p e lav (im : InsertMap Entries) ht p' e' im' ht',
  fill_loop fuel p e lav im ht = Some (p', e', im', ht') ->
  (forall k loc, ht_get ht k = Some loc -> ht_get ht' k = Some loc) /\
  (exists news, inserts ht' = inserts ht ++ news /\
     Forall (fun x => x.2 = false /\ mFillPage p = Some x.1.2.1 /\
               ht_get ht x.1.1 = None) news) /\
  (mData p' = mData p /\ mSize p' = mSize p /\
   mStartOffset p' = mStartOffset p /\ mFillPage p' = mFillPage p) /\
  (pm_free e' = pm_free e /\ marked e' = marked e) /\
  (forall q, mFillPage p <> Some q -> heap e' !! q = heap e !! q).
Proof.
  induction fuel as [|fuel IH]; intros p e lav im ht p' e' im' ht'; simpl;
    [discriminate|].
  assert (Hbase : forall p0 e0 (im0 : InsertMap Entries),
            Some (p0, e0, im0, ht) = Some (p', e', im', ht') ->
            mData p0 = mData p -> mSize p0 = mSize p ->
            mStartOffset p0 = mStartOffset p -> mFillPage p0 = mFillPage p ->
            pm_free e0 = pm_free e -> marked e0 = marked e ->
            (forall q, mFillPage p <> Some q -> heap e0 !! q = heap e !! q) ->
            (forall k loc, ht_get ht k = Some loc -> ht_get ht' k = Some loc) /\
            (exists news, inserts ht' = inserts ht ++ news /\
               Forall (fun x => x.2 = false /\ mFillPage p = Some x.1.2.1 /\
                         ht_get ht x.1.1 = None) news) /\
            (mData p' = mData p /\ mSize p' = mSize p /\
             mStartOffset p' = mStartOffset p /\ mFillPage p' = mFillPage p) /\
            (pm_free e' = pm_free e /\ marked e' = marked e) /\
            (forall q, mFillPage p <> Some q -> heap e' !! q = heap e !! q)).
  { intros p0 e0 im0 [= <- <- <- <-] ? ? ? ? ? ? ?.
    split; [auto|]. split; [|auto].
    exists []. rewrite app_nil_r. split; [reflexivity|apply Forall_nil; exact I]. }
  destruct im as [|[key v] im]; [intros H; eapply Hbase; eauto|].
  destruct (ht_get ht key) eqn:Hget.
  { intros H. apply IH in H. exact H. }
  destruct (mFillPage p) as [f|] eqn:Hf; [|discriminate].
  destruct (heap e !! f) as [fp|]; [|discriminate].
  destruct (copyAndCompact _ _ _ _ _ _) as [[[n cr] im1] body'].
  destruct cr.
  - intros H. apply IH in H. simpl in H.
    destruct H as (H1 & (news & H2 & H3) & (H4 & H5 & H6 & H7) & (H8 & H9) & H10).
    split; [|split; [|split; [|split]]].
    + intros k loc Hk. apply H1. unfold ht_get, ht_insert in *. simpl.
      rewrite lookup_insert_ne; [exact Hk|]. intros <-. congruence.
    + exists ((key, (f, mFillOffset p), false) :: news).
      split; [rewrite H2; rewrite <- app_assoc; reflexivity|].
      apply Forall_cons. split; [simpl; auto|].
      eapply Forall_impl; [exact H3|]. intros x (Hx1 & Hx2 & Hx3).
      split_and!; auto. unfold ht_get, ht_insert in *. simpl in Hx3.
      destruct (decide (key = x.1.1)) as [Heq|Hne].
      * rewrite Heq, lookup_insert_eq in Hx3. discriminate.
      * rewrite lookup_insert_ne in Hx3 by assumption. exact Hx3.
    + auto.
    + auto.
    + intros q Hq. rewrite (H10 q Hq). apply lookup_insert_ne. congruence.
  - intros H. eapply Hbase; eauto.
    simpl. intros q Hq. apply lookup_insert_ne. congruence.
Qed.

Lemma fill_loop_known lav fuel :
  forall p e (im : InsertMap Entries) ht,
  (forall k v, In (k, v) im -> is_Some (ht_get ht k)) ->
  (length im < fuel)%nat ->
  fill_loop fuel p e lav im ht = Some (p, e, [], ht).
Proof.
  induction fuel as [|fuel IH]; intros p e im ht Hknown Hfuel; [lia|].
  destruct im as [|[k v] im]; simpl; [reflexivity|].
  simpl in Hfuel. rewrite ?Z.eqb_refl.
  destruct (Hknown k v (or_introl eq_refl)) as [loc ->].
  apply IH; [|lia]. intros k' v' Hin. apply (Hknown k' v'). right. exact Hin.
Qed.

(** The entries the loop meets before the first key without a location
    are dropped, one round each. *)
Lemma fill_loop_skips lav fuel p e (known rest : InsertMap Entries) ht :
  (forall k v, In (k, v) known -> is_Some (ht_get ht k)) ->
  fill_loop (length known + fuel) p e lav (known ++ rest) ht
  = fill_loop fuel p e lav rest ht.
Proof.
  induction known as [|[k v] known IH]; intros Hknown; [reflexivity|].
  cbn [length Nat.add app fill_loop].
  destruct (Hknown k v (or_introl eq_refl)) as [loc ->].
  rewrite im_erase_head. apply IH.
  intros k' v' Hin. apply (Hknown k' v'). right. exact Hin.
Qed.

(** No pending insert is lost: the key of every entry has a location
    afterwards, or is still in the insert map. *)
Lemma fill_loop_accounts (Hkk : keeps_keys) lav fuel :
  forall p e (im : InsertMap Entries) ht p' e' im' ht',
  fill_loop fuel p e lav im ht = Some (p', e', im', ht') ->
  forall k, In k (map fst im) ->
    is_Some (ht_get ht' k) \/ In k (map fst im').
Proof.
  induction fuel as [|fuel IH]; intros p e im ht p' e' im' ht' Hrun;
    [discriminate|].
  pose proof (fill_loop_keeps _ _ _ _ _ _ _ _ _ _ Hrun) as (Hmono & _).
  cbn [fill_loop] in Hrun.
  destruct im as [|[key v] im]; [intros k []|].
  destruct (ht_get ht key) as [loc|] eqn:Hget.
  - rewrite im_erase_head in Hrun. intros k [<-|Hin].
    + left. exists loc. apply Hmono. exact Hget.
    + eapply IH; eassumption.
  - destruct (mFillPage p) as [f|] eqn:Hf; [|discriminate].
    destruct (heap e !! f) as [fp|] eqn:Hfp; [|discriminate].
    pose proof (Hkk key lav ((key, v) :: im) (body fp) (mFillOffset p)
                  (u64 (TELL_PAGE_SIZE - mFillOffset p))) as Hkeys.
    destruct (copyAndCompact _ _ _ _ _ _) as [[[n cr] im1] body'].
    cbn [fst snd map] in Hkeys. destruct cr.
    + destruct im1 as [|[key1 v1] im1]; [discriminate|].
      cbn [map fst] in Hkeys. injection Hkeys as -> Hkeys.
      rewrite im_erase_head in Hrun.
      pose proof (fill_loop_keeps _ _ _ _ _ _ _ _ _ _ Hrun) as (Hmono' & _).
      intros k [<-|Hin].
      * left. eexists. apply Hmono'.
        unfold ht_get, ht_insert. simpl. apply lookup_insert_eq.
      * eapply IH; [exact Hrun|]. rewrite Hkeys. exact Hin.
    + injection Hrun as <- <- <- <-. intros k Hin. right.
      rewrite Hkeys. exact Hin.
Qed.

(** C10.  When a fill page is open or can be constructed, and
    [copyAndCompact] only takes entries out of the insert map (so that
    the loop ends), [fillWithInserts] returns for every insert map.  It
    returns the fill page; it stores in the first 8 bytes of that page
    the value [mFillOffset] has when the loop ends and leaves the rest
    of the page, and every other page, as the loop left them; and the
    object keeps that [mFillOffset] and has [mFillPage] null.  On an
    insert map that is empty, or has only keys with a location, that
    value is the fill offset the call started with (8 on a page it
    constructed) and the loop changes nothing; when the first insert
    does not fit, it is that offset plus the bytes [copyAndCompact]
    reported. *)
Theorem fillWithInserts_finalizes (fuel : nat) (p : RowStorePage) (e : Env)
    (lav : Z) (im : InsertMap Entries) (ht : Modifier) (f : page_id) :
  consumes_only ->
  mFillPage (constructFillPage p e).1 = Some f ->
  (mFillPage p = Some f -> is_Some (heap e !! f)) ->
  (length im < fuel)%nat ->
  let p1 := (constructFillPage p e).1 in
  let e1 := (constructFillPage p e).2 in
  exists p2 e2 im2 ht2 fp,
    fill_loop fuel p1 e1 lav im ht = Some (p2, e2, im2, ht2) /\
    heap e2 !! f = Some fp /\
    fillWithInserts fuel p e lav im ht
    = Some (mkFillResult (Some f)
              (mkRowStorePage (mData p) (mSize p) (mStartOffset p) None
                              (mFillOffset p2))
              (mkEnv (<[f := mkPage (mFillOffset p2) (body fp)]> (heap e2))
                     (pm_free e2) (marked e2))
              im2 ht2) /\
    ((forall k v, In (k, v) im -> is_Some (ht_get ht k)) ->
     p2 = p1 /\ e2 = e1 /\ im2 = [] /\ ht2 = ht) /\
    (forall k v im0 fp1 n im' body',
       im = (k, v) :: im0 -> ht_get ht k = None ->
       heap e1 !! f = Some fp1 ->
       copyAndCompact (dummy_rec k) lav im (body fp1) (mFillOffset p1)
         (u64 (TELL_PAGE_SIZE - mFillOffset p1)) = (n, false, im', body') ->
       mFillOffset p2 = u64 (mFillOffset p1 + n) /\
       fp = mkPage (used fp1) body' /\ im2 = im' /\ ht2 = ht).
Proof.
  intros Hcc Hf Hopen Hfuel p1 e1. unfold fillWithInserts.
  assert (Hh : is_Some (heap (constructFillPage p e).2 !! f)).
  { revert Hf. unfold constructFillPage.
    destruct (mFillPage p) as [g|] eqn:Hg; simpl.
    - intros Hpf. apply Hopen. congruence.
    - destruct (pm_free e); simpl; [discriminate|].
      intros [= ->]. rewrite lookup_insert_eq. eauto. }
  pose proof (constructFillPage_fields p e) as (Hd & Hs & Hso).
  fold p1 in Hf, Hd, Hs, Hso. fold e1 in Hh.
  replace (constructFillPage p e) with (p1, e1)
    by (unfold p1, e1; destruct (constructFillPage p e); reflexivity).
  destruct (fill_loop_total Hcc lav f fuel p1 e1 im ht Hf Hh Hfuel)
    as (p2 & e2 & im2 & ht2 & Hloop & Hf2 & [fp Hfp]).
  pose proof (fill_loop_keeps _ _ _ _ _ _ _ _ _ _ Hloop)
    as (_ & _ & (Hk1 & Hk2 & Hk3 & _) & _).
  exists p2, e2, im2, ht2, fp. rewrite Hloop, Hf2, Hfp.
  split; [reflexivity|]. split; [reflexivity|].
  split; [rewrite Hk1, Hk2, Hk3, Hd, Hs, Hso; reflexivity|]. split.
  - intros Hknown.
    rewrite (fill_loop_known lav fuel p1 e1 im ht Hknown Hfuel) in Hloop.
    injection Hloop as <- <- <- <-. auto.
  - intros k v im0 fp1 n im' body' -> Hget Hfp1 Hcopy.
    destruct fuel; [simpl in Hfuel; lia|]. cbn [fill_loop] in Hloop.
    rewrite Hget, Hf, Hfp1, Hcopy in Hloop.
    injection Hloop as <- <- <- <-. simpl in Hfp.
    rewrite lookup_insert_eq in Hfp. injection Hfp as <-. auto.
Qed.

(** C5, as the code has it.  The entries the loop reaches whose keys
    have a location in the hash table are erased and the loop goes on
    with the object, the pages and the hash table as they are; an
    entry that is folded is recorded by [insert(key, pos)] without the
    relocation flag, at the position the fill page had; at the first
    entry that does not fit the loop stops, and the insert map is left
    as [copyAndCompact] left it: no entry behind that one is looked
    at, whether its key has a location or not.  When [copyAndCompact]
    on the dummy record leaves the keys of the insert map in place, no
    pending insert is lost in a run: afterwards the key of every entry
    has a location, or is still in the insert map.  So after a run
    that did not stop early (it left the insert map empty), a second
    run on the same entries leaves the hash table as it is and writes
    no record: it only takes a page from the page manager and returns
    it empty, with 8 in its first 8 bytes.  Every entry a run makes in
    the hash table is a plain one (not a relocation), for a key that
    had no location, and points into the page the run returns. *)
Theorem fillWithInserts_known_keys :
  (forall fuel p e lav (known rest : InsertMap Entries) ht,
     (forall k v, In (k, v) known -> is_Some (ht_get ht k)) ->
     fill_loop (length known + fuel) p e lav (known ++ rest) ht
     = fill_loop fuel p e lav rest ht) /\
  (forall fuel p e lav k v (im : InsertMap Entries) ht f fp n im' body',
     ht_get ht k = None -> mFillPage p = Some f -> heap e !! f = Some fp ->
     copyAndCompact (dummy_rec k) lav ((k, v) :: im) (body fp) (mFillOffset p)
       (u64 (TELL_PAGE_SIZE - mFillOffset p)) = (n, true, im', body') ->
     fill_loop (S fuel) p e lav ((k, v) :: im) ht
     = fill_loop fuel
         (mkRowStorePage (mData p) (mSize p) (mStartOffset p) (Some f)
                         (u64 (mFillOffset p + n)))
         (mkEnv (<[f := mkPage (used fp) body']> (heap e))
                (pm_free e) (marked e))
         lav (im_erase k im') (ht_insert ht k (f, mFillOffset p) false)) /\
  (forall fuel p e lav (known : InsertMap Entries) k v rest ht f fp n im' body',
     (forall k' v', In (k', v') known -> is_Some (ht_get ht k')) ->
     ht_get ht k = None -> mFillPage p = Some f -> heap e !! f = Some fp ->
     copyAndCompact (dummy_rec k) lav ((k, v) :: rest) (body fp)
       (mFillOffset p) (u64 (TELL_PAGE_SIZE - mFillOffset p))
     = (n, false, im', body') ->
     fill_loop (length known + S fuel) p e lav (known ++ (k, v) :: rest) ht
     = Some (mkRowStorePage (mData p) (mSize p) (mStartOffset p) (Some f)
                            (u64 (mFillOffset p + n)),
             mkEnv (<[f := mkPage (used fp) body']> (heap e))
                   (pm_free e) (marked e),
             im', ht)) /\
  (forall fuel p e lav (im : InsertMap Entries) ht r,
     keeps_keys ->
     fillWithInserts fuel p e lav im ht = Some r ->
     (forall k, In k (map fst im) ->
        is_Some (ht_get (fr_ht r) k) \/ In k (map fst (fr_im r))) /\
     (fr_im r = [] ->
      forall fuel2 lav2 q free,
        (length im < fuel2)%nat -> pm_free (fr_env r) = q :: free ->
        fillWithInserts fuel2 (fr_page r) (fr_env r) lav2 im (fr_ht r)
        = Some (mkFillResult (Some q)
                  (mkRowStorePage (mData (fr_page r)) (mSize (fr_page r))
                                  (mStartOffset (fr_page r)) None 8)
                  (mkEnv (<[q := mkPage 8 empty_body]> (heap (fr_env r)))
                         free (marked (fr_env r)))
                  [] (fr_ht r)))) /\
  (forall fuel p e lav (im : InsertMap Entries) ht r,
     fillWithInserts fuel p e lav im ht = Some r ->
     exists news, inserts (fr_ht r) = inserts ht ++ news /\
       Forall (fun x => x.2 = false /\ fr_ret r = Some x.1.2.1 /\
                 ht_get ht x.1.1 = None) news).
Proof.
  split_and!.
  2: { intros fuel p e lav k v im ht f fp n im' body' Hget Hf Hfp Hcc.
       simpl. rewrite Hget, Hf, Hfp. simpl in Hcc. rewrite Hcc. reflexivity. }
  4: { intros fuel p e lav im ht r. unfold fillWithInserts.
       pose proof (constructFillPage_fields p e) as (Hf1 & Hf2 & Hf3).
       destruct (constructFillPage p e) as [p1 e1]. simpl in *.
       destruct (fill_loop fuel p1 e1 lav im ht) as [[[[p2 e2] im2] ht2]|]
         eqn:Hloop; [|discriminate].
       apply fill_loop_keeps in Hloop.
       destruct Hloop as (_ & (news & H2 & H3) & (_ & _ & _ & H7) & _).
       destruct (mFillPage p2) as [f|] eqn:Hfp; [|discriminate].
       destruct (heap e2 !! f) as [fp|]; [|discriminate].
       intros [= <-]. simpl. exists news. split; [exact H2|].
       eapply Forall_impl; [exact H3|]. intros x (Hx1 & Hx2 & Hx3).
       split_and!; auto. congruence. }
  - intros fuel p e lav known rest ht Hknown. apply fill_loop_skips. exact Hknown.
  - intros fuel p e lav known k v rest ht f fp n im' body' Hknown Hget Hf Hfp Hcc.
    rewrite fill_loop_skips by exact Hknown.
    simpl. rewrite Hget, Hf, Hfp. simpl in Hcc. rewrite Hcc. reflexivity.
  - intros fuel p e lav im ht r Hkk Hrun.
    assert (Hacc : forall k, In k (map fst im) ->
              is_Some (ht_get (fr_ht r) k) \/ In k (map fst (fr_im r))).
    { revert Hrun. unfold fillWithInserts.
      destruct (constructFillPage p e) as [p1 e1].
      destruct (fill_loop fuel p1 e1 lav im ht) as [[[[p2 e2] im2] ht2]|]
        eqn:Hloop; [|discriminate].
      destruct (mFillPage p2) as [f|]; [|discriminate].
      destruct (heap e2 !! f) as [fp|]; [|discriminate].
      intros [= <-]. simpl.
      exact (fill_loop_accounts Hkk lav fuel _ _ _ _ _ _ _ _ Hloop). }
    split; [exact Hacc|].
    intros Hnil fuel2 lav2 q free Hfuel2 Hfree.
    assert (Hnone : mFillPage (fr_page r) = None).
    { revert Hrun. unfold fillWithInserts.
      destruct (constructFillPage p e) as [p1 e1].
      destruct (fill_loop fuel p1 e1 lav im ht) as [[[[p2 e2] im2] ht2]|];
        [|discriminate].
      destruct (mFillPage p2) as [f|]; [|discriminate].
      destruct (heap e2 !! f) as [fp|]; [|discriminate].
      intros [= <-]. reflexivity. }
    unfold fillWithInserts, constructFillPage. rewrite Hnone, Hfree.
    rewrite (fill_loop_known lav2 fuel2); [|
      intros k v Hin;
      destruct (Hacc k) as [Hk|Hk];
      [apply (in_map fst) in Hin; exact Hin|exact Hk|
       rewrite Hnil in Hk; destruct Hk]|exact Hfuel2].
    cbn [mFillPage heap]. rewrite lookup_insert_eq.
    cbn [mData mSize mStartOffset mFillOffset body pm_free marked].
    rewrite insert_insert_eq. reflexivity.
Qed.


(** X15.  [fillWithInserts] never changes the location the hash table
    has for a key: it makes an entry only for a key that has none, a
    plain entry (not a relocation) that points into the fill page it
    returns.  It writes to no page but that fill page, marks nothing
    for deletion, and leaves [mData], [mSize] and [mStartOffset] of
    the page object as they are. *)
Theorem fillWithInserts_keeps (fuel : nat) (p : RowStorePage) (e : Env)
    (lav : Z) (im : InsertMap Entries) (ht : Modifier) (r : FillResult) :
  fillWithInserts fuel p e lav im ht = Some r ->
  (forall k loc, ht_get ht k = Some loc -> ht_get (fr_ht r) k = Some loc) /\
  (exists news, inserts (fr_ht r) = inserts ht ++ news /\
     Forall (fun x => x.2 = false /\ fr_ret r = Some x.1.2.1 /\
               ht_get ht x.1.1 = None) news) /\
  (forall q, fr_ret r <> Some q -> heap (fr_env r) !! q = heap e !! q) /\
  marked (fr_env r) = marked e /\
  (mData (fr_page r) = mData p /\ mSize (fr_page r) = mSize p /\
   mStartOffset (fr_page r) = mStartOffset p).
Proof.
  unfold fillWithInserts.
  pose proof (constructFillPage_fields p e) as (Hf1 & Hf2 & Hf3).
  pose proof (constructFillPage_frame p e) as (Hc1 & Hc2 & Hc3).
  destruct (constructFillPage p e) as [p1 e1]. simpl in *.
  destruct (fill_loop fuel p1 e1 lav im ht) as [[[[p2 e2] im2] ht2]|] eqn:Hloop;
    [|discriminate].
  apply fill_loop_keeps in Hloop.
  destruct Hloop as (H1 & (news & H2 & H3) & (H4 & H5 & H6 & H7) & (H8 & H9) & H10).
  destruct (mFillPage p2) as [f|] eqn:Hfp; [|discriminate].
  destruct (heap e2 !! f) as [fp|]; [|discriminate].
  intros [= <-]. simpl. split_and!; auto; try congruence.
  - exists news. split; [exact H2|].
    eapply Forall_impl; [exact H3|]. intros x (Hx1 & Hx2 & Hx3).
    split_and!; auto. congruence.
  - intros q Hq. rewrite lookup_insert_ne by congruence.
    rewrite H10 by congruence. apply Hc3. congruence.
Qed.


End Collector.

(** *** Instances *)

(** C3, evaluated.  [gc] on a page of two records, the second of which
    does not fit the open fill page: the first call relocates record 1,
    finalizes and returns the fill page with [done = false], and leaves
    [mStartOffset] at 8; the second call, with a fresh fill page, starts
    again at offset 8: it marks the page a second time and relocates
    record 1 a second time before it relocates record 2. *)
Theorem gc_second_call_restarts :
  exists r1 r2,
    @gc Log.spec_layout _ _ toy_ops 10 two_records_page two_records_env 5 []
        two_records_table = Some r1 /\
    gc_ret r1 = Some 1%nat /\ gc_done r1 = false /\
    mFillPage (gc_page r1) = None /\
    used <$> (heap (gc_env r1) !! 1%nat) = Some 1572864 /\
    mFillOffset (gc_page r1) = 1572864 /\
    inserts (gc_ht r1) = [(1, (1%nat, 1048576), true)] /\
    mStartOffset (gc_page r1) = 8 /\
    @gc Log.spec_layout _ _ toy_ops 10 (gc_page r1) (gc_env r1) 5 (gc_im r1)
        (gc_ht r1) = Some r2 /\
    gc_done r2 = true /\
    marked (gc_env r2) = [0%nat; 0%nat] /\
    inserts (gc_ht r2) =
      [(1, (1%nat, 1048576), true); (1, (2%nat, 8), true);
       (2, (2%nat, 524296), true)].
Proof.
  eexists. eexists. split; [vm_compute; reflexivity|].
  vm_compute. repeat split.
Qed.

(** The page of two records with no version to drop. *)
Lemma gc_nothing_to_clean_witness :
  @gc Log.spec_layout _ _ toy_ops 10 two_records_page two_records_env 0 []
      two_records_table
  = Some (mkGcResult (Some 0%nat) true two_records_page two_records_env []
                     two_records_table).
Proof.
  apply (@gc_nothing_to_clean Log.spec_layout _ _ toy_ops 10 two_records_page
           two_records_env 0 [] two_records_table
           (mkPage 1310728 [(8, (1, 524288)); (524296, (2, 786432))])
           [8; 524296]).
  - reflexivity.
  - reflexivity.
  - apply packed_rec; simpl; try lia.
    apply packed_rec; simpl; try lia.
    apply packed_end. simpl. lia.
  - intros o [<-|[<-|[]]]; reflexivity.
  - simpl. lia.
Defined.

Lemma toy_consumes_only : @consumes_only toy_body Z toy_ops.
Proof.
  intros rec lav im dest off max. simpl.
  destruct (_ <=? _); simpl; reflexivity.
Qed.

Lemma toy_keeps_keys : @keeps_keys toy_body Z toy_ops.
Proof.
  intros k lav im dest off max. simpl.
  destruct (_ <=? _); simpl; reflexivity.
Qed.

(** Two pending inserts, of which the second does not fit the page. *)
Lemma fillWithInserts_finalizes_witness :
  exists r,
    @fillWithInserts Log.spec_layout _ _ toy_ops 5 nearly_full_page
      nearly_full_env 0 [(1, 64); (2, 200)] (mkModifier ∅ []) = Some r /\
    fr_ret r = Some 1%nat /\
    mFillPage (fr_page r) = None /\
    mFillOffset (fr_page r) = 2097116 /\
    heap (fr_env r) !! 1%nat = Some (mkPage 2097116 [(2097052, (1, 64))]) /\
    fr_im r = [(2, 200)].
Proof.
  destruct (@fillWithInserts_finalizes Log.spec_layout _ _ toy_ops 5
              nearly_full_page nearly_full_env 0 [(1, 64); (2, 200)]
              (mkModifier ∅ []) 1%nat)
    as (p2 & e2 & im2 & ht2 & fp & Hloop & Hfp & Heq & _).
  - exact toy_consumes_only.
  - reflexivity.
  - intros _. vm_compute. eauto.
  - simpl. lia.
  - vm_compute in Hloop. injection Hloop as <- <- <- <-.
    vm_compute in Hfp. injection Hfp as <-.
    eexists. split; [exact Heq|]. vm_compute. repeat split.
Defined.

(** C5 as stated fails when a run stops early.  The insert of key 2
    does not fit the nearly full page: the first run leaves it in the
    insert map, and a second run on that map folds it into a fresh page
    and records it in the hash table, so two runs differ from one.  And
    an entry behind an insert that does not fit stays in the insert
    map although its key has a location: the loop never reaches it. *)
Lemma fillWithInserts_twice_differs :
  (exists r1 r2,
    @fillWithInserts Log.spec_layout _ _ toy_ops 5 nearly_full_page
      nearly_full_env 0 [(1, 64); (2, 200)] (mkModifier ∅ []) = Some r1 /\
    @fillWithInserts Log.spec_layout _ _ toy_ops 5 (fr_page r1) (fr_env r1) 0
      (fr_im r1) (fr_ht r1) = Some r2 /\
    fr_im r1 = [(2, 200)] /\
    inserts (fr_ht r1) = [(1, (1%nat, 2097052), false)] /\
    inserts (fr_ht r2) =
      [(1, (1%nat, 2097052), false); (2, (2%nat, 8), false)] /\
    ht_get (fr_ht r1) 2 = None /\
    ht_get (fr_ht r2) 2 = Some (2%nat, 8)) /\
  (exists r,
    @fillWithInserts Log.spec_layout _ _ toy_ops 5 nearly_full_page
      nearly_full_env 0 [(1, 200); (2, 64)]
      (mkModifier (<[2 := (0%nat, 8)]> ∅) []) = Some r /\
    ht_get (mkModifier (<[2 := (0%nat, 8)]> ∅) []) 2 = Some (0%nat, 8) /\
    fr_im r = [(1, 200); (2, 64)]).
Proof.
  split.
  - eexists. eexists. split; [vm_compute; reflexivity|].
    vm_compute. repeat split.
  - eexists. split; [vm_compute; reflexivity|]. vm_compute. repeat split.
Qed.

(** A run that folds its one insert, and a second run on the same
    entry: it takes page 2 from the page manager and returns it
    empty. *)
Lemma fillWithInserts_known_keys_witness :
  exists r r2,
    @fillWithInserts Log.spec_layout _ _ toy_ops 5 nearly_full_page
      nearly_full_env 0 [(1, 64)] (mkModifier ∅ []) = Some r /\
    @fillWithInserts Log.spec_layout _ _ toy_ops 5 (fr_page r) (fr_env r) 0
      [(1, 64)] (fr_ht r) = Some r2 /\
    fr_ret r2 = Some 2%nat /\ fr_ht r2 = fr_ht r /\ fr_im r2 = [] /\
    mFillOffset (fr_page r2) = 8 /\
    heap (fr_env r2) !! 2%nat = Some (mkPage 8 []).
Proof.
  destruct (@fillWithInserts Log.spec_layout _ _ toy_ops 5 nearly_full_page
              nearly_full_env 0 [(1, 64)] (mkModifier ∅ [])) as [r|] eqn:H;
    [|vm_compute in H; discriminate].
  destruct (@fillWithInserts_known_keys Log.spec_layout _ _ toy_ops)
    as (_ & _ & _ & H3 & _).
  destruct (H3 5%nat nearly_full_page nearly_full_env 0 [(1, 64)]
              (mkModifier ∅ []) r toy_keeps_keys H) as [_ H4].
  eexists. eexists. split; [reflexivity|]. split.
  - apply (H4 ltac:(vm_compute in H; injection H as <-; reflexivity)
              5%nat 0 2%nat []); [simpl; lia|].
    vm_compute in H. injection H as <-. reflexivity.
  - simpl. split_and!; auto. apply lookup_insert_eq.
Defined.


Lemma gc_frame_witness :
  exists r,
    @gc Log.spec_layout _ _ toy_ops 10 two_records_page two_records_env 5 []
        two_records_table = Some r /\
    heap (gc_env r) !! 0%nat = heap two_records_env !! 0%nat.
Proof.
  destruct (@gc Log.spec_layout _ _ toy_ops 10 two_records_page
              two_records_env 5 [] two_records_table) as [r|] eqn:H;
    [|vm_compute in H; discriminate].
  exists r. split; [reflexivity|].
  apply (@gc_frame Log.spec_layout _ _ toy_ops 10 two_records_page
           two_records_env 5 [] two_records_table r H).
  vm_compute. discriminate.
Defined.

(** Two pending inserts, and a key that has a location. *)
Lemma fillWithInserts_keeps_witness :
  exists r,
    @fillWithInserts Log.spec_layout _ _ toy_ops 5 nearly_full_page
      nearly_full_env 0 [(1, 64); (2, 200)]
      (mkModifier (<[7 := (0%nat, 8)]> ∅) []) = Some r /\
    ht_get (fr_ht r) 7 = Some (0%nat, 8).
Proof.
  destruct (@fillWithInserts Log.spec_layout _ _ toy_ops 5 nearly_full_page
              nearly_full_env 0 [(1, 64); (2, 200)]
              (mkModifier (<[7 := (0%nat, 8)]> ∅) [])) as [r|] eqn:H;
    [|vm_compute in H; discriminate].
  exists r. split; [reflexivity|].
  apply (@fillWithInserts_keeps Log.spec_layout _ _ toy_ops 5 nearly_full_page
           nearly_full_env 0 [(1, 64); (2, 200)]
           (mkModifier (<[7 := (0%nat, 8)]> ∅) []) r H).
  reflexivity.
Defined.


End RowStoreTheory.
